(** * generate_games_js.py: a shallow embedding and its verified properties

    The script reads a list of BoardGameGeek user names from [users.js],
    fetches every user's owned games, resolves the primary name of every
    game, and writes [games.js].  This development embeds the script's
    functions in Rocq and proves the properties its design document states.

    Conventions of the embedding.
    - A Python [str] is a [string]; its characters are the code points
      0..255, which is where every character the script tests for lives.
    - A Python [int] is a [Z].  [int(s)] has the digit limit of the
      interpreter at its default of 4300 digits; [str(n)] is modelled
      for the integers below that limit.
    - A [dict] is a [gmap], a [set] is a [gset]; lists are lists.
    - Exceptions are values of [exn]; a function that may raise returns a
      [result].
    - The network, the clock and the output file form a [World] that is
      threaded through the effectful functions (the monad [M]).
    - Durations passed to [time.sleep] are counted in milliseconds.
    - Diagnostic [print]s to stderr are not part of the model.
    - Three functions of the Python library are parameters: the XML
      parser [ET.fromstring], [str.casefold] and the [unicode_escape]
      codec.

    The file has the embedding first, then the definitions the
    properties are stated with and the test doubles of the examples,
    and then the properties, numbered C1 to C10. *)

From Stdlib Require Import ZArith Lia Ascii String DecimalString.
From Stdlib Require Import Sorting.Sorted Sorting.Permutation.
From stdpp Require Import base gmap sets list strings.

#[local] Set Warnings "-clear-no-such-hyp".
Local Open Scope Z_scope.

(* ===================================================================== *)
(** ** Python built-ins used by the script *)
(* ===================================================================== *)

(** Exceptions the script can raise or let through. *)
Inductive exn : Type :=
| HTTPError (status : Z)
| TimeoutError (msg : string)
| RequestException (msg : string)
| ValueError (msg : string)
| KeyError (key : Z)
| ParseError
| UnicodeDecodeError.

Inductive result (A : Type) : Type :=
| Ok (a : A)
| Raise (e : exn).
Arguments Ok {A} a.
Arguments Raise {A} e.

Definition code (c : ascii) : Z := Z.of_N (N_of_ascii c).

Definition char_of (n : nat) : ascii := ascii_of_nat n.

(** The characters the script names. *)
Definition DQUOTE : ascii := char_of 34.
Definition SQUOTE : ascii := char_of 39.
Definition BACKSLASH : ascii := char_of 92.
Definition COLON : ascii := char_of 58.
Definition LF : ascii := char_of 10.
Definition CR : ascii := char_of 13.
Definition TAB : ascii := char_of 9.

(** A one-character string. *)
Definition chr (c : ascii) : string := String c EmptyString.

(** [str.isspace] on one character (also the class [\s] of [re] for
    [str] patterns): TAB..CR, FS..US, SPACE, NEL, NBSP. *)
Definition isspace_char (c : ascii) : bool :=
  let n := code c in
  ((9 <=? n) && (n <=? 13)) || ((28 <=? n) && (n <=? 32))
  || (n =? 133) || (n =? 160).

(** The characters [int] accepts as decimal digits. *)
Definition isdecimal_char (c : ascii) : bool :=
  let n := code c in (48 <=? n) && (n <=? 57).

(** [str.isdigit] on one character: the decimal digits and the
    superscript digits two, three and one. *)
Definition isdigit_char (c : ascii) : bool :=
  let n := code c in
  isdecimal_char c || (n =? 178) || (n =? 179) || (n =? 185).

Fixpoint forallb_str (p : ascii -> bool) (s : string) : bool :=
  match s with
  | EmptyString => true
  | String c s' => p c && forallb_str p s'
  end.

(** Truth value of a string: non-empty. *)
Definition truthy (s : string) : bool :=
  match s with EmptyString => false | _ => true end.

(** [s.isdigit()]: at least one character and all of them digits. *)
Definition isdigit (s : string) : bool :=
  truthy s && forallb_str isdigit_char s.

(** [s.isdecimal()]: at least one character, all decimal digits. *)
Definition isdecimal (s : string) : bool :=
  truthy s && forallb_str isdecimal_char s.

Fixpoint digits_value (acc : Z) (s : string) : Z :=
  match s with
  | EmptyString => acc
  | String c s' => digits_value (10 * acc + (code c - 48)) s'
  end.

(** [str(n)] for an integer.  The integers the script prints are the
    ids that [int] has read, status codes and [max_attempts]; they are
    below ten to the power 4300, where the digit limit of this
    conversion starts, and the limit is left out of [str]. *)
Definition str (n : Z) : string := NilZero.string_of_int (Z.to_int n).

(** The default of [sys.get_int_max_str_digits()], which the script
    leaves as it is: [int] refuses a literal with more digits. *)
Definition default_max_str_digits : Z := 4300.

(** The number of decimal digits a string starts with: the digits
    [int] counts before it looks at the rest of the literal. *)
Fixpoint leading_digits (s : string) : nat :=
  match s with
  | EmptyString => O
  | String c s' => if isdecimal_char c then S (leading_digits s') else O
  end.

(** The message of the [ValueError] for a literal of too many digits. *)
Definition digit_limit_message (digits : Z) : string :=
  "Exceeds the limit (4300 digits) for integer string conversion: value has "
    +:+ str digits
    +:+ " digits; use sys.set_int_max_str_digits() to increase the limit".

(** [int(s)] for the strings that reach it in the script, which all
    satisfy [isdigit].  A literal that starts with more than 4300
    decimal digits is refused with [ValueError], leading zeros
    counted; otherwise a run of decimal digits is read in base ten, and
    a superscript digit is rejected with [ValueError] (whose message
    also quotes the literal, which is left out here). *)
Definition int (s : string) : result Z :=
  let digits := Z.of_nat (leading_digits s) in
  if default_max_str_digits <? digits then Raise (ValueError (digit_limit_message digits))
  else if isdecimal s then Ok (digits_value 0 s)
  else Raise (ValueError "invalid literal for int() with base 10").

(** [str(x)] for an optional integer ([None] prints as its name). *)
Definition str_opt (o : option Z) : string :=
  match o with
  | Some n => str n
  | None => "None"
  end.

Fixpoint lstrip (s : string) : string :=
  match s with
  | EmptyString => EmptyString
  | String c s' => if isspace_char c then lstrip s' else s
  end.

Fixpoint rstrip (s : string) : string :=
  match s with
  | EmptyString => EmptyString
  | String c s' =>
      match rstrip s' with
      | EmptyString => if isspace_char c then EmptyString else chr c
      | r => String c r
      end
  end.

(** [s.strip()] *)
Definition strip (s : string) : string := rstrip (lstrip s).

(** [s.replace(old, new)] where [old] is a single character, as at all
    five call sites of the script. *)
Fixpoint replace (old : ascii) (new : string) (s : string) : string :=
  match s with
  | EmptyString => EmptyString
  | String c s' =>
      if Ascii.eqb c old then new +:+ replace old new s'
      else String c (replace old new s')
  end.

(** [sep.join(parts)] *)
Definition join (sep : string) (parts : list string) : string :=
  String.concat sep parts.

(** Stable sort by key, using only [<] on keys, as [sorted] and
    [list.sort] do.  An element is placed before the first one of the
    already sorted rest whose key is not smaller than its own. *)
Section Sorting.
Context {A K : Type} (ltb : K -> K -> bool) (key : A -> K).

Fixpoint insert_sorted (x : A) (l : list A) : list A :=
  match l with
  | [] => [x]
  | y :: l' =>
      if ltb (key y) (key x) then y :: insert_sorted x l'
      else x :: l
  end.

Fixpoint sorted (l : list A) : list A :=
  match l with
  | [] => []
  | x :: l' => insert_sorted x (sorted l')
  end.
End Sorting.

(** [range(0, stop, step)] for [step <> 0]; it is empty when the step
    is negative and the stop is not. *)
Definition range0 (stop step : Z) : list Z :=
  if 0 <? step
  then (fun k => Z.of_nat k * step) <$> seq 0 (Z.to_nat ((stop + step - 1) / step))
  else [].

(** [xs[i : j]] for [0 <= i <= j]. *)
Definition slice {A} (xs : list A) (i j : Z) : list A :=
  take (Z.to_nat (j - i)) (drop (Z.to_nat i) xs).

(** De-duplication while preserving order, the loop
<<
    seen = set(); out = []
    for u in xs:
        if u not in seen:
            seen.add(u); out.append(u)
>>
    that both parsers end with. *)
Section Dedup.
Context {A : Type} `{Countable A}.

Fixpoint dedup_loop (xs : list A) (seen : gset A) (out : list A) : list A :=
  match xs with
  | [] => out
  | u :: xs' =>
      if decide (u ∈ seen) then dedup_loop xs' seen out
      else dedup_loop xs' ({[u]} ∪ seen) (out ++ [u])
  end.

Definition dedup (xs : list A) : list A := dedup_loop xs ∅ [].
End Dedup.

(* ===================================================================== *)
(** ** The world: transport, clock, output file *)
(* ===================================================================== *)

(** Query parameters are strings or integers. *)
Inductive param : Type :=
| PStr (s : string)
| PInt (n : Z).

Record request : Type := Request {
  req_url : string;
  req_params : list (string * param);
  req_headers : list (string * string);
  req_timeout : Z
}.

Record response : Type := Response {
  status_code : Z;
  text : string
}.

(** What a run does to the outside, in order: a GET with the answer it
    got, or a sleep. *)
Inductive event : Type :=
| EvGet (req : request) (answer : result response)
| EvSleep (ms : Z).

Definition is_get (e : event) : bool :=
  match e with EvGet _ _ => true | EvSleep _ => false end.

Definition is_sleep (e : event) : bool :=
  match e with EvSleep _ => true | EvGet _ _ => false end.

(** The transport answers the [n]-th request of the run (counted from 0)
    with a response, or fails with an exception of [requests]. *)
Record World : Type := mkWorld {
  server : nat -> request -> result response;
  trace : list event;
  today : string;
  games_js : option string
}.

Definition requests_made (w : World) : nat :=
  length (filter (fun e => is_get e = true) (trace w)).

Definition sleeps_made (w : World) : nat :=
  length (filter (fun e => is_sleep e = true) (trace w)).

(** The world after one more event. *)
Definition log (e : event) (w : World) : World :=
  mkWorld (server w) (trace w ++ [e]) (today w) (games_js w).

(** Effectful computations: state passing over the world, with
    exceptions. *)
Definition M (A : Type) : Type := World -> result A * World.

Definition ret {A} (a : A) : M A := fun w => (Ok a, w).

Definition raise {A} (e : exn) : M A := fun w => (Raise e, w).

Definition bind {A B} (m : M A) (k : A -> M B) : M B :=
  fun w =>
    match m w with
    | (Ok a, w') => k a w'
    | (Raise e, w') => (Raise e, w')
    end.

Definition lift {A} (r : result A) : M A := fun w => (r, w).

Declare Scope py_scope.
Delimit Scope py_scope with py.
Notation "x <- c ;; k" := (bind c (fun x => k))
  (at level 100, c at next level, right associativity) : py_scope.
Notation "c ;;; k" := (bind c (fun _ => k))
  (at level 100, right associativity) : py_scope.
Local Open Scope py_scope.

(** [requests.get(url, params=, headers=, timeout=)] *)
Definition requests_get (req : request) : M response :=
  fun w =>
    let answer := server w (requests_made w) req in
    (answer, log (EvGet req answer) w).

(** [time.sleep] *)
Definition sleep (ms : Z) : M unit :=
  fun w => (Ok tt, log (EvSleep ms) w).

(** [resp.raise_for_status()]: client and server errors raise. *)
Definition raise_for_status (resp : response) : M unit :=
  if (400 <=? status_code resp) && (status_code resp <? 600)
  then raise (HTTPError (status_code resp))
  else ret tt.

(** [time.strftime('%Y-%m-%d')] *)
Definition strftime_date : M string := fun w => (Ok (today w), w).

(** [open(path, 'w').write(content)] on games.js *)
Definition write_file (content : string) : M unit :=
  fun w => (Ok tt, mkWorld (server w) (trace w) (today w) (Some content)).

(* ===================================================================== *)
(** ** XML documents, as [xml.etree.ElementTree] presents them *)
(* ===================================================================== *)

#[local] Set Warnings "-register-all".
Inductive element : Type :=
| Element (tag : string) (attrib : gmap string string) (children : list element).

Definition tag_of (e : element) : string :=
  match e with Element t _ _ => t end.

Definition children_of (e : element) : list element :=
  match e with Element _ _ cs => cs end.

(** [e.get(key)] *)
Definition get (e : element) (key : string) : option string :=
  match e with Element _ a _ => a !! key end.

(** [e.findall(name)]: the direct children with that tag, in document
    order. *)
Definition findall (e : element) (name : string) : list element :=
  filter (fun c => tag_of c = name) (children_of e).

(* ===================================================================== *)
(** ** Parsing users.js *)
(* ===================================================================== *)

(** The pattern [_USER_ENTRY_RE], matched the way [re] does: by
    backtracking, alternatives left to right, repetition greedy. *)

(** The opening quote, single or double (group 1 and group 3). *)
Definition re_quote (s : string) : option (ascii * string) :=
  match s with
  | String c s' =>
      if Ascii.eqb c SQUOTE || Ascii.eqb c DQUOTE then Some (c, s') else None
  | EmptyString => None
  end.

(** A literal character (also the back-references [\1] and [\3]). *)
Definition re_char (q : ascii) (s : string) : option string :=
  match s with
  | String c s' => if Ascii.eqb c q then Some s' else None
  | EmptyString => None
  end.

(** [(?:\\.|(?!q).)*] followed by the rest of the pattern [k], which
    receives the text the group matched and the text that remains.  At
    each character the engine first tries a backslash and any character,
    then any character other than the quote [q], and last leaves the
    repetition. *)
Fixpoint re_body {R} (q : ascii) (s : string) (matched : string)
    (k : string -> string -> option R) : option R :=
  match s with
  | EmptyString => k matched EmptyString
  | String c s' =>
      let escaped :=
        if Ascii.eqb c BACKSLASH then
          match s' with
          | String d s'' => re_body q s'' (matched +:+ String c (chr d)) k
          | EmptyString => None
          end
        else None in
      match escaped with
      | Some r => Some r
      | None =>
          let plain :=
            if Ascii.eqb c q then None
            else re_body q s' (matched +:+ chr c) k in
          match plain with
          | Some r => Some r
          | None => k matched s
          end
      end
  end.

(** [\s*:\s*]: the greedy runs of white space never need to give
    characters back, as neither a colon nor a quote is white space. *)
Definition re_colon (s : string) : option string :=
  match re_char COLON (lstrip s) with
  | Some s' => Some (lstrip s')
  | None => None
  end.

(** One match of the whole pattern at the start of [s]: the groups
    [key] and [val], and the text after the match. *)
Definition _USER_ENTRY_RE_match (s : string) : option (string * string * string) :=
  match re_quote s with
  | None => None
  | Some (q1, s1) =>
      re_body q1 s1 EmptyString (fun key r1 =>
        match re_char q1 r1 with
        | None => None
        | Some r2 =>
            match re_colon r2 with
            | None => None
            | Some r3 =>
                match re_quote r3 with
                | None => None
                | Some (q3, s4) =>
                    re_body q3 s4 EmptyString (fun val r5 =>
                      match re_char q3 r5 with
                      | None => None
                      | Some r6 => Some (key, val, r6)
                      end)
                end
            end
        end)
  end.

(** [_USER_ENTRY_RE.finditer(txt)]: the leftmost match, then the
    leftmost match after its end, and so on.  [skip] counts the
    characters of the last match that are still to be passed over. *)
Fixpoint _USER_ENTRY_RE_finditer (s : string) (skip : nat) : list (string * string) :=
  match s with
  | EmptyString => []
  | String _ s' =>
      match skip with
      | S n => _USER_ENTRY_RE_finditer s' n
      | O =>
          match _USER_ENTRY_RE_match s with
          | Some (key, val, rest) =>
              (key, val) :: _USER_ENTRY_RE_finditer s' (String.length s - String.length rest - 1)
          | None => _USER_ENTRY_RE_finditer s' 0
          end
      end
  end.

Section UsersJs.

(** [bytes(s, "utf-8").decode("unicode_escape")], a codec of the Python
    library; [None] stands for its [UnicodeDecodeError]. *)
Variable unicode_escape : string -> option string.

Definition _unescape_js_string (s : string) : result string :=
  match unicode_escape s with
  | Some r => Ok r
  | None => Raise UnicodeDecodeError
  end.

(** The first loop of [parse_bgg_usernames_from_users_js], over the
    matches. *)
Fixpoint collect_usernames (ms : list (string * string)) (usernames : list string)
    : result (list string) :=
  match ms with
  | [] => Ok usernames
  | (key, _) :: ms' =>
      match _unescape_js_string key with
      | Raise e => Raise e
      | Ok u =>
          let k := strip u in
          if truthy k then collect_usernames ms' (usernames ++ [k])
          else collect_usernames ms' usernames
      end
  end.

(** [parse_bgg_usernames_from_users_js], given the text of the file. *)
Definition parse_bgg_usernames_from_users_js (txt : string) : result (list string) :=
  match collect_usernames (_USER_ENTRY_RE_finditer txt 0) [] with
  | Raise e => Raise e
  | Ok usernames => Ok (dedup usernames)
  end.

End UsersJs.

(* ===================================================================== *)
(** ** BGG helpers *)
(* ===================================================================== *)

Definition BGG_COLLECTION_URL : string := "https://boardgamegeek.com/xmlapi2/collection".
Definition BGG_THING_URL : string := "https://boardgamegeek.com/xmlapi2/thing".

(** Defaults of the keyword arguments of [http_get_xml_text]. *)
Definition DEFAULT_TIMEOUT : Z := 30.
Definition DEFAULT_MAX_ATTEMPTS : Z := 25.
Definition DEFAULT_BACKOFF_MS : Z := 2000.
Definition DEFAULT_USER_AGENT : string := "bgg-games-js-generator/1.4".

Definition NOT_READY : Z := 202.

Definition timeout_message (url : string) (last_status : option Z) (max_attempts : Z) : string :=
  url +:+ " kept returning " +:+ str_opt last_status +:+ " after "
      +:+ str max_attempts +:+ " attempts.".

(** The [for _ in range(max_attempts)] loop of [http_get_xml_text] with
    [n] iterations left, and the [raise] after it. *)
Fixpoint attempts (req : request) (max_attempts backoff : Z) (n : nat)
    (last_status : option Z) : M string :=
  match n with
  | O => raise (TimeoutError (timeout_message (req_url req) last_status max_attempts))
  | S n' =>
      resp <- requests_get req ;;
      if status_code resp =? NOT_READY then
        (sleep backoff ;;;
         attempts req max_attempts backoff n' (Some (status_code resp)))
      else
        (raise_for_status resp ;;;
         ret (text resp))
  end.

Definition http_get_xml_text (url token : string) (params : list (string * param))
    (timeout max_attempts backoff : Z) (user_agent : string) : M string :=
  let headers :=
    [("User-Agent"%string, user_agent);
     ("Authorization"%string, "Bearer " +:+ token)] in
  attempts (Request url params headers timeout) max_attempts backoff
    (Z.to_nat max_attempts) None.

(** [chunked(xs, n)], with all the chunks the generator yields.  A zero
    step makes [range] raise before the first chunk. *)
Definition chunked (xs : list Z) (n : Z) : result (list (list Z)) :=
  if n =? 0 then Raise (ValueError "range() arg 3 must not be zero")
  else Ok ((fun i => slice xs i (i + n)) <$> range0 (Z.of_nat (length xs)) n).

(** The loop over the items of a collection response. *)
Fixpoint owned_ids (items : list element) (ids : list Z) : result (list Z) :=
  match items with
  | [] => Ok ids
  | item :: items' =>
      match get item "objectid" with
      | Some oid =>
          if truthy oid && isdigit oid then
            match int oid with
            | Ok n => owned_ids items' (ids ++ [n])
            | Raise e => Raise e
            end
          else owned_ids items' ids
      | None => owned_ids items' ids
      end
  end.

(** The first [name] child of type [primary] decides: its [value], if
    it has one. *)
Definition primary_name (item : element) : option string :=
  match List.find (fun n => bool_decide (get n "type" = Some "primary"%string))
                  (findall item "name") with
  | Some name_el => get name_el "value"
  | None => None
  end.

(** The loop over the items of a thing response. *)
Fixpoint names_of_items (items : list element) (out : gmap Z string)
    : result (gmap Z string) :=
  match items with
  | [] => Ok out
  | item :: items' =>
      match get item "id" with
      | Some oid =>
          if truthy oid && isdigit oid then
            match int oid with
            | Raise e => Raise e
            | Ok gid =>
                match primary_name item with
                | Some primary =>
                    if truthy primary then names_of_items items' (<[gid := primary]> out)
                    else names_of_items items' out
                | None => names_of_items items' out
                end
            end
          else names_of_items items' out
      | None => names_of_items items' out
      end
  end.

Section Fetch.

(** [ET.fromstring], the XML parser of the Python library; [None]
    stands for its [ParseError]. *)
Variable fromstring : string -> option element.

Definition parse_xml (xml_text : string) : M element :=
  match fromstring xml_text with
  | Some root => ret root
  | None => raise ParseError
  end.

Definition collection_params (username : string) : list (string * param) :=
  [("username"%string, PStr username); ("own"%string, PInt 1);
   ("subtype"%string, PStr "boardgame")].

Definition fetch_owned_game_ids_for_user (username token : string) : M (list Z) :=
  xml_text <- http_get_xml_text BGG_COLLECTION_URL token (collection_params username)
                DEFAULT_TIMEOUT DEFAULT_MAX_ATTEMPTS DEFAULT_BACKOFF_MS DEFAULT_USER_AGENT ;;
  root <- parse_xml xml_text ;;
  ids <- lift (owned_ids (findall root "item") []) ;;
  ret (dedup ids).

Definition thing_params (ch : list Z) : list (string * param) :=
  [("id"%string, PStr (join "," (str <$> ch))); ("type"%string, PStr "boardgame")].

(** The loop of [fetch_primary_names] over the chunks. *)
Fixpoint fetch_chunks (chunks : list (list Z)) (token : string) (out : gmap Z string)
    : M (gmap Z string) :=
  match chunks with
  | [] => ret out
  | ch :: chunks' =>
      xml_text <- http_get_xml_text BGG_THING_URL token (thing_params ch)
                    DEFAULT_TIMEOUT DEFAULT_MAX_ATTEMPTS DEFAULT_BACKOFF_MS DEFAULT_USER_AGENT ;;
      root <- parse_xml xml_text ;;
      out' <- lift (names_of_items (findall root "item") out) ;;
      sleep 200 ;;;
      fetch_chunks chunks' token out'
  end.

Definition fetch_primary_names (ids : list Z) (token : string) (chunk_size : Z)
    : M (gmap Z string) :=
  chunks <- lift (chunked ids chunk_size) ;;
  fetch_chunks chunks token ∅.

End Fetch.

(* ===================================================================== *)
(** ** JS output *)
(* ===================================================================== *)

Definition js_escape (s : string) : string :=
  replace TAB (String BACKSLASH "t")
    (replace CR (String BACKSLASH "r")
      (replace LF (String BACKSLASH "n")
        (replace DQUOTE (String BACKSLASH (chr DQUOTE))
          (replace BACKSLASH (String BACKSLASH (chr BACKSLASH)) s)))).

(** The records of [games_out]: dictionaries with the keys [id], [name]
    and [owners]. *)
Record game : Type := Game {
  game_id : Z;
  game_name : string;
  game_owners : list string
}.

Definition quoted (s : string) : string :=
  chr DQUOTE +:+ js_escape s +:+ chr DQUOTE.

Definition game_line (g : game) : string :=
  let owners_js := join ", " (quoted <$> game_owners g) in
  "  { id: " +:+ str (game_id g) +:+ ", name: " +:+ quoted (game_name g)
    +:+ ", owners: [" +:+ owners_js +:+ "] },".

Definition games_js_lines (date : string) (games : list game) : list string :=
  ["// AUTO-GENERATED. DO NOT EDIT."%string;
   "// Generated by generate_games_js.py"%string;
   "// generated_at: " +:+ date;
   EmptyString;
   "window.GAMES = ["%string]
  ++ (game_line <$> games)
  ++ ["];"%string; EmptyString].

Definition write_games_js (games : list game) : M unit :=
  date <- strftime_date ;;
  write_file (join (chr LF) (games_js_lines date games)).

(* ===================================================================== *)
(** ** Main *)
(* ===================================================================== *)

(** [game_to_owners.setdefault(gid, set()).add(username)] *)
Definition add_owner (username : string) (gid : Z) (game_to_owners : gmap Z (gset string))
    : gmap Z (gset string) :=
  <[gid := {[username]} ∪ default ∅ (game_to_owners !! gid)]> game_to_owners.

(** The inner loop of [main]: one user's ids merged into the map. *)
Fixpoint merge (username : string) (ids : list Z) (game_to_owners : gmap Z (gset string))
    : gmap Z (gset string) :=
  match ids with
  | [] => game_to_owners
  | gid :: ids' => merge username ids' (add_owner username gid game_to_owners)
  end.

(** [game_to_owners[gid]] *)
Definition subscript (game_to_owners : gmap Z (gset string)) (gid : Z) : result (gset string) :=
  match game_to_owners !! gid with
  | Some owners => Ok owners
  | None => Raise (KeyError gid)
  end.

(** The loop of [main] that builds [games_out], dropping the ids
    without a name. *)
Fixpoint assemble (all_ids : list Z) (id_to_name : gmap Z string)
    (game_to_owners : gmap Z (gset string)) (games_out : list game) : result (list game) :=
  match all_ids with
  | [] => Ok games_out
  | gid :: ids' =>
      match id_to_name !! gid with
      | Some name =>
          if truthy name then
            match subscript game_to_owners gid with
            | Raise e => Raise e
            | Ok owners =>
                let owners_sorted := sorted String.ltb id (elements owners) in
                assemble ids' id_to_name game_to_owners
                  (games_out ++ [Game gid name owners_sorted])
            end
          else assemble ids' id_to_name game_to_owners games_out
      | None => assemble ids' id_to_name game_to_owners games_out
      end
  end.

(** [<] on the sort keys [(name.casefold(), id)]: tuples compare by
    their first components unless these are equal. *)
Definition key_ltb (a b : string * Z) : bool :=
  if String.eqb a.1 b.1 then a.2 <? b.2 else String.ltb a.1 b.1.

Section Main.

Variable unicode_escape : string -> option string.
Variable fromstring : string -> option element.

(** [str.casefold], a table of the Unicode database. *)
Variable casefold : string -> string.

Definition sort_key (g : game) : string * Z := (casefold (game_name g), game_id g).

(** The loop of [main] over the users. *)
Fixpoint fetch_all (bgg_users : list string) (token : string)
    (game_to_owners : gmap Z (gset string)) : M (gmap Z (gset string)) :=
  match bgg_users with
  | [] => ret game_to_owners
  | username :: users' =>
      ids <- fetch_owned_game_ids_for_user fromstring username token ;;
      let game_to_owners' := merge username ids game_to_owners in
      sleep 300 ;;;
      fetch_all users' token game_to_owners'
  end.

(** [main] from the first request to the sorted [games_out]. *)
Definition build_games (bgg_users : list string) (token : string) : M (list game) :=
  game_to_owners <- fetch_all bgg_users token ∅ ;;
  let all_ids := sorted Z.ltb id (elements (dom game_to_owners)) in
  id_to_name <- fetch_primary_names fromstring all_ids token 20 ;;
  games_out <- lift (assemble all_ids id_to_name game_to_owners []) ;;
  ret (sorted key_ltb sort_key games_out).

(** [main], given the value of [BGG_TOKEN] and the text of [users.js]
    if the file exists; it returns the exit status. *)
Definition main (BGG_TOKEN : option string) (users_js : option string) : M Z :=
  match BGG_TOKEN with
  | None => ret 2
  | Some token =>
      if negb (truthy token) then ret 2 else
      match users_js with
      | None => ret 2
      | Some txt =>
          bgg_users <- lift (parse_bgg_usernames_from_users_js unicode_escape txt) ;;
          match bgg_users with
          | [] => ret 2
          | _ =>
              games_out <- build_games bgg_users token ;;
              write_games_js games_out ;;;
              ret 0
          end
      end
  end.

End Main.

(* ===================================================================== *)
(** ** Reference definitions the properties are stated with *)
(* ===================================================================== *)

(** *** Lists *)

(** A list reduced to the first occurrence of each of its elements. *)
Fixpoint first_occurrences {A} `{EqDecision A} (xs : list A) : list A :=
  match xs with
  | [] => []
  | x :: xs' => x :: filter (fun y => y ≠ x) (first_occurrences xs')
  end.

(** [x] may stand before [y] in a list sorted by [key]: the key of [y]
    is not smaller than that of [x]. *)
Definition not_after {A K} (ltb : K -> K -> bool) (key : A -> K) (x y : A) : Prop :=
  ltb (key y) (key x) = false.

(** [<] on strings. *)
Definition str_lt (a b : string) : Prop := String.ltb a b = true.

(** [ceil(a / b)] for a positive [b]. *)
Definition ceil_div (a b : Z) : Z := (a + b - 1) / b.

(** *** The transport *)

(** The request [http_get_xml_text] sends, with its two headers. *)
Definition request_for (url token : string) (params : list (string * param))
    (timeout : Z) (user_agent : string) : request :=
  Request url params
    [("User-Agent"%string, user_agent);
     ("Authorization"%string, "Bearer " +:+ token)] timeout.

(** An answer that asks to retry later: a response with status 202. *)
Definition is_not_ready (answer : result response) : bool :=
  match answer with
  | Ok resp => status_code resp =? NOT_READY
  | Raise _ => false
  end.

(** [resp.ok] of [requests]: a success, in that [raise_for_status]
    would not raise. *)
Definition ok (resp : response) : bool :=
  negb ((400 <=? status_code resp) && (status_code resp <? 600)).

(** A success status of HTTP: the class 2xx. *)
Definition success_status (status : Z) : bool :=
  (200 <=? status) && (status <? 300).

(** What [http_get_xml_text] makes of an answer that ends its loop. *)
Definition outcome (answer : result response) : result string :=
  match answer with
  | Raise e => Raise e
  | Ok resp => if ok resp then Ok (text resp) else Raise (HTTPError (status_code resp))
  end.

(** The events of a run of retries: each not-ready response is followed
    by one sleep of the back-off time. *)
Fixpoint retry_events (req : request) (backoff : Z) (rs : list response) : list event :=
  match rs with
  | [] => []
  | resp :: rs' => EvGet req (Ok resp) :: EvSleep backoff :: retry_events req backoff rs'
  end.

(** The requests of a trace that were answered for good, that is, with
    a response other than not-ready, and their responses. *)
Definition answered (evs : list event) : list (request * response) :=
  omap (fun e =>
          match e with
          | EvGet req (Ok resp) =>
              if status_code resp =? NOT_READY then None else Some (req, resp)
          | _ => None
          end) evs.

Definition is_retry (e : event) : bool :=
  match e with
  | EvGet _ answer => is_not_ready answer
  | EvSleep _ => false
  end.

(** The number of requests of a trace that were answered not-ready. *)
Definition retried (evs : list event) : nat :=
  length (filter (fun e => is_retry e = true) evs).

(** *** The collection of a user *)

(** The id an item of a collection response contributes: the value of
    its [objectid] when that is a non-empty string of digits. *)
Definition objectid_value (item : element) : option Z :=
  match get item "objectid" with
  | Some oid => if isdigit oid then Some (digits_value 0 oid) else None
  | None => None
  end.

(** Every [objectid] of the response that passes [isdigit] is made of
    decimal digits (no superscript digit among them). *)
Definition objectids_decimal (root : element) : bool :=
  forallb (fun item =>
             match get item "objectid" with
             | Some oid => implb (isdigit oid) (isdecimal oid)
             | None => true
             end) (findall root "item").

(** Every [objectid] of the response that passes [isdigit] has at most
    4300 characters, the number of digits [int] reads. *)
Definition objectids_within_limit (root : element) : bool :=
  forallb (fun item =>
             match get item "objectid" with
             | Some oid =>
                 implb (isdigit oid)
                   (Z.of_nat (String.length oid) <=? default_max_str_digits)
             | None => true
             end) (findall root "item").

(** *** The batches of the name resolver *)

(** The lookup request for one batch of ids. *)
Definition thing_request (token : string) (ch : list Z) : request :=
  request_for BGG_THING_URL token
    [("id"%string, PStr (join "," (str <$> ch))); ("type"%string, PStr "boardgame")]
    DEFAULT_TIMEOUT DEFAULT_USER_AGENT.

(** The names one lookup response yields by itself. *)
Definition batch_names (fromstring : string -> option element) (resp : response)
    (names : gmap Z string) : Prop :=
  ∃ root, fromstring (text resp) = Some root
          ∧ names_of_items (findall root "item") ∅ = Ok names.

(** The union of per-batch results, a later batch taking precedence. *)
Definition union_batches (batches : list (gmap Z string)) : gmap Z string :=
  foldl (fun acc names => names ∪ acc) ∅ batches.

(** *** The written strings *)

(** How one character is written inside a double-quoted JS string. *)
Definition escape_char (c : ascii) : string :=
  if Ascii.eqb c BACKSLASH then String BACKSLASH (chr BACKSLASH)
  else if Ascii.eqb c DQUOTE then String BACKSLASH (chr DQUOTE)
  else if Ascii.eqb c LF then String BACKSLASH "n"
  else if Ascii.eqb c CR then String BACKSLASH "r"
  else if Ascii.eqb c TAB then String BACKSLASH "t"
  else chr c.

Fixpoint escape_chars (s : string) : string :=
  match s with
  | EmptyString => EmptyString
  | String c s' => escape_char c +:+ escape_chars s'
  end.

(** Reading the body of a double-quoted JS string literal up to its
    closing quote: the value it denotes and the text after the quote.
    The reader knows the five escapes the script writes and rejects any
    other, as well as a line break or the end of the text inside the
    literal. *)
Fixpoint read_js_string_body (s : string) : option (string * string) :=
  match s with
  | EmptyString => None
  | String c s' =>
      if Ascii.eqb c DQUOTE then Some (EmptyString, s')
      else if Ascii.eqb c LF || Ascii.eqb c CR then None
      else if Ascii.eqb c BACKSLASH then
        match s' with
        | String d s'' =>
            let decoded :=
              if Ascii.eqb d BACKSLASH then Some BACKSLASH
              else if Ascii.eqb d DQUOTE then Some DQUOTE
              else if Ascii.eqb d "n" then Some LF
              else if Ascii.eqb d "r" then Some CR
              else if Ascii.eqb d "t" then Some TAB
              else None in
            match decoded, read_js_string_body s'' with
            | Some x, Some (v, rest) => Some (String x v, rest)
            | _, _ => None
            end
        | EmptyString => None
        end
      else
        match read_js_string_body s' with
        | Some (v, rest) => Some (String c v, rest)
        | None => None
        end
  end.

(** Reading a double-quoted JS string literal at the start of a text. *)
Definition read_js_string (s : string) : option (string * string) :=
  match s with
  | String c s' => if Ascii.eqb c DQUOTE then read_js_string_body s' else None
  | EmptyString => None
  end.

(** *** The keys of users.js *)

(** The keys the pattern matches in a text, in order. *)
Definition matched_keys (txt : string) : list string := (_USER_ENTRY_RE_finditer txt 0).*1.

(** Every matched key is a valid escape sequence for the codec. *)
Definition keys_decodable (unicode_escape : string -> option string) (txt : string) : bool :=
  forallb (fun key => bool_decide (is_Some (unicode_escape key))) (matched_keys txt).



(** *** The pipeline *)

(** The owners a map records for a game: none when it has no entry. *)
Definition owners_of (game_to_owners : gmap Z (gset string)) (gid : Z) : gset string :=
  default ∅ (game_to_owners !! gid).

(** The id lists the loop of [main] fetches, user by user, from a
    given world on: the list of each user the loop gets to. *)
Fixpoint fetched (fromstring : string -> option element) (bgg_users : list string)
    (token : string) (w : World) : list (string * list Z) :=
  match bgg_users with
  | [] => []
  | username :: users' =>
      match fetch_owned_game_ids_for_user fromstring username token w with
      | (Ok ids, w1) => (username, ids) :: fetched fromstring users' token (log (EvSleep 300) w1)
      | (Raise _, _) => []
      end
  end.

(** All fetched lists merged into a map, one after the other. *)
Definition merge_all (pairs : list (string * list Z)) (game_to_owners : gmap Z (gset string))
    : gmap Z (gset string) :=
  foldl (fun m p => merge p.1 p.2 m) game_to_owners pairs.

(** The record [main] builds for an id: none without a non-empty name. *)
Definition record_of (id_to_name : gmap Z string) (game_to_owners : gmap Z (gset string))
    (gid : Z) : option game :=
  match id_to_name !! gid with
  | Some name =>
      if truthy name
      then Some (Game gid name (sorted String.ltb id (elements (owners_of game_to_owners gid))))
      else None
  | None => None
  end.

(** [<=] on the sort keys: by the first components, and by the second
    when the first are equal. *)
Definition key_le (a b : string * Z) : Prop :=
  str_lt a.1 b.1 ∨ (a.1 = b.1 ∧ a.2 ≤ b.2).

(** One game may stand before another: its key is not greater. *)
Definition game_le (casefold : string -> string) (g1 g2 : game) : Prop :=
  key_le (casefold (game_name g1), game_id g1) (casefold (game_name g2), game_id g2).

(* ===================================================================== *)
(** ** Test doubles: scripted transports and canned documents *)
(* ===================================================================== *)

(** A transport that answers the [n]-th request with the [n]-th entry
    of a script, and fails once the script is used up. *)
Definition scripted (answers : list (result response)) : nat -> request -> result response :=
  fun n _ => nth n answers (Raise (RequestException "no more answers")).

(** A transport that is never ready. *)
Definition never_ready : nat -> request -> result response :=
  fun _ _ => Ok (Response NOT_READY EmptyString).

(** A parser that knows a table of documents by their text. *)
Definition docs (table : list (string * element)) (xml_text : string) : option element :=
  snd <$> List.find (fun p => String.eqb p.1 xml_text) table.

(** A collection response with one item per given [objectid]. *)
Definition collection_doc (oids : list string) : element :=
  Element "items" ∅
    ((fun oid => Element "item" {[ "objectid"%string := oid ]} []) <$> oids).

(** A thing response with one item per given id and primary name. *)
Definition thing_doc (entries : list (string * string)) : element :=
  Element "items" ∅
    ((fun e => Element "item" {[ "id"%string := e.1 ]}
                 [Element "name" {[ "type"%string := "primary"%string;
                                    "value"%string := e.2 ]} []]) <$> entries).

Definition world_of (srv : nat -> request -> result response) : World :=
  mkWorld srv [] "2024-01-01" None.

(** A collection response with the [objectid]s 0, 7, x, 7 and the empty
    string. *)
Definition zero_collection_world : World :=
  world_of (scripted [Ok (Response 200 "zero")]).

Definition zero_collection_docs : string → option element :=
  docs [("zero"%string, collection_doc ["0"; "7"; "x"; "7"; EmptyString]%string)].

(** A transport that is not ready twice and then serves a document. *)
Definition twice_not_ready_world : World :=
  world_of (scripted [Ok (Response 202 EmptyString); Ok (Response 202 EmptyString);
                      Ok (Response 200 "five")]).

(** A transport that is not ready once and then answers 404. *)
Definition not_found_world : World :=
  world_of (scripted [Ok (Response 202 EmptyString); Ok (Response 404 "Not Found")]).

(** A transport that is not ready once and then answers 304, with the
    empty body such a response has. *)
Definition not_modified_world : World :=
  world_of (scripted [Ok (Response 202 EmptyString); Ok (Response 304 EmptyString)]).

(** Three ids resolved in batches of two: the first batch is retried
    once, the second resolves nothing. *)
Definition batches_world : World :=
  world_of (scripted [Ok (Response 202 EmptyString); Ok (Response 200 "first");
                      Ok (Response 200 "second")]).

Definition batches_docs : string → option element :=
  docs [("first"%string, thing_doc [("10", "Catan"); ("20", "Wingspan")]%string);
        ("second"%string, thing_doc [])].

(** A stand-in for the [unicode_escape] codec applied to the UTF-8
    encoding of a string.  It agrees with the codec on text without
    backslashes, where a character above 127 becomes the two characters
    of its UTF-8 encoding, and on the escapes of a backslash, a quote,
    and the letters n, r and t.  It reports an error for every other
    escape, among them the truncated hexadecimal escape and the
    backslash at the end of the text, which are errors of the codec
    too. *)
Definition utf8_as_latin1 (c : ascii) : string :=
  if code c <? 128 then chr c
  else String (char_of (192 + Z.to_nat (code c) / 64))
         (chr (char_of (128 + Z.to_nat (code c) mod 64))).

Fixpoint simple_unicode_escape (s : string) : option string :=
  match s with
  | EmptyString => Some EmptyString
  | String c s' =>
      if Ascii.eqb c BACKSLASH then
        match s' with
        | EmptyString => None
        | String d s'' =>
            let decoded :=
              if Ascii.eqb d BACKSLASH || Ascii.eqb d SQUOTE || Ascii.eqb d DQUOTE
              then Some d
              else if Ascii.eqb d "n" then Some LF
              else if Ascii.eqb d "r" then Some CR
              else if Ascii.eqb d "t" then Some TAB
              else None in
            match decoded, simple_unicode_escape s'' with
            | Some x, Some r => Some (String x r)
            | _, _ => None
            end
        end
      else
        match simple_unicode_escape s' with
        | Some r => Some (utf8_as_latin1 c +:+ r)
        | None => None
        end
  end.

(** A users.js with a padded key, a repeated key and a blank key. *)
Definition sample_users_js : string :=
  "const users = { 'amy': 'Amy', ' bo ': 'Bo', 'amy': 'Again', '  ': 'Nobody' }".

(** A users.js whose key ends in a truncated hexadecimal escape. *)
Definition bad_escape_users_js : string :=
  "const users = { 'amy" +:+ chr BACKSLASH +:+ "x': 'Amy' }".

(** A stand-in for [str.casefold] that lowers the letters A to Z, as
    [str.casefold] does on text without other letters. *)
Definition lower_char (c : ascii) : ascii :=
  if (65 <=? code c) && (code c <=? 90) then char_of (Z.to_nat (code c) + 32) else c.

Fixpoint ascii_casefold (s : string) : string :=
  match s with
  | EmptyString => EmptyString
  | String c s' => String (lower_char c) (ascii_casefold s')
  end.

(** Two users: amy owns 10, 20 and 30, bo owns 20; the lookup resolves
    10 and 20 and has nothing for 30.  The first request is not ready. *)
Definition sample_world : World :=
  world_of (scripted [Ok (Response 202 EmptyString); Ok (Response 200 "amy");
                      Ok (Response 200 "bo"); Ok (Response 200 "names")]).

Definition sample_docs : string → option element :=
  docs [("amy"%string, collection_doc ["10"; "20"; "30"]%string);
        ("bo"%string, collection_doc ["20"]%string);
        ("names"%string, thing_doc [("20", "Wingspan"); ("10", "catan")]%string)].

Definition sample_games : list game :=
  [Game 10 "catan" ["amy"%string]; Game 20 "Wingspan" ["amy"; "bo"]%string].

(** A record whose name holds a quote and a backslash. *)
Definition quirky_game : game :=
  Game 7 ("Say " +:+ chr DQUOTE +:+ "Hi" +:+ chr DQUOTE +:+ chr BACKSLASH) ["amy"%string].

Definition next_day_world : World :=
  mkWorld never_ready [] "2024-01-02" None.

(** The collection of the design document's scenario: not ready
    twice, then the single id 5. *)
Definition five_docs : string → option element :=
  docs [("five"%string, collection_doc ["5"%string])].

(** A collection response whose only [objectid] is the superscript
    digit two. *)
Definition superscript_docs : string → option element :=
  docs [("zero"%string, collection_doc [chr (char_of 178)])].

(* ===================================================================== *)
(** ** Further reference definitions *)
(* ===================================================================== *)

(** *** What a call does to the world *)

(** From [w] to [w'] only events that satisfy [P] were added, and the
    transport, the date and the output file are as before. *)
Definition extends (P : event -> Prop) (w w' : World) : Prop :=
  ∃ evs, trace w' = trace w ++ evs ∧ Forall P evs
         ∧ server w' = server w ∧ today w' = today w ∧ games_js w' = games_js w.

(** An event of a call of [http_get_xml_text]: a GET of its request or
    a sleep of its back-off time. *)
Definition http_event (req : request) (backoff : Z) (e : event) : Prop :=
  match e with
  | EvGet r _ => r = req
  | EvSleep ms => ms = backoff
  end.

(** The collection request for a user. *)
Definition collection_request (token username : string) : request :=
  request_for BGG_COLLECTION_URL token
    [("username"%string, PStr username); ("own"%string, PInt 1);
     ("subtype"%string, PStr "boardgame")]
    DEFAULT_TIMEOUT DEFAULT_USER_AGENT.

(** An event of the pipeline for given users and token: a collection
    request for one of the users or a lookup request for some batch,
    both with the token, or one of the three pauses. *)
Definition pipeline_event (bgg_users : list string) (token : string) (e : event) : Prop :=
  match e with
  | EvGet r _ =>
      (∃ username, username ∈ bgg_users ∧ r = collection_request token username)
      ∨ (∃ ch, r = thing_request token ch)
  | EvSleep ms => ms = DEFAULT_BACKOFF_MS ∨ ms = 300 ∨ ms = 200
  end.

(** The configuration errors of [main]: no token or an empty one, no
    users.js, or a users.js without user names. *)
Definition configuration_error (unicode_escape : string -> option string)
    (BGG_TOKEN users_js : option string) : Prop :=
  BGG_TOKEN = None ∨ BGG_TOKEN = Some EmptyString ∨ users_js = None
  ∨ ∃ txt, users_js = Some txt
           ∧ parse_bgg_usernames_from_users_js unicode_escape txt = Ok [].

(** A pause of a given length. *)
Definition is_pause (ms : Z) (e : event) : bool :=
  match e with
  | EvSleep m => m =? ms
  | EvGet _ _ => false
  end.

(** The number of pauses of a given length in a trace. *)
Definition pauses (ms : Z) (evs : list event) : nat :=
  length (filter (fun e => is_pause ms e = true) evs).

(** One game stands strictly before another: its key is smaller. *)
Definition game_lt (casefold : string -> string) (g1 g2 : game) : Prop :=
  key_ltb (casefold (game_name g1), game_id g1) (casefold (game_name g2), game_id g2) = true.

(** The number of occurrences of a character in a string. *)
Fixpoint count_char (c : ascii) (s : string) : nat :=
  match s with
  | EmptyString => O
  | String x s' => ((if Ascii.eqb x c then 1 else 0) + count_char c s')%nat
  end.

(** One of the five characters [js_escape] rewrites. *)
Definition is_special (c : ascii) : bool :=
  Ascii.eqb c BACKSLASH || Ascii.eqb c DQUOTE || Ascii.eqb c LF
  || Ascii.eqb c CR || Ascii.eqb c TAB.

(** The number of such characters in a string. *)
Fixpoint count_special (s : string) : nat :=
  match s with
  | EmptyString => O
  | String x s' => ((if is_special x then 1 else 0) + count_special s')%nat
  end.

(** A quote character of the pattern. *)
Definition is_quote (c : ascii) : Prop := c = SQUOTE ∨ c = DQUOTE.

(** The text of one entry: a key between two quotes [q1], white space,
    a colon, white space, and a value between two quotes [q3]. *)
Definition entry_text (q1 : ascii) (key ws1 ws2 : string) (q3 : ascii) (val : string)
    : string :=
  String q1 (key +:+ String q1 (ws1 +:+ String COLON (ws2 +:+ String q3 (val +:+ chr q3)))).

(** *** Further test doubles *)

(** A transport that is not ready once and then loses the connection. *)
Definition broken_world : World :=
  world_of (scripted [Ok (Response 202 EmptyString);
                      Raise (RequestException "connection reset")]).

(** A world with an earlier snapshot on disk and a transport that is
    not ready once and then loses the connection. *)
Definition stale_world : World :=
  mkWorld (scripted [Ok (Response 202 EmptyString);
                     Raise (RequestException "connection reset")])
    [] "2024-01-01" (Some "// an earlier snapshot"%string).

Definition two_users_js : string := "const users = { 'amy': 'Amy', 'bo': 'Bo' }".

(** A collection response with the superscript digit two between two
    ordinary ids. *)
Definition superscript_between_docs : string → option element :=
  docs [("zero"%string, collection_doc ["7"%string; chr (char_of 178); "9"%string])].

(** [s * n]: [n] copies of a string. *)
Fixpoint str_mul (s : string) (n : nat) : string :=
  match n with
  | O => EmptyString
  | S n' => s +:+ str_mul s n'
  end.

(** A collection response with an ordinary id and an [objectid] of
    4301 ones. *)
Definition long_digits_docs : string → option element :=
  docs [("zero"%string, collection_doc ["7"%string; str_mul "1" (Z.to_nat 4301)])].

(* ===================================================================== *)
(** ** De-duplication keeps first occurrences *)
(* ===================================================================== *)

Lemma filter_all {A} (P : A → Prop) `{∀ x, Decision (P x)} (l : list A) :
  (∀ x, x ∈ l → P x) → filter P l = l.
Proof.
  induction l as [|a l IH]; intros Hall; [done|].
  rewrite filter_cons_True by (apply Hall; left).
  f_equal. apply IH. intros x Hx. apply Hall. by right.
Qed.

Section DedupFacts.
Context {A : Type} `{Countable A}.

Lemma elem_of_first_occurrences (xs : list A) (x : A) :
  x ∈ first_occurrences xs ↔ x ∈ xs.
Proof.
  revert x. induction xs as [|a xs IH]; intros x; simpl; [done|].
  rewrite !elem_of_cons, list_elem_of_filter, IH.
  destruct (decide (x = a)); tauto.
Qed.

Lemma NoDup_first_occurrences (xs : list A) : NoDup (first_occurrences xs).
Proof.
  induction xs as [|a xs IH]; simpl; constructor.
  - rewrite list_elem_of_filter. tauto.
  - by apply NoDup_filter.
Qed.

Lemma first_occurrences_app (l1 l2 : list A) :
  first_occurrences (l1 ++ l2)
  = first_occurrences l1 ++ filter (fun y => y ∉ l1) (first_occurrences l2).
Proof.
  induction l1 as [|a l1 IH]; simpl.
  - symmetry. apply filter_all. intros x _. apply not_elem_of_nil.
  - f_equal. rewrite IH, filter_app. f_equal.
    rewrite list_filter_filter. apply list_filter_iff.
    intros x. rewrite not_elem_of_cons. tauto.
Qed.

Lemma dedup_loop_spec (xs : list A) (seen : gset A) (out : list A) :
  dedup_loop xs seen out
  = out ++ filter (fun y => y ∉ seen) (first_occurrences xs).
Proof.
  revert seen out. induction xs as [|u xs IH]; intros seen out; simpl.
  - by rewrite app_nil_r.
  - destruct (decide (u ∈ seen)) as [Hin|Hin].
    + rewrite IH. f_equal. rewrite filter_cons_False by tauto.
      rewrite list_filter_filter. apply list_filter_iff.
      intros x. split; [|tauto]. intros Hx. split; [done|]. by intros ->.
    + rewrite IH, <- app_assoc. f_equal. simpl.
      rewrite filter_cons_True by done. f_equal.
      rewrite list_filter_filter. apply list_filter_iff.
      intros x. rewrite not_elem_of_union, elem_of_singleton. tauto.
Qed.

Lemma dedup_first_occurrences (xs : list A) : dedup xs = first_occurrences xs.
Proof.
  unfold dedup. rewrite dedup_loop_spec. simpl.
  apply filter_all. intros x _. apply not_elem_of_empty.
Qed.

Lemma NoDup_split_unique (l1 l2 l1' l2' : list A) (x : A) :
  NoDup (l1 ++ x :: l2) → l1 ++ x :: l2 = l1' ++ x :: l2' → l1 = l1'.
Proof.
  revert l1'. induction l1 as [|a l1 IH]; intros l1' Hnd Heq.
  - destruct l1' as [|b l1']; [done|]. simpl in *. injection Heq as -> Heq.
    apply NoDup_cons in Hnd as [Hn _]. exfalso. apply Hn. rewrite Heq.
    apply elem_of_app. right. left.
  - destruct l1' as [|b l1']; simpl in *.
    + injection Heq as -> Heq. apply NoDup_cons in Hnd as [Hn _].
      exfalso. apply Hn. apply elem_of_app. right. left.
    + injection Heq as -> Heq. f_equal. apply IH; [|done].
      by apply NoDup_cons in Hnd as [_ ?].
Qed.

(** First-seen order: whatever precedes [x] in the result is what
    precedes the first occurrence of [x] in the input. *)
Lemma first_occurrences_order (xs pre post : list A) (x : A) :
  first_occurrences xs = pre ++ x :: post →
  ∃ xs1 xs2, xs = xs1 ++ x :: xs2 ∧ (x ∉ xs1) ∧ (∀ y, y ∈ pre ↔ y ∈ xs1).
Proof.
  intros Hout.
  assert (Hx : x ∈ xs).
  { apply elem_of_first_occurrences. rewrite Hout. apply elem_of_app. right. left. }
  apply list_elem_of_split_l in Hx as (xs1 & xs2 & -> & Hx1).
  exists xs1, xs2. split; [done|]. split; [done|].
  rewrite first_occurrences_app in Hout. simpl in Hout.
  rewrite filter_cons_True in Hout by done.
  assert (Hpre : first_occurrences xs1 = pre).
  { eapply NoDup_split_unique; [|exact Hout].
    rewrite Hout, <- Hout.
    rewrite <- (filter_cons_True (fun y => y ∉ xs1)) by done.
    change (x :: filter (λ y : A, y ≠ x) (first_occurrences xs2))
      with (first_occurrences (x :: xs2)).
    rewrite <- first_occurrences_app. apply NoDup_first_occurrences. }
  intros y. rewrite <- Hpre. apply elem_of_first_occurrences.
Qed.

End DedupFacts.

(* ===================================================================== *)
(** ** The aggregation step *)
(* ===================================================================== *)

Lemma lookup_add_owner (u : string) (gid g : Z) (m : gmap Z (gset string)) :
  add_owner u gid m !! g
  = if decide (g = gid) then Some ({[u]} ∪ owners_of m g) else m !! g.
Proof.
  unfold add_owner, owners_of. destruct (decide (g = gid)) as [->|Hne].
  - by rewrite lookup_insert_eq.
  - by rewrite lookup_insert_ne.
Qed.

Lemma lookup_merge (u : string) (ids : list Z) (g : Z) (m : gmap Z (gset string)) :
  merge u ids m !! g
  = if decide (g ∈ ids) then Some ({[u]} ∪ owners_of m g) else m !! g.
Proof.
  revert m. induction ids as [|gid ids IH]; intros m; simpl.
  - destruct (decide (g ∈ [])) as [Hin|_]; [|done]. by apply not_elem_of_nil in Hin.
  - rewrite IH. unfold owners_of at 1. rewrite lookup_add_owner.
    destruct (decide (g ∈ ids)) as [Hin|Hin];
      destruct (decide (g = gid)) as [->|Hne]; simpl.
    + rewrite decide_True by left. f_equal. set_solver.
    + rewrite decide_True by (by right). done.
    + rewrite decide_True by left. done.
    + rewrite decide_False; [done|]. rewrite elem_of_cons. tauto.
Qed.

Lemma owners_of_merge (u : string) (ids : list Z) (g : Z) (m : gmap Z (gset string)) :
  owners_of (merge u ids m) g
  = owners_of m g ∪ (if decide (g ∈ ids) then {[u]} else ∅).
Proof.
  unfold owners_of at 1. rewrite lookup_merge.
  destruct (decide (g ∈ ids)); simpl; [set_solver|].
  unfold owners_of. set_solver.
Qed.

Lemma dom_merge (u : string) (ids : list Z) (m : gmap Z (gset string)) :
  dom (merge u ids m) = dom m ∪ list_to_set ids.
Proof.
  apply set_eq. intros g.
  rewrite elem_of_union, elem_of_list_to_set, !elem_of_dom, lookup_merge.
  destruct (decide (g ∈ ids)) as [Hin|Hin]; [|tauto].
  split; [tauto|]. intros _. by eexists.
Qed.

(** C6. Merging one user's id list into the ownership map is a set
    union: the owners of a game become its former owners together with
    the user when the game is in the list, the keys become the former
    keys together with the listed ids, no owner and no key is ever
    removed, and merging the same list for the same user a second time
    changes nothing. *)
Theorem merge_set_union_idempotent (u : string) (ids : list Z) (m : gmap Z (gset string)) :
  merge u ids (merge u ids m) = merge u ids m
  ∧ (∀ g, owners_of (merge u ids m) g
          = owners_of m g ∪ (if decide (g ∈ ids) then {[u]} else ∅))
  ∧ dom (merge u ids m) = dom m ∪ list_to_set ids
  ∧ (∀ g v, v ∈ owners_of m g → v ∈ owners_of (merge u ids m) g)
  ∧ (∀ g, is_Some (m !! g) → is_Some (merge u ids m !! g)).
Proof.
  split; [|split; [|split; [|split]]].
  - apply map_eq. intros g. rewrite (lookup_merge u ids g (merge u ids m)).
    destruct (decide (g ∈ ids)) as [Hin|Hin]; [|done].
    rewrite owners_of_merge, lookup_merge, !decide_True by done.
    f_equal. set_solver.
  - intros g. apply owners_of_merge.
  - apply dom_merge.
  - intros g v Hv. rewrite owners_of_merge. set_solver.
  - intros g Hg. rewrite lookup_merge. destruct (decide (g ∈ ids)); [by eexists|done].
Qed.

(** Bo's list merged into a map in which amy owns game 10: amy stays
    an owner of 10, and 10 stays a key. *)
Lemma merge_set_union_idempotent_witness :
  merge "bo" [10; 20] (merge "bo" [10; 20] (merge "amy" [10] ∅))
  = merge "bo" [10; 20] (merge "amy" [10] ∅)
  ∧ ("amy"%string ∈ owners_of (merge "bo" [10; 20] (merge "amy" [10] ∅)) 10)
  ∧ is_Some (merge "bo" [10; 20] (merge "amy" [10] ∅) !! 10).
Proof.
  destruct (merge_set_union_idempotent "bo" [10; 20] (merge "amy" [10] ∅))
    as (Hidem & _ & _ & Hkeep & Hkey).
  split; [exact Hidem|]. split.
  - apply Hkeep. vm_compute. reflexivity.
  - apply Hkey. vm_compute. eexists. reflexivity.
Defined.

(* ===================================================================== *)
(** ** The ids of a collection response *)
(* ===================================================================== *)

Lemma isdigit_truthy (s : string) : isdigit s = true → truthy s = true.
Proof. unfold isdigit. by intros [? _]%andb_prop. Qed.

Lemma isdecimal_char_range (c : ascii) :
  isdecimal_char c = true → 0 ≤ code c - 48 ≤ 9.
Proof. unfold isdecimal_char. intros [? ?]%andb_prop. lia. Qed.

Lemma digits_value_nonneg (s : string) (acc : Z) :
  forallb_str isdecimal_char s = true → 0 ≤ acc → 0 ≤ digits_value acc s.
Proof.
  revert acc. induction s as [|c s IH]; intros acc Hs Hacc; simpl in *; [done|].
  apply andb_prop in Hs as [Hc Hs]. apply isdecimal_char_range in Hc.
  apply IH; [done|lia].
Qed.

Lemma leading_digits_le (s : string) : (leading_digits s ≤ String.length s)%nat.
Proof.
  induction s as [|c s IH]; simpl; [done|]. destruct (isdecimal_char c); lia.
Qed.

Lemma leading_digits_decimal (s : string) :
  forallb_str isdecimal_char s = true → leading_digits s = String.length s.
Proof.
  induction s as [|c s IH]; simpl; [done|].
  intros [-> Hs]%andb_prop. by rewrite IH.
Qed.

(** Within the limit, [int] reads the strings of decimal digits and
    rejects the others as invalid literals. *)
Lemma int_within_limit (s : string) :
  Z.of_nat (String.length s) ≤ default_max_str_digits →
  int s = if isdecimal s then Ok (digits_value 0 s)
          else Raise (ValueError "invalid literal for int() with base 10").
Proof.
  intros Hlen. unfold int. pose proof (leading_digits_le s) as Hle.
  destruct (default_max_str_digits <? Z.of_nat (leading_digits s)) eqn:Hlim; [|done].
  apply Z.ltb_lt in Hlim. lia.
Qed.

Lemma int_isdecimal (s : string) :
  isdecimal s = true →
  Z.of_nat (String.length s) ≤ default_max_str_digits →
  int s = Ok (digits_value 0 s) ∧ 0 ≤ digits_value 0 s.
Proof.
  intros Hs Hlen. rewrite int_within_limit, Hs by done. split; [done|].
  apply andb_prop in Hs as [_ Hs]. by apply digits_value_nonneg.
Qed.

(** What [int] returns, it has read from at most 4300 decimal digits. *)
Lemma int_Ok (s : string) (n : Z) :
  int s = Ok n →
  isdecimal s = true ∧ Z.of_nat (String.length s) ≤ default_max_str_digits
  ∧ n = digits_value 0 s ∧ 0 ≤ n.
Proof.
  unfold int.
  destruct (default_max_str_digits <? Z.of_nat (leading_digits s)) eqn:Hlim; [done|].
  destruct (isdecimal s) eqn:Hdec; [|done]. intros [= <-].
  apply Z.ltb_ge in Hlim. pose proof Hdec as [_ Hall]%andb_prop.
  rewrite leading_digits_decimal in Hlim by done.
  split; [done|]. split; [done|]. split; [done|]. by apply digits_value_nonneg.
Qed.

(** [int] raises nothing but [ValueError]. *)
Lemma int_Raise (s : string) (e : exn) :
  int s = Raise e → ∃ msg, e = ValueError msg.
Proof.
  unfold int. destruct (_ <? _); [intros [= <-]; by eexists|].
  destruct (isdecimal s); [done|]. intros [= <-]. by eexists.
Qed.

Lemma owned_ids_decimal (items : list element) (ids : list Z) :
  (∀ item oid, item ∈ items → get item "objectid" = Some oid →
               isdigit oid = true →
               isdecimal oid = true
               ∧ Z.of_nat (String.length oid) ≤ default_max_str_digits) →
  owned_ids items ids = Ok (ids ++ omap objectid_value items).
Proof.
  revert ids. induction items as [|item items IH]; intros ids Hdec; simpl.
  - by rewrite app_nil_r.
  - assert (Hrest : ∀ ids', owned_ids items ids' = Ok (ids' ++ omap objectid_value items)).
    { intros ids'. apply IH. intros it oid Hit. apply Hdec. by right. }
    unfold objectid_value at 1.
    destruct (get item "objectid") as [oid|] eqn:Hget; [|apply Hrest].
    destruct (isdigit oid) eqn:Hdig.
    + rewrite (isdigit_truthy _ Hdig). simpl.
      destruct (Hdec item oid) as [Hd Hlen]; [left|done|done|].
      destruct (int_isdecimal oid Hd Hlen) as [-> _].
      rewrite Hrest, <- app_assoc. done.
    + rewrite andb_false_r. apply Hrest.
Qed.

Lemma objectid_value_nonneg (items : list element) :
  (∀ item oid, item ∈ items → get item "objectid" = Some oid →
               isdigit oid = true → isdecimal oid = true) →
  Forall (fun n => 0 ≤ n) (omap objectid_value items).
Proof.
  intros Hdec. apply Forall_forall. intros n Hn.
  apply list_elem_of_omap in Hn as (item & Hitem & Hval).
  unfold objectid_value in Hval.
  destruct (get item "objectid") as [oid|] eqn:Hget; [|done].
  destruct (isdigit oid) eqn:Hdig; [|done]. injection Hval as <-.
  pose proof (Hdec item oid Hitem Hget Hdig) as [_ Hall]%andb_prop.
  by apply digits_value_nonneg.
Qed.

Lemma objectids_decimal_spec (root : element) :
  objectids_decimal root = true →
  ∀ item oid, item ∈ findall root "item" → get item "objectid" = Some oid →
              isdigit oid = true → isdecimal oid = true.
Proof.
  unfold objectids_decimal. rewrite forallb_forall.
  intros Hall item oid Hitem%list_elem_of_In Hoid Hdig.
  specialize (Hall item Hitem). by rewrite Hoid, Hdig in Hall.
Qed.

Lemma objectids_within_limit_spec (root : element) :
  objectids_within_limit root = true →
  ∀ item oid, item ∈ findall root "item" → get item "objectid" = Some oid →
              isdigit oid = true →
              Z.of_nat (String.length oid) ≤ default_max_str_digits.
Proof.
  unfold objectids_within_limit. rewrite forallb_forall.
  intros Hall item oid Hitem%list_elem_of_In Hoid Hdig.
  specialize (Hall item Hitem). rewrite Hoid, Hdig in Hall. simpl in Hall.
  by apply Z.leb_le.
Qed.

(** C4, as the code has it.  Given a collection response in which every
    [objectid] made of digits is made of decimal digits, at most 4300
    of them, [fetch_owned_game_ids_for_user] returns without error; it
    skips the items whose [objectid] is missing, empty or not all
    digits, returns the values of the others, each a non-negative
    integer (zero included), without duplicates and in the order in
    which they are first seen. *)
Theorem fetch_owned_game_ids_nonneg_first_seen
    (fromstring : string → option element) (username token : string)
    (w w1 : World) (xml_text : string) (root : element) :
  http_get_xml_text BGG_COLLECTION_URL token (collection_params username)
    DEFAULT_TIMEOUT DEFAULT_MAX_ATTEMPTS DEFAULT_BACKOFF_MS DEFAULT_USER_AGENT w
    = (Ok xml_text, w1) →
  fromstring xml_text = Some root →
  objectids_decimal root = true →
  objectids_within_limit root = true →
  ∃ ids,
    fetch_owned_game_ids_for_user fromstring username token w = (Ok ids, w1)
    ∧ ids = first_occurrences (omap objectid_value (findall root "item"))
    ∧ Forall (fun n => 0 ≤ n) ids
    ∧ NoDup ids
    ∧ (∀ n, n ∈ ids ↔
            ∃ item oid, item ∈ findall root "item" ∧ get item "objectid" = Some oid
                        ∧ isdigit oid = true ∧ digits_value 0 oid = n)
    ∧ (∀ pre n post, ids = pre ++ n :: post →
         ∃ seen later, omap objectid_value (findall root "item") = seen ++ n :: later
                       ∧ (n ∉ seen) ∧ (∀ m, m ∈ pre ↔ m ∈ seen)).
Proof.
  intros Hget Hparse Hdec0 Hlim0.
  pose proof (objectids_decimal_spec _ Hdec0) as Hdec.
  pose proof (objectids_within_limit_spec _ Hlim0) as Hlim.
  exists (first_occurrences (omap objectid_value (findall root "item"))).
  split; [|split; [done|split; [|split; [|split]]]].
  - unfold fetch_owned_game_ids_for_user, bind. rewrite Hget.
    unfold parse_xml. rewrite Hparse. unfold ret, lift.
    rewrite owned_ids_decimal by (intros; split; eauto).
    simpl. by rewrite dedup_first_occurrences.
  - apply Forall_forall. intros n Hn. rewrite elem_of_first_occurrences in Hn.
    pose proof (objectid_value_nonneg _ Hdec) as Hall.
    rewrite Forall_forall in Hall. by apply Hall.
  - apply NoDup_first_occurrences.
  - intros n. rewrite elem_of_first_occurrences, list_elem_of_omap. split.
    + intros (item & Hitem & Hval). unfold objectid_value in Hval.
      destruct (get item "objectid") as [oid|] eqn:Hoid; [|done].
      destruct (isdigit oid) eqn:Hdig; [|done]. injection Hval as <-.
      by exists item, oid.
    + intros (item & oid & Hitem & Hoid & Hdig & <-). exists item. split; [done|].
      unfold objectid_value. by rewrite Hoid, Hdig.
  - intros pre n post Hids. by apply first_occurrences_order in Hids.
Qed.


(** A response with the [objectid]s 0, 7, x, 7 and the empty string
    yields the ids 0 and 7. *)
Lemma fetch_owned_game_ids_nonneg_first_seen_witness :
  ∃ ids,
    (fetch_owned_game_ids_for_user zero_collection_docs "amy" "tok"
       zero_collection_world).1 = Ok ids
    ∧ ids = [0; 7] ∧ Forall (fun n => 0 ≤ n) ids ∧ NoDup ids.
Proof.
  destruct (fetch_owned_game_ids_nonneg_first_seen zero_collection_docs "amy" "tok"
              zero_collection_world
              (http_get_xml_text BGG_COLLECTION_URL "tok" (collection_params "amy")
                 DEFAULT_TIMEOUT DEFAULT_MAX_ATTEMPTS DEFAULT_BACKOFF_MS
                 DEFAULT_USER_AGENT zero_collection_world).2
              "zero" (collection_doc ["0"; "7"; "x"; "7"; EmptyString]%string))
    as (ids & Hrun & Hids & Hpos & Hnd & _).
  - vm_compute. reflexivity.
  - vm_compute. reflexivity.
  - vm_compute. reflexivity.
  - vm_compute. reflexivity.
  - exists ids. rewrite Hrun. split; [reflexivity|]. split; [|split; assumption].
    rewrite Hids. vm_compute. reflexivity.
Defined.

(** An [objectid] of 0 passes [isdigit] and is returned, though it is
    not a positive integer. *)
Lemma fetch_owned_game_ids_returns_zero :
  ∃ ids,
    (fetch_owned_game_ids_for_user zero_collection_docs "amy" "tok"
       zero_collection_world).1 = Ok ids
    ∧ ¬ Forall (fun n => 0 < n) ids.
Proof.
  exists [0; 7]. split; [vm_compute; reflexivity|].
  intros Hall. apply Forall_cons in Hall as [Hlt _]. lia.
Qed.

(** An [objectid] that is a superscript digit passes [isdigit] and is
    then rejected by [int]: the call raises instead of skipping it. *)
Example fetch_owned_game_ids_superscript_raises :
  (fetch_owned_game_ids_for_user superscript_docs "amy" "tok" zero_collection_world).1
  = Raise (ValueError "invalid literal for int() with base 10").
Proof. vm_compute. reflexivity. Qed.

(* ===================================================================== *)
(** ** The shared transport routine *)
(* ===================================================================== *)

Lemma requests_made_log (e : event) (w : World) :
  requests_made (log e w) = (requests_made w + (if is_get e then 1 else 0))%nat.
Proof.
  unfold requests_made, log. simpl. rewrite filter_app, length_app.
  destruct e; simpl; lia.
Qed.

Lemma sleeps_made_log (e : event) (w : World) :
  sleeps_made (log e w) = (sleeps_made w + (if is_sleep e then 1 else 0))%nat.
Proof.
  unfold sleeps_made, log. simpl. rewrite filter_app, length_app.
  destruct e; simpl; lia.
Qed.

Lemma gets_retry_events (req : request) (backoff : Z) (rs : list response) :
  length (filter (fun e => is_get e = true) (retry_events req backoff rs)) = length rs.
Proof.
  induction rs as [|r rs IH]; [done|]. cbn [retry_events].
  rewrite filter_cons_True by done. rewrite filter_cons_False by done.
  simpl. by rewrite IH.
Qed.

Lemma sleeps_retry_events (req : request) (backoff : Z) (rs : list response) :
  length (filter (fun e => is_sleep e = true) (retry_events req backoff rs)) = length rs.
Proof.
  induction rs as [|r rs IH]; [done|]. cbn [retry_events].
  rewrite filter_cons_False by done. rewrite filter_cons_True by done.
  simpl. by rewrite IH.
Qed.

(** The shape of every run of the retry loop: a number of not-ready
    answers, each followed by a sleep, and then either the bound is
    reached or one last answer decides. *)
Lemma attempts_run (req : request) (max_attempts backoff : Z) (n : nat) :
  ∀ (last : option Z) (w w' : World) (r : result string),
    attempts req max_attempts backoff n last w = (r, w') →
    ∃ rs : list response,
      Forall (fun resp => status_code resp = NOT_READY) rs
      ∧ (∀ j resp, rs !! j = Some resp →
                   server w (requests_made w + j)%nat req = Ok resp)
      ∧ server w' = server w ∧ today w' = today w ∧ games_js w' = games_js w
      ∧ ((length rs = n
          ∧ trace w' = trace w ++ retry_events req backoff rs
          ∧ r = Raise (TimeoutError
                  (timeout_message (req_url req)
                     (match rs with [] => last | _ => Some NOT_READY end)
                     max_attempts)))
         ∨ ((length rs < n)%nat
            ∧ is_not_ready (server w (requests_made w + length rs)%nat req) = false
            ∧ trace w' = trace w ++ retry_events req backoff rs
                           ++ [EvGet req (server w (requests_made w + length rs)%nat req)]
            ∧ r = outcome (server w (requests_made w + length rs)%nat req))).
Proof.
  induction n as [|n IH]; intros last w w' r Hrun; simpl in Hrun.
  - injection Hrun as <- <-. exists []. split; [constructor|].
    split; [intros j resp Hj; by rewrite lookup_nil in Hj|].
    do 3 (split; [done|]). left. split; [done|]. split; [|done].
    by rewrite app_nil_r.
  - unfold bind, requests_get in Hrun.
    destruct (server w (requests_made w) req) as [resp|e] eqn:Hans.
    + destruct (status_code resp =? NOT_READY) eqn:Hst.
      * unfold sleep in Hrun.
        apply IH in Hrun as (rs & Hall & Hsrv & Hs & Ht & Hg & Hcases).
        apply Z.eqb_eq in Hst.
        rewrite !requests_made_log in Hsrv, Hcases. simpl in Hsrv, Hcases.
        exists (resp :: rs). split; [by constructor|].
        split.
        { intros [|j] resp' Hj; simpl in Hj.
          - injection Hj as <-. by rewrite Nat.add_0_r.
          - apply Hsrv in Hj.
            by replace (requests_made w + S j)%nat
              with (requests_made w + 1 + 0 + j)%nat by lia. }
        do 3 (split; [done|]). simpl.
        replace (requests_made w + S (length rs))%nat
          with (requests_made w + 1 + 0 + length rs)%nat by lia.
        destruct Hcases as [(Hlen & Htr & ->)|(Hlen & Hnr & Htr & ->)]; [left|right].
        -- split; [by rewrite Hlen|]. split.
           { rewrite Htr. simpl. rewrite <- !app_assoc. done. }
           rewrite Hst. by destruct rs.
        -- split; [lia|]. split; [done|]. split; [|done].
           rewrite Htr. simpl. rewrite <- !app_assoc. done.
      * exists []. split; [constructor|].
        split; [intros j resp' Hj; by rewrite lookup_nil in Hj|].
        simpl. rewrite Nat.add_0_r, Hans. simpl. rewrite Hst.
        unfold raise_for_status, ok in *.
        destruct ((400 <=? status_code resp) && (status_code resp <? 600));
          simpl in *; injection Hrun as <- <-;
          (do 3 (split; [done|])); right; (split; [lia|]); done.
    + injection Hrun as <- <-. exists []. split; [constructor|].
      split; [intros j resp' Hj; by rewrite lookup_nil in Hj|].
      simpl. rewrite Nat.add_0_r, Hans.
      do 3 (split; [done|]). right. split; [lia|]. done.
Qed.

Lemma is_not_ready_Ok (resp : response) :
  status_code resp = NOT_READY → is_not_ready (Ok resp) = true.
Proof. intros Hst. simpl. by apply Z.eqb_eq. Qed.

(** A transport that is not ready for [n] requests in a row exhausts a
    loop of [n] attempts. *)
Lemma attempts_exhausted (req : request) (max_attempts backoff : Z) (n : nat)
    (last : option Z) (w : World) :
  (∀ j, (j < n)%nat → is_not_ready (server w (requests_made w + j)%nat req) = true) →
  ∃ w' rs,
    attempts req max_attempts backoff n last w
    = (Raise (TimeoutError
                (timeout_message (req_url req)
                   (match n with O => last | _ => Some NOT_READY end) max_attempts)), w')
    ∧ length rs = n
    ∧ Forall (fun resp => status_code resp = NOT_READY) rs
    ∧ trace w' = trace w ++ retry_events req backoff rs.
Proof.
  intros Hnr.
  destruct (attempts req max_attempts backoff n last w) as [r w'] eqn:Hrun.
  destruct (attempts_run _ _ _ _ _ _ _ _ Hrun)
    as (rs & Hall & Hsrv & _ & _ & _ & [(Hlen & Htr & ->)|(Hlen & Hfalse & _)]).
  - exists w', rs. split; [|done]. do 3 f_equal.
    destruct rs, n; simpl in *; done.
  - rewrite Hnr in Hfalse by done. done.
Qed.

(** A transport that is not ready [k] times, with [k] below the bound,
    and then gives any other answer: that answer decides, after [k + 1]
    requests and [k] sleeps. *)
Lemma attempts_decided (req : request) (max_attempts backoff : Z) (n k : nat)
    (last : option Z) (w : World) :
  (k < n)%nat →
  (∀ j, (j < k)%nat → is_not_ready (server w (requests_made w + j)%nat req) = true) →
  is_not_ready (server w (requests_made w + k)%nat req) = false →
  ∃ w' rs,
    attempts req max_attempts backoff n last w
    = (outcome (server w (requests_made w + k)%nat req), w')
    ∧ length rs = k
    ∧ Forall (fun resp => status_code resp = NOT_READY) rs
    ∧ trace w' = trace w ++ retry_events req backoff rs
                   ++ [EvGet req (server w (requests_made w + k)%nat req)].
Proof.
  intros Hk Hnr Hfin.
  destruct (attempts req max_attempts backoff n last w) as [r w'] eqn:Hrun.
  destruct (attempts_run _ _ _ _ _ _ _ _ Hrun)
    as (rs & Hall & Hsrv & _ & _ & _ & Hcases).
  assert (Hle : ¬ (k < length rs)%nat).
  { intros Hlt. apply lookup_lt_is_Some_2 in Hlt as [resp Hresp].
    pose proof (Hsrv _ _ Hresp) as Hans.
    rewrite Forall_forall in Hall.
    rewrite Hans, is_not_ready_Ok in Hfin; [done|].
    apply Hall. by eapply list_elem_of_lookup_2. }
  destruct Hcases as [(Hlen & _)|(Hlen & Hfalse & Htr & ->)]; [lia|].
  assert (length rs = k) as <-.
  { destruct (decide (length rs = k)) as [|Hne]; [done|].
    rewrite Hnr in Hfalse by lia. done. }
  by exists w', rs.
Qed.

Lemma requests_made_app (w w' : World) (evs : list event) :
  trace w' = trace w ++ evs →
  requests_made w' = (requests_made w + length (filter (fun e => is_get e = true) evs))%nat.
Proof. unfold requests_made. intros ->. by rewrite filter_app, length_app. Qed.

Lemma sleeps_made_app (w w' : World) (evs : list event) :
  trace w' = trace w ++ evs →
  sleeps_made w' = (sleeps_made w + length (filter (fun e => is_sleep e = true) evs))%nat.
Proof. unfold sleeps_made. intros ->. by rewrite filter_app, length_app. Qed.

(** C3. Against a transport that answers 202 to every request,
    [http_get_xml_text] issues exactly [max_attempts] requests and then
    raises [TimeoutError] with a message that names the URL and the
    status 202 (and [None] when [max_attempts] allows no request at
    all).  Against a transport that answers 202 exactly [k] times, with
    [k < max_attempts], and then succeeds, it returns the body of that
    response after exactly [k + 1] requests. *)
Theorem http_get_xml_text_bounded_retry
    (url token : string) (params : list (string * param))
    (timeout max_attempts backoff : Z) (user_agent : string) (w : World) :
  let req := request_for url token params timeout user_agent in
  ((∀ n, is_not_ready (server w n req) = true) →
   ∃ w',
     http_get_xml_text url token params timeout max_attempts backoff user_agent w
     = (Raise (TimeoutError
                 (url +:+ " kept returning "
                      +:+ (if 0 <? max_attempts then "202" else "None")
                      +:+ " after " +:+ str max_attempts +:+ " attempts.")), w')
     ∧ requests_made w' = (requests_made w + Z.to_nat max_attempts)%nat)
  ∧ (∀ (k : nat) (resp : response),
       Z.of_nat k < max_attempts →
       (∀ j, (j < k)%nat → is_not_ready (server w (requests_made w + j)%nat req) = true) →
       server w (requests_made w + k)%nat req = Ok resp →
       status_code resp ≠ NOT_READY →
       ok resp = true →
       ∃ w',
         http_get_xml_text url token params timeout max_attempts backoff user_agent w
         = (Ok (text resp), w')
         ∧ requests_made w' = (requests_made w + k + 1)%nat).
Proof.
  intros req. split.
  - intros Hnr.
    destruct (attempts_exhausted req max_attempts backoff (Z.to_nat max_attempts) None w)
      as (w' & rs & Hrun & Hlen & _ & Htr); [intros j _; apply Hnr|].
    exists w'. split.
    + unfold http_get_xml_text. fold (request_for url token params timeout user_agent).
      fold req. rewrite Hrun. do 3 f_equal. unfold timeout_message. simpl.
      destruct (0 <? max_attempts) eqn:Hpos.
      * apply Z.ltb_lt in Hpos.
        destruct (Z.to_nat max_attempts) eqn:Hn; [lia|]. done.
      * apply Z.ltb_ge in Hpos. by replace (Z.to_nat max_attempts) with O by lia.
    + rewrite (requests_made_app _ _ _ Htr), gets_retry_events. lia.
  - intros k resp Hk Hnr Hans Hst Hok.
    destruct (attempts_decided req max_attempts backoff (Z.to_nat max_attempts) k None w)
      as (w' & rs & Hrun & Hlen & _ & Htr); [lia|done|..].
    { rewrite Hans. simpl. by apply Z.eqb_neq. }
    exists w'. split.
    + unfold http_get_xml_text. fold (request_for url token params timeout user_agent).
      fold req. rewrite Hrun, Hans. simpl. by rewrite Hok.
    + rewrite (requests_made_app _ _ _ Htr), filter_app, length_app, gets_retry_events.
      rewrite Hans. simpl. lia.
Qed.

(** C8, as the code has it.  Only the status 202 makes
    [http_get_xml_text] sleep and ask again.  When the transport answers
    202 [k] times, with [k] below the bound, and then with any other
    status, the call ends with that response: [HTTPError] is raised when
    the status is between 400 and 599, and the body is returned for
    every other status, which are the success statuses 200 to 299 and
    also the statuses below 200, from 300 to 399 and from 600 on.  The
    events of the call are the [k] not-ready answers, each followed by
    one sleep of the back-off time, and that last answer: nothing is
    requested and nothing is slept after it. *)
Theorem http_get_xml_text_only_not_ready_retries
    (url token : string) (params : list (string * param))
    (timeout max_attempts backoff : Z) (user_agent : string) (w : World)
    (k : nat) (resp : response) :
  let req := request_for url token params timeout user_agent in
  Z.of_nat k < max_attempts →
  (∀ j, (j < k)%nat → is_not_ready (server w (requests_made w + j)%nat req) = true) →
  server w (requests_made w + k)%nat req = Ok resp →
  status_code resp ≠ NOT_READY →
  ∃ r w' rs,
    http_get_xml_text url token params timeout max_attempts backoff user_agent w = (r, w')
    ∧ (400 ≤ status_code resp < 600 → r = Raise (HTTPError (status_code resp)))
    ∧ (status_code resp < 400 ∨ 600 ≤ status_code resp → r = Ok (text resp))
    ∧ (success_status (status_code resp) = true → r = Ok (text resp))
    ∧ length rs = k
    ∧ Forall (fun r => status_code r = NOT_READY) rs
    ∧ trace w' = trace w ++ retry_events req backoff rs ++ [EvGet req (Ok resp)]
    ∧ requests_made w' = (requests_made w + k + 1)%nat
    ∧ sleeps_made w' = (sleeps_made w + k)%nat.
Proof.
  intros req Hk Hnr Hans Hst.
  destruct (attempts_decided req max_attempts backoff (Z.to_nat max_attempts) k None w)
    as (w' & rs & Hrun & Hlen & Hall & Htr); [lia|done|..].
  { rewrite Hans. simpl. by apply Z.eqb_neq. }
  rewrite Hans in Hrun, Htr.
  assert (Herr : 400 ≤ status_code resp < 600 →
            outcome (Ok resp) = Raise (HTTPError (status_code resp))).
  { intros Hrange. unfold outcome, ok.
    destruct (400 <=? status_code resp) eqn:H4; [|lia].
    destruct (status_code resp <? 600) eqn:H6; [done|lia]. }
  assert (Hbody : status_code resp < 400 ∨ 600 ≤ status_code resp →
            outcome (Ok resp) = Ok (text resp)).
  { intros Hrange. unfold outcome, ok.
    destruct (400 <=? status_code resp) eqn:H4; [|done].
    destruct (status_code resp <? 600) eqn:H6; [lia|done]. }
  exists (outcome (Ok resp)), w', rs.
  split; [|split; [done|split; [done|split; [|split; [done|split; [done|split; [done|split]]]]]]].
  - unfold http_get_xml_text. fold (request_for url token params timeout user_agent).
    fold req. by rewrite Hrun.
  - unfold success_status. intros [H2 H3]%andb_prop. apply Hbody. lia.
  - rewrite (requests_made_app _ _ _ Htr), filter_app, length_app, gets_retry_events.
    simpl. lia.
  - rewrite (sleeps_made_app _ _ _ Htr), filter_app, length_app, sleeps_retry_events.
    simpl. lia.
Qed.

(** Three attempts against a transport that is never ready, and the
    default bound against one that is ready at the third request. *)
Lemma http_get_xml_text_bounded_retry_witness :
  (∃ w',
     http_get_xml_text BGG_COLLECTION_URL "tok" (collection_params "amy")
       DEFAULT_TIMEOUT 3 DEFAULT_BACKOFF_MS DEFAULT_USER_AGENT (world_of never_ready)
     = (Raise (TimeoutError
          "https://boardgamegeek.com/xmlapi2/collection kept returning 202 after 3 attempts."),
        w')
     ∧ requests_made w' = 3%nat)
  ∧ (∃ w',
       http_get_xml_text BGG_COLLECTION_URL "tok" (collection_params "amy")
         DEFAULT_TIMEOUT DEFAULT_MAX_ATTEMPTS DEFAULT_BACKOFF_MS DEFAULT_USER_AGENT
         twice_not_ready_world
       = (Ok "five"%string, w')
       ∧ requests_made w' = 3%nat).
Proof.
  split.
  - destruct (http_get_xml_text_bounded_retry BGG_COLLECTION_URL "tok"
                (collection_params "amy") DEFAULT_TIMEOUT 3 DEFAULT_BACKOFF_MS
                DEFAULT_USER_AGENT (world_of never_ready)) as [Hall _].
    destruct Hall as (w' & Hrun & Hreq); [intros n; reflexivity|].
    exists w'. split; [exact Hrun|exact Hreq].
  - destruct (http_get_xml_text_bounded_retry BGG_COLLECTION_URL "tok"
                (collection_params "amy") DEFAULT_TIMEOUT DEFAULT_MAX_ATTEMPTS
                DEFAULT_BACKOFF_MS DEFAULT_USER_AGENT twice_not_ready_world) as [_ Hthen].
    destruct (Hthen 2%nat (Response 200 "five")) as (w' & Hrun & Hreq).
    + reflexivity.
    + intros [|[|j]] Hj; [reflexivity|reflexivity|lia].
    + reflexivity.
    + discriminate.
    + reflexivity.
    + exists w'. split; [exact Hrun|exact Hreq].
Defined.

(** One not-ready answer and then a 404: two requests, one sleep, and
    the error. *)
Lemma http_get_xml_text_only_not_ready_retries_witness :
  ∃ w',
    http_get_xml_text BGG_THING_URL "tok" (thing_params [10; 20])
      DEFAULT_TIMEOUT DEFAULT_MAX_ATTEMPTS DEFAULT_BACKOFF_MS DEFAULT_USER_AGENT
      not_found_world
    = (Raise (HTTPError 404), w')
    ∧ requests_made w' = 2%nat ∧ sleeps_made w' = 1%nat.
Proof.
  destruct (http_get_xml_text_only_not_ready_retries BGG_THING_URL "tok"
              (thing_params [10; 20]) DEFAULT_TIMEOUT DEFAULT_MAX_ATTEMPTS
              DEFAULT_BACKOFF_MS DEFAULT_USER_AGENT not_found_world
              1%nat (Response 404 "Not Found"))
    as (r & w' & rs & Hrun & Herr & _ & _ & _ & _ & _ & Hreq & Hsl).
  - reflexivity.
  - intros [|j] Hj; [reflexivity|lia].
  - reflexivity.
  - discriminate.
  - exists w'. rewrite Hrun, Herr; [|simpl; lia].
    split; [reflexivity|]. split; [exact Hreq|exact Hsl].
Defined.

(** A response with the status 304 is neither not-ready nor a success,
    and no error is raised for it: after one not-ready answer, the call
    returns the body of that response, which is empty. *)
Lemma http_get_xml_text_returns_not_modified :
  304 ≠ NOT_READY
  ∧ success_status 304 = false
  ∧ ∃ w',
      http_get_xml_text BGG_COLLECTION_URL "tok" (collection_params "amy")
        DEFAULT_TIMEOUT DEFAULT_MAX_ATTEMPTS DEFAULT_BACKOFF_MS DEFAULT_USER_AGENT
        not_modified_world
      = (Ok EmptyString, w')
      ∧ requests_made w' = 2%nat.
Proof.
  split; [discriminate|]. split; [reflexivity|].
  eexists. split; vm_compute; reflexivity.
Qed.

(* ===================================================================== *)
(** ** Batches of the name resolver *)
(* ===================================================================== *)

Lemma ceil_div_spec (a b : Z) :
  0 < b → a ≤ ceil_div a b * b < a + b.
Proof.
  intros Hb. unfold ceil_div.
  pose proof (Z.div_mod (a + b - 1) b ltac:(lia)) as Hdm.
  pose proof (Z.mod_pos_bound (a + b - 1) b Hb) as Hmod.
  nia.
Qed.

Lemma concat_chunks_nat {A} (b m : nat) (xs : list A) :
  (length xs ≤ m * b)%nat →
  concat ((fun k => take b (drop (k * b) xs)) <$> seq 0 m) = xs.
Proof.
  revert xs. induction m as [|m IH]; intros xs Hlen.
  - simpl in *. destruct xs; simpl in *; [done|lia].
  - rewrite <- cons_seq, <- fmap_S_seq. cbn [fmap list_fmap concat].
    rewrite drop_0, <- list_fmap_compose.
    transitivity (take b xs ++ drop b xs); [|apply take_drop]. f_equal.
    etransitivity; [|apply (IH (drop b xs)); rewrite length_drop; lia].
    f_equal. apply list_fmap_ext. intros _ k _. simpl.
    by rewrite drop_drop.
Qed.

Lemma chunked_eq (xs : list Z) (n : Z) :
  0 < n →
  chunked xs n
  = Ok ((fun k => take (Z.to_nat n) (drop (k * Z.to_nat n) xs))
          <$> seq 0 (Z.to_nat (ceil_div (Z.of_nat (length xs)) n))).
Proof.
  intros Hn. unfold chunked, range0.
  destruct (n =? 0) eqn:Hz; [apply Z.eqb_eq in Hz; lia|].
  destruct (0 <? n) eqn:Hp; [|apply Z.ltb_ge in Hp; lia].
  f_equal. rewrite <- list_fmap_compose. apply list_fmap_ext.
  intros _ k _. unfold slice. simpl. f_equal; [f_equal; lia|].
  f_equal. lia.
Qed.

Lemma chunked_partition (xs : list Z) (n : Z) :
  0 < n →
  ∃ chunks,
    chunked xs n = Ok chunks
    ∧ length chunks = Z.to_nat (ceil_div (Z.of_nat (length xs)) n)
    ∧ Z.of_nat (length xs) ≤ Z.of_nat (length chunks) * n < Z.of_nat (length xs) + n
    ∧ Forall (fun ch => (0 < length ch)%nat ∧ Z.of_nat (length ch) ≤ n) chunks
    ∧ concat chunks = xs.
Proof.
  intros Hn. eexists. split; [by apply chunked_eq|].
  pose proof (ceil_div_spec (Z.of_nat (length xs)) n Hn) as Hceil.
  assert (Hc0 : 0 ≤ ceil_div (Z.of_nat (length xs)) n) by nia.
  rewrite length_fmap, length_seq.
  split; [done|]. split; [lia|]. split.
  - apply Forall_forall. intros ch Hch.
    apply list_elem_of_fmap in Hch as (k & -> & Hk).
    apply elem_of_seq in Hk. rewrite length_take, length_drop. nia.
  - apply concat_chunks_nat. nia.
Qed.

(** A successful call of [http_get_xml_text]: retries, then one
    response that is a success, whose body is the result. *)
Lemma http_get_xml_text_Ok (url token : string) (params : list (string * param))
    (timeout max_attempts backoff : Z) (user_agent : string)
    (w w' : World) (xml_text : string) :
  http_get_xml_text url token params timeout max_attempts backoff user_agent w
  = (Ok xml_text, w') →
  ∃ rs resp,
    Forall (fun r => status_code r = NOT_READY) rs
    ∧ (∀ j r, rs !! j = Some r →
              server w (requests_made w + j)%nat
                (request_for url token params timeout user_agent) = Ok r)
    ∧ status_code resp ≠ NOT_READY ∧ ok resp = true ∧ text resp = xml_text
    ∧ trace w' = trace w
                   ++ retry_events (request_for url token params timeout user_agent) backoff rs
                   ++ [EvGet (request_for url token params timeout user_agent) (Ok resp)]
    ∧ server w' = server w ∧ today w' = today w ∧ games_js w' = games_js w.
Proof.
  unfold http_get_xml_text. fold (request_for url token params timeout user_agent).
  intros Hrun.
  destruct (attempts_run _ _ _ _ _ _ _ _ Hrun)
    as (rs & Hall & Hsrv & Hs & Ht & Hg & [(_ & _ & ?)|(_ & Hnr & Htr & Hout)]); [done|].
  destruct (server w _ _) as [resp|e]; [|done].
  simpl in Hout, Hnr. destruct (ok resp) eqn:Hok; [|done].
  injection Hout as ->. exists rs, resp.
  split; [done|]. split; [done|]. split; [by apply Z.eqb_neq|]. done.
Qed.

Lemma answered_app (l1 l2 : list event) :
  answered (l1 ++ l2) = answered l1 ++ answered l2.
Proof. apply omap_app. Qed.

Lemma answered_retry_events (req : request) (backoff : Z) (rs : list response) :
  Forall (fun r => status_code r = NOT_READY) rs →
  answered (retry_events req backoff rs) = [].
Proof.
  induction 1 as [|r rs Hr _ IH]; [done|].
  cbn [retry_events]. unfold answered in *. cbn [omap list_omap].
  by rewrite Hr, Z.eqb_refl.
Qed.

Lemma retried_app (l1 l2 : list event) :
  retried (l1 ++ l2) = (retried l1 + retried l2)%nat.
Proof. unfold retried. by rewrite filter_app, length_app. Qed.

Lemma retried_retry_events (req : request) (backoff : Z) (rs : list response) :
  Forall (fun r => status_code r = NOT_READY) rs →
  retried (retry_events req backoff rs) = length rs.
Proof.
  induction 1 as [|r rs Hr _ IH]; [done|].
  cbn [retry_events]. unfold retried in *.
  rewrite filter_cons_True by (simpl; by apply Z.eqb_eq).
  rewrite filter_cons_False by done. simpl. by rewrite IH.
Qed.

(** Names add up: processing items on top of [out] is processing them
    alone and laying the result over [out]. *)
Lemma names_of_items_acc (items : list element) (out : gmap Z string) :
  names_of_items items out
  = match names_of_items items ∅ with
    | Ok names => Ok (names ∪ out)
    | Raise e => Raise e
    end.
Proof.
  revert out. induction items as [|item items IH]; intros out; simpl.
  - by rewrite (left_id_L ∅ (∪)).
  - destruct (get item "id") as [oid|]; [|apply IH].
    destruct (truthy oid && isdigit oid); [|apply IH].
    destruct (int oid) as [gid|e]; [|done].
    destruct (primary_name item) as [primary|]; [|apply IH].
    destruct (truthy primary); [|apply IH].
    rewrite (IH (<[gid:=primary]> out)), (IH (<[gid:=primary]> ∅)).
    destruct (names_of_items items ∅) as [names|e]; [|done].
    f_equal. rewrite <- (assoc_L (∪)). f_equal.
    by rewrite insert_empty, <- insert_union_singleton_l.
Qed.

Lemma names_of_items_union (items : list element) (out out' : gmap Z string) :
  names_of_items items out = Ok out' →
  ∃ names, names_of_items items ∅ = Ok names ∧ out' = names ∪ out.
Proof.
  rewrite names_of_items_acc.
  destruct (names_of_items items ∅) as [names|e]; [|done].
  intros [= <-]. by exists names.
Qed.

Lemma dom_foldl_union (batches : list (gmap Z string)) (out : gmap Z string) :
  dom (foldl (fun acc names => names ∪ acc) out batches)
  = dom out ∪ ⋃ (dom <$> batches).
Proof.
  revert out. induction batches as [|names batches IH]; intros out; simpl.
  - set_solver.
  - rewrite IH, dom_union_L. set_solver.
Qed.

(** The run of the loop over the chunks, when it succeeds. *)
Lemma fetch_chunks_run (fromstring : string → option element)
    (chunks : list (list Z)) (token : string) :
  ∀ (out out' : gmap Z string) (w w' : World),
    fetch_chunks fromstring chunks token out w = (Ok out', w') →
    ∃ evs batches,
      trace w' = trace w ++ evs
      ∧ server w' = server w ∧ today w' = today w ∧ games_js w' = games_js w
      ∧ (answered evs).*1 = thing_request token <$> chunks
      ∧ Forall2 (batch_names fromstring) (answered evs).*2 batches
      ∧ length (filter (fun e => is_get e = true) evs)
        = (length chunks + retried evs)%nat
      ∧ ((∀ n req, is_not_ready (server w n req) = false) → retried evs = 0%nat)
      ∧ out' = foldl (fun acc names => names ∪ acc) out batches.
Proof.
  induction chunks as [|ch chunks IH]; intros out out' w w' Hrun.
  - injection Hrun as <- <-. exists [], []. rewrite app_nil_r.
    repeat split; done.
  - cbn [fetch_chunks] in Hrun. unfold bind at 1 in Hrun.
    destruct (http_get_xml_text _ _ _ _ _ _ _ w) as [[xml_text|e] w1] eqn:Hhttp; [|done].
    unfold bind at 1, parse_xml in Hrun.
    destruct (fromstring xml_text) as [root|] eqn:Hparse; [|done].
    unfold ret at 1 in Hrun. unfold bind at 1, lift in Hrun.
    destruct (names_of_items (findall root "item") out) as [out1|e] eqn:Hnames; [|done].
    unfold bind at 1, sleep in Hrun.
    apply IH in Hrun
      as (evs & batches & Htr & Hs & Ht & Hg & Hreq & Hbatch & Hcount & Hready & ->).
    apply http_get_xml_text_Ok in Hhttp
      as (rs & resp & Hall & Hsrv & Hst & Hok & <- & Htr1 & Hs1 & Ht1 & Hg1).
    apply names_of_items_union in Hnames as (names & Hnames & ->).
    simpl in Htr, Hs, Ht, Hg.
    exists (retry_events (thing_request token ch) DEFAULT_BACKOFF_MS rs
              ++ [EvGet (thing_request token ch) (Ok resp)] ++ [EvSleep 200] ++ evs),
           (names :: batches).
    assert (Hans : answered
              (retry_events (thing_request token ch) DEFAULT_BACKOFF_MS rs
                 ++ [EvGet (thing_request token ch) (Ok resp)] ++ [EvSleep 200] ++ evs)
            = (thing_request token ch, resp) :: answered evs).
    { rewrite answered_app, answered_retry_events by done.
      unfold answered. cbn [app omap list_omap].
      apply Z.eqb_neq in Hst. by rewrite Hst. }
    rewrite Hans.
    split; [rewrite Htr, Htr1; by rewrite <- !app_assoc|].
    split; [congruence|]. split; [congruence|]. split; [congruence|].
    split; [by rewrite !fmap_cons, Hreq|].
    split; [rewrite fmap_cons; constructor; [by exists root|done]|].
    assert (Hfinal : retried [EvGet (thing_request token ch) (Ok resp)] = 0%nat).
    { unfold retried. rewrite filter_cons_False; [done|].
      intros Hr. cbv beta in Hr. unfold is_retry, is_not_ready in Hr.
      by apply Z.eqb_eq in Hr. }
    rewrite !retried_app, retried_retry_events, Hfinal by done.
    change (retried [EvSleep 200]) with 0%nat.
    split; [|split; [|done]].
    + rewrite filter_app, length_app, gets_retry_events.
      cbn [app]. rewrite filter_cons_True by done. rewrite filter_cons_False by done.
      simpl length. lia.
    + intros Hnever. rewrite Hready.
      2:{ intros n req. simpl. rewrite Hs1. apply Hnever. }
      destruct rs as [|r rs]; [done|].
      specialize (Hsrv 0%nat r eq_refl).
      apply Forall_cons in Hall as [Hr _].
      pose proof (Hnever (requests_made w + 0)%nat (thing_request token ch)) as Hn.
      change (request_for BGG_THING_URL token (thing_params ch) DEFAULT_TIMEOUT
                DEFAULT_USER_AGENT) with (thing_request token ch) in Hsrv.
      rewrite Hsrv in Hn. simpl in Hn. apply Z.eqb_neq in Hn. done.
Qed.

(** C5. For a positive batch size [B], the resolver cuts the [N] ids
    into [ceil(N/B)] batches of at least one and at most [B] ids that
    concatenate to the id list.  When it succeeds, it got exactly one
    final answer per batch, in order, to the lookup request made of
    that batch's ids; every other request it issued was answered
    not-ready and retried, so that a transport that is always ready
    sees exactly one request per batch; and the mapping it returns is
    the union of the mappings of the single responses. *)
Theorem fetch_primary_names_batches
    (fromstring : string → option element) (ids : list Z) (token : string)
    (B : Z) (w w' : World) (out : gmap Z string) :
  0 < B →
  fetch_primary_names fromstring ids token B w = (Ok out, w') →
  ∃ chunks evs batches,
    chunked ids B = Ok chunks
    ∧ length chunks = Z.to_nat (ceil_div (Z.of_nat (length ids)) B)
    ∧ Z.of_nat (length ids) ≤ Z.of_nat (length chunks) * B < Z.of_nat (length ids) + B
    ∧ Forall (fun ch => (0 < length ch)%nat ∧ Z.of_nat (length ch) ≤ B) chunks
    ∧ concat chunks = ids
    ∧ trace w' = trace w ++ evs
    ∧ (answered evs).*1 = thing_request token <$> chunks
    ∧ requests_made w' = (requests_made w + length chunks + retried evs)%nat
    ∧ ((∀ n req, is_not_ready (server w n req) = false) →
       requests_made w' = (requests_made w + length chunks)%nat)
    ∧ Forall2 (batch_names fromstring) (answered evs).*2 batches
    ∧ out = union_batches batches
    ∧ dom out = ⋃ (dom <$> batches).
Proof.
  intros HB Hrun.
  destruct (chunked_partition ids B HB) as (chunks & Hch & Hlen & Hceil & Hall & Hcat).
  unfold fetch_primary_names, bind at 1, lift in Hrun. rewrite Hch in Hrun.
  apply fetch_chunks_run in Hrun
    as (evs & batches & Htr & _ & _ & _ & Hreq & Hbatch & Hcount & Hready & ->).
  assert (Hmade : requests_made w' = (requests_made w + length chunks + retried evs)%nat).
  { rewrite (requests_made_app _ _ _ Htr), Hcount. lia. }
  exists chunks, evs, batches.
  do 8 (split; [done|]). split; [|split; [done|split; [done|]]].
  - intros Hnever. rewrite Hmade, Hready by done. lia.
  - rewrite dom_foldl_union, dom_empty_L. set_solver.
Qed.

(** Three ids in batches of two, the first batch not ready at first. *)
Lemma fetch_primary_names_batches_witness :
  ∃ out w' chunks evs batches,
    fetch_primary_names batches_docs [10; 20; 30] "tok" 2 batches_world = (Ok out, w')
    ∧ chunked [10; 20; 30] 2 = Ok chunks
    ∧ length chunks = 2%nat
    ∧ concat chunks = [10; 20; 30]
    ∧ trace w' = evs
    ∧ (answered evs).*1 = thing_request "tok" <$> chunks
    ∧ requests_made w' = (length chunks + retried evs)%nat
    ∧ out = union_batches batches.
Proof.
  destruct (fetch_primary_names batches_docs [10; 20; 30] "tok" 2 batches_world)
    as [[out|e] w'] eqn:Hrun.
  - destruct (fetch_primary_names_batches batches_docs [10; 20; 30] "tok" 2
                batches_world w' out eq_refl Hrun)
      as (chunks & evs & batches & Hch & Hlen & _ & _ & Hcat & Htr & Hreq & Hcount & _ & _
          & Hout & _).
    exists out, w', chunks, evs, batches.
    split; [reflexivity|]. split; [exact Hch|]. split; [exact Hlen|].
    split; [exact Hcat|]. split; [exact Htr|]. split; [exact Hreq|].
    split; [exact Hcount|exact Hout].
  - vm_compute in Hrun. discriminate Hrun.
Defined.

(* ===================================================================== *)
(** ** The serializer *)
(* ===================================================================== *)

Lemma app_String (c : ascii) (s t : string) : String c s +:+ t = String c (s +:+ t).
Proof. reflexivity. Qed.

Lemma app_empty_l (t : string) : EmptyString +:+ t = t.
Proof. reflexivity. Qed.

Lemma app_assoc_str (s t u : string) : (s +:+ t) +:+ u = s +:+ (t +:+ u).
Proof. induction s as [|c s IH]; [done|]. by rewrite !app_String, IH. Qed.

Lemma replace_app (old : ascii) (new s t : string) :
  replace old new (s +:+ t) = replace old new s +:+ replace old new t.
Proof.
  induction s as [|c s IH]; [done|].
  rewrite app_String. cbn [replace]. rewrite IH.
  destruct (Ascii.eqb c old); [by rewrite app_assoc_str|done].
Qed.

Lemma js_escape_app (s t : string) : js_escape (s +:+ t) = js_escape s +:+ js_escape t.
Proof. unfold js_escape. by rewrite !replace_app. Qed.

Lemma js_escape_chr (c : ascii) : js_escape (chr c) = escape_char c.
Proof. destruct c as [[] [] [] [] [] [] [] []]; reflexivity. Qed.

(** The five replacements in a row amount to one pass that escapes
    each character by itself. *)
Lemma js_escape_chars (s : string) : js_escape s = escape_chars s.
Proof.
  induction s as [|c s IH]; [done|].
  change (String c s) with (chr c +:+ s).
  by rewrite js_escape_app, js_escape_chr, IH.
Qed.

Lemma read_escape_char (c : ascii) (t : string) :
  read_js_string_body (escape_char c +:+ t)
  = match read_js_string_body t with
    | Some (v, rest) => Some (String c v, rest)
    | None => None
    end.
Proof. destruct c as [[] [] [] [] [] [] [] []]; reflexivity. Qed.

Lemma read_escape_chars (s rest : string) :
  read_js_string_body (escape_chars s +:+ String DQUOTE rest) = Some (s, rest).
Proof.
  induction s as [|c s IH]; [done|].
  cbn [escape_chars]. by rewrite app_assoc_str, read_escape_char, IH.
Qed.

(** What the script writes for a string reads back as that string. *)
Lemma read_quoted (s rest : string) : read_js_string (quoted s +:+ rest) = Some (s, rest).
Proof.
  unfold quoted. rewrite js_escape_chars.
  change (chr DQUOTE +:+ escape_chars s +:+ chr DQUOTE)
    with (String DQUOTE (escape_chars s +:+ chr DQUOTE)).
  rewrite app_String. cbn [read_js_string].
  rewrite app_assoc_str. apply read_escape_chars.
Qed.

Lemma write_games_js_run (games : list game) (w : World) :
  write_games_js games w
  = (Ok tt, mkWorld (server w) (trace w) (today w)
              (Some (join (chr LF) (games_js_lines (today w) games)))).
Proof. reflexivity. Qed.

(** C9. The text [write_games_js] writes is a function of the record
    list and of the date alone: two runs on the same list write texts
    whose lines agree everywhere but at the third line, the one with the
    date, and that are equal when the dates are.  Every record is
    written on a line of its own with its id, its name and its owners,
    names and owners between double quotes with backslash, double
    quote, line feed, carriage return and tab escaped, so that each
    reads back as the string it stands for. *)
Theorem write_games_js_deterministic_escaped (games : list game) (w1 w2 : World) :
  let lines1 := games_js_lines (today w1) games in
  let lines2 := games_js_lines (today w2) games in
  (write_games_js games w1).1 = Ok tt
  ∧ (write_games_js games w2).1 = Ok tt
  ∧ games_js (write_games_js games w1).2 = Some (join (chr LF) lines1)
  ∧ games_js (write_games_js games w2).2 = Some (join (chr LF) lines2)
  ∧ length lines1 = length lines2
  ∧ (∀ i, i ≠ 2%nat → lines1 !! i = lines2 !! i)
  ∧ lines1 !! 2%nat = Some ("// generated_at: " +:+ today w1)
  ∧ (today w1 = today w2 → lines1 = lines2)
  ∧ (∀ i g, games !! i = Some g →
       lines1 !! (5 + i)%nat
       = Some ("  { id: " +:+ str (game_id g) +:+ ", name: " +:+ quoted (game_name g)
               +:+ ", owners: [" +:+ join ", " (quoted <$> game_owners g) +:+ "] },"))
  ∧ (∀ s, js_escape s = escape_chars s)
  ∧ (∀ s rest, read_js_string (quoted s +:+ rest) = Some (s, rest)).
Proof.
  intros lines1 lines2. rewrite !write_games_js_run. simpl fst. simpl snd.
  split; [done|]. split; [done|]. split; [done|]. split; [done|].
  split; [unfold lines1, lines2, games_js_lines; by rewrite !length_app|].
  split.
  { intros i Hi. unfold lines1, lines2, games_js_lines.
    destruct i as [|[|[|i]]]; done. }
  split; [done|].
  split; [intros Heq; unfold lines1, lines2; by rewrite Heq|].
  split.
  { intros i g Hg. unfold lines1, games_js_lines.
    rewrite lookup_app_r by (simpl; lia). simpl length.
    replace (5 + i - 5)%nat with i by lia.
    rewrite lookup_app_l by (rewrite length_fmap; by eapply lookup_lt_Some).
    by rewrite list_lookup_fmap, Hg. }
  split; [apply js_escape_chars|apply read_quoted].
Qed.

(* ===================================================================== *)
(** ** The user names of users.js *)
(* ===================================================================== *)

Lemma lstrip_spec (s : string) :
  ∃ l, s = l +:+ lstrip s ∧ forallb_str isspace_char l = true.
Proof.
  induction s as [|c s (l & Hl & Hsp)]; [by exists EmptyString|].
  simpl. destruct (isspace_char c) eqn:Hc.
  - exists (String c l). rewrite app_String, <- Hl. simpl. by rewrite Hc.
  - by exists EmptyString.
Qed.








Lemma truthy_nonempty (s : string) : truthy s = true ↔ s ≠ EmptyString.
Proof. by destruct s. Qed.

Lemma collect_usernames_decodable (unicode_escape : string → option string)
    (ms : list (string * string)) (usernames : list string) :
  forallb (fun key => bool_decide (is_Some (unicode_escape key))) ms.*1 = true →
  collect_usernames unicode_escape ms usernames
  = Ok (usernames
          ++ filter (fun k => k ≠ EmptyString) (strip <$> omap unicode_escape ms.*1)).
Proof.
  revert usernames. induction ms as [|[key val] ms IH]; intros usernames Hall.
  - simpl. by rewrite app_nil_r.
  - cbn [fmap list_fmap fst forallb] in Hall. apply andb_prop in Hall as [Hkey Hall].
    apply bool_decide_eq_true in Hkey as [u Hu].
    cbn [collect_usernames fmap list_fmap fst omap list_omap].
    unfold _unescape_js_string. rewrite Hu. cbn [fmap list_fmap].
    destruct (truthy (strip u)) eqn:Ht.
    + rewrite IH by done. rewrite filter_cons_True by by apply truthy_nonempty.
      by rewrite <- app_assoc.
    + rewrite IH by done. rewrite filter_cons_False; [done|].
      rewrite <- truthy_nonempty. by rewrite Ht.
Qed.




(* ===================================================================== *)
(** ** Sorting *)
(* ===================================================================== *)

Section SortedFacts.
Context {A K : Type} (ltb : K → K → bool) (key : A → K).
Hypothesis ltb_asym : ∀ a b, ltb a b = true → ltb b a = false.

Lemma insert_sorted_Permutation (x : A) (l : list A) :
  insert_sorted ltb key x l ≡ₚ x :: l.
Proof.
  induction l as [|y l IH]; simpl; [done|].
  destruct (ltb (key y) (key x)); [|done].
  rewrite IH. apply Permutation_swap.
Qed.

Lemma sorted_Permutation (l : list A) : sorted ltb key l ≡ₚ l.
Proof.
  induction l as [|x l IH]; simpl; [done|].
  by rewrite insert_sorted_Permutation, IH.
Qed.

Lemma HdRel_insert_sorted (x y : A) (l : list A) :
  not_after ltb key y x → HdRel (not_after ltb key) y l →
  HdRel (not_after ltb key) y (insert_sorted ltb key x l).
Proof.
  intros Hyx Hhd. destruct l as [|z l]; simpl; [by constructor|].
  destruct (ltb (key z) (key x)); constructor; [|done].
  by inversion Hhd.
Qed.

Lemma Sorted_insert_sorted (x : A) (l : list A) :
  Sorted (not_after ltb key) l → Sorted (not_after ltb key) (insert_sorted ltb key x l).
Proof.
  induction 1 as [|y l Hs IH Hhd]; simpl; [by repeat constructor|].
  destruct (ltb (key y) (key x)) eqn:Hyx.
  - constructor; [done|]. apply HdRel_insert_sorted; [|done].
    by apply ltb_asym.
  - constructor; [by constructor|]. by constructor.
Qed.

Lemma Sorted_sorted (l : list A) : Sorted (not_after ltb key) (sorted ltb key l).
Proof.
  induction l as [|x l IH]; simpl; [constructor|].
  by apply Sorted_insert_sorted.
Qed.

End SortedFacts.

(** *** The order of strings *)

Lemma ltb_false_leb (a b : string) : String.ltb b a = false ↔ String.leb a b = true.
Proof.
  unfold String.ltb, String.leb. rewrite (String.compare_antisym b a).
  destruct (String.compare a b); simpl; split; done.
Qed.

Lemma ltb_leb_ne (a b : string) : String.ltb a b = true ↔ String.leb a b = true ∧ a ≠ b.
Proof.
  unfold String.ltb, String.leb.
  destruct (String.compare a b) eqn:Hc.
  - apply String.compare_eq_iff in Hc. split; [done|]. by intros [_ ?].
  - split; [|done]. intros _. split; [done|]. intros ->.
    pose proof (String.compare_antisym b b) as Ha. rewrite Hc in Ha. discriminate.
  - split; [done|]. by intros [? _].
Qed.

Lemma str_lt_asym (a b : string) : String.ltb a b = true → String.ltb b a = false.
Proof. intros [Hle _]%ltb_leb_ne. by apply ltb_false_leb. Qed.

Lemma str_le_trans (a b c : string) :
  String.leb a b = true → String.leb b c = true → String.leb a c = true.
Proof.
  intros Hab Hbc. apply Is_true_true.
  apply (transitivity (R := String.le) (y := b)); by apply Is_true_true.
Qed.

Lemma str_lt_trans (a b c : string) : str_lt a b → str_lt b c → str_lt a c.
Proof.
  unfold str_lt. rewrite !ltb_leb_ne. intros [Hab Hne1] [Hbc Hne2].
  split; [by eapply str_le_trans|]. intros ->.
  apply Hne1. by apply String.leb_antisym.
Qed.

Lemma str_lt_trichotomy (a b : string) :
  String.ltb b a = false → a ≠ b → str_lt a b.
Proof. intros Hle%ltb_false_leb Hne. by apply ltb_leb_ne. Qed.

Lemma str_lt_irrefl (a : string) : ¬ str_lt a a.
Proof. unfold str_lt. rewrite ltb_leb_ne. by intros [_ ?]. Qed.

(** *** The order of the sort keys *)

Lemma key_ltb_asym (a b : string * Z) : key_ltb a b = true → key_ltb b a = false.
Proof.
  unfold key_ltb. rewrite (String.eqb_sym b.1 a.1).
  destruct (String.eqb a.1 b.1); [lia|apply str_lt_asym].
Qed.

Lemma key_ltb_false_le (a b : string * Z) : key_ltb b a = false → key_le a b.
Proof.
  unfold key_ltb, key_le. destruct (String.eqb_spec b.1 a.1) as [Heq|Hne].
  - intros Hlt%Z.ltb_ge. right. split; [done|lia].
  - intros Hlt. left. by apply str_lt_trichotomy.
Qed.

Lemma key_le_trans (a b c : string * Z) : key_le a b → key_le b c → key_le a c.
Proof.
  unfold key_le. intros [Hab|[Hab1 Hab2]] [Hbc|[Hbc1 Hbc2]].
  - left. by eapply str_lt_trans.
  - left. by rewrite <- Hbc1.
  - left. by rewrite Hab1.
  - right. split; [congruence|lia].
Qed.

Lemma Sorted_impl {A} (R1 R2 : A → A → Prop) (l : list A) :
  (∀ x y, R1 x y → R2 x y) → Sorted R1 l → Sorted R2 l.
Proof.
  intros Himpl. induction 1 as [|x l Hs IH Hhd]; constructor; [done|].
  destruct Hhd; constructor. by apply Himpl.
Qed.

(** [sorted] on strings: ascending, and strictly so without
    duplicates. *)
Lemma sorted_strings (l : list string) :
  NoDup l →
  NoDup (sorted String.ltb id l) ∧ StronglySorted str_lt (sorted String.ltb id l).
Proof.
  intros Hnd.
  assert (Hnd' : NoDup (sorted String.ltb id l)).
  { by rewrite (sorted_Permutation String.ltb id l). }
  split; [done|].
  pose proof (Sorted_sorted String.ltb id str_lt_asym l) as Hs.
  apply (Sorted_impl _ (fun a b => String.leb a b = true)) in Hs.
  2:{ intros x y. unfold not_after. apply ltb_false_leb. }
  apply Sorted_StronglySorted in Hs.
  2:{ intros a b c. apply str_le_trans. }
  revert Hs Hnd'. generalize (sorted String.ltb id l). clear.
  induction 1 as [|x l Hs IH Hall]; intros Hnd; constructor.
  - apply IH. by apply NoDup_cons in Hnd as [_ ?].
  - apply NoDup_cons in Hnd as [Hx _].
    rewrite Forall_forall in Hall |- *. intros y Hy.
    apply ltb_leb_ne. split; [by apply Hall|]. by intros ->.
Qed.

(** [sorted] on integers: the same elements. *)
Lemma elem_of_sorted {A K} (ltb : K → K → bool) (key : A → K) (l : list A) (x : A) :
  x ∈ sorted ltb key l ↔ x ∈ l.
Proof. by rewrite (sorted_Permutation ltb key l). Qed.

(* ===================================================================== *)
(** ** The pipeline *)
(* ===================================================================== *)

Lemma elem_of_owners_merge_all (pairs : list (string * list Z))
    (m : gmap Z (gset string)) (g : Z) (v : string) :
  v ∈ owners_of (merge_all pairs m) g
  ↔ v ∈ owners_of m g ∨ ∃ ids, (v, ids) ∈ pairs ∧ g ∈ ids.
Proof.
  revert m. induction pairs as [|[u ids] pairs IH]; intros m.
  - simpl. split; [by left|]. intros [?|(ids & Hin & _)]; [done|].
    by apply not_elem_of_nil in Hin.
  - unfold merge_all in *. cbn [foldl fst snd]. rewrite IH, owners_of_merge.
    rewrite elem_of_union. split.
    + intros [[Hm|Hu]|(ids' & Hin & Hg)].
      * by left.
      * right. destruct (decide (g ∈ ids)); [|set_solver].
        apply elem_of_singleton in Hu as ->. exists ids. split; [left|done].
      * right. exists ids'. split; [by right|done].
    + intros [Hm|(ids' & Hin & Hg)]; [by left; left|].
      apply elem_of_cons in Hin as [[= -> ->]|Hin].
      * left. right. rewrite decide_True by done. by apply elem_of_singleton.
      * right. by exists ids'.
Qed.

Lemma elem_of_dom_merge_all (pairs : list (string * list Z))
    (m : gmap Z (gset string)) (g : Z) :
  g ∈ dom (merge_all pairs m)
  ↔ g ∈ dom m ∨ ∃ u ids, (u, ids) ∈ pairs ∧ g ∈ ids.
Proof.
  revert m. induction pairs as [|[u ids] pairs IH]; intros m.
  - simpl. split; [by left|]. intros [?|(u & ids & Hin & _)]; [done|].
    by apply not_elem_of_nil in Hin.
  - unfold merge_all in *. cbn [foldl fst snd]. rewrite IH, dom_merge.
    rewrite elem_of_union, elem_of_list_to_set. split.
    + intros [[Hm|Hg]|(u' & ids' & Hin & Hg)].
      * by left.
      * right. exists u, ids. split; [left|done].
      * right. exists u', ids'. split; [by right|done].
    + intros [Hm|(u' & ids' & Hin & Hg)]; [by left; left|].
      apply elem_of_cons in Hin as [[= -> ->]|Hin].
      * by left; right.
      * right. by exists u', ids'.
Qed.

(** The loop over the users merges exactly the lists it fetches. *)
Lemma fetch_all_run (fromstring : string → option element)
    (bgg_users : list string) (token : string) :
  ∀ (m m' : gmap Z (gset string)) (w w' : World),
    fetch_all fromstring bgg_users token m w = (Ok m', w') →
    (fetched fromstring bgg_users token w).*1 = bgg_users
    ∧ m' = merge_all (fetched fromstring bgg_users token w) m.
Proof.
  induction bgg_users as [|u users IH]; intros m m' w w' Hrun.
  - by injection Hrun as <- <-.
  - cbn [fetch_all fetched] in *. unfold bind at 1 in Hrun.
    destruct (fetch_owned_game_ids_for_user fromstring u token w) as [[ids|e] w1]; [|done].
    unfold bind at 1, sleep in Hrun.
    apply IH in Hrun as [Husers ->]. by rewrite fmap_cons, Husers.
Qed.

Lemma assemble_run (all_ids : list Z) (id_to_name : gmap Z string)
    (game_to_owners : gmap Z (gset string)) (games_out : list game) :
  (∀ gid, gid ∈ all_ids → gid ∈ dom game_to_owners) →
  assemble all_ids id_to_name game_to_owners games_out
  = Ok (games_out ++ omap (record_of id_to_name game_to_owners) all_ids).
Proof.
  revert games_out. induction all_ids as [|gid ids IH]; intros games_out Hdom.
  - simpl. by rewrite app_nil_r.
  - assert (Hrest : ∀ acc, assemble ids id_to_name game_to_owners acc
                           = Ok (acc ++ omap (record_of id_to_name game_to_owners) ids)).
    { intros acc. apply IH. intros g Hg. apply Hdom. by right. }
    cbn [assemble omap list_omap]. unfold record_of at 1.
    destruct (id_to_name !! gid) as [name|]; [|apply Hrest].
    destruct (truthy name); [|apply Hrest].
    assert (Hgid : gid ∈ dom game_to_owners) by (apply Hdom; left).
    apply elem_of_dom in Hgid as [owners Howners].
    unfold subscript, owners_of. rewrite Howners. simpl.
    by rewrite Hrest, <- app_assoc.
Qed.

Lemma assemble_Ok (all_ids : list Z) (id_to_name : gmap Z string)
    (game_to_owners : gmap Z (gset string)) (acc games_out : list game) :
  assemble all_ids id_to_name game_to_owners acc = Ok games_out →
  games_out = acc ++ omap (record_of id_to_name game_to_owners) all_ids.
Proof.
  revert acc. induction all_ids as [|gid ids IH]; intros acc Hrun.
  - simpl in *. injection Hrun as <-. by rewrite app_nil_r.
  - cbn [assemble omap list_omap] in *. unfold record_of at 1.
    destruct (id_to_name !! gid) as [name|]; [|by apply IH].
    destruct (truthy name); [|by apply IH].
    unfold subscript, owners_of in *.
    destruct (game_to_owners !! gid) as [owners|]; [|done]. simpl.
    apply IH in Hrun as ->. by rewrite <- app_assoc.
Qed.

(** What a successful run of [build_games] went through. *)
Lemma build_games_run (fromstring : string → option element)
    (casefold : string → string) (bgg_users : list string) (token : string)
    (w w' : World) (games : list game) :
  build_games fromstring casefold bgg_users token w = (Ok games, w') →
  ∃ (w1 : World) (id_to_name : gmap Z string),
    let pairs := fetched fromstring bgg_users token w in
    let game_to_owners := merge_all pairs ∅ in
    let all_ids := sorted Z.ltb id (elements (dom game_to_owners)) in
    pairs.*1 = bgg_users
    ∧ fetch_all fromstring bgg_users token ∅ w = (Ok game_to_owners, w1)
    ∧ fetch_primary_names fromstring all_ids token 20 w1 = (Ok id_to_name, w')
    ∧ games = sorted key_ltb (sort_key casefold)
                (omap (record_of id_to_name game_to_owners) all_ids).
Proof.
  unfold build_games. unfold bind at 1.
  destruct (fetch_all fromstring bgg_users token ∅ w) as [[m|e] w1] eqn:Hfetch; [|done].
  unfold bind at 1.
  destruct (fetch_primary_names _ _ _ _ w1) as [[names|e] w2] eqn:Hnames; [|done].
  unfold bind at 1, lift.
  destruct (assemble _ _ _ _) as [games_out|e] eqn:Hasm; [|done].
  intros [= <- <-].
  apply fetch_all_run in Hfetch as Hrun. destruct Hrun as [Husers ->].
  apply assemble_Ok in Hasm as ->.
  exists w1, names. simpl. done.
Qed.

Lemma record_of_Some (id_to_name : gmap Z string) (game_to_owners : gmap Z (gset string))
    (gid : Z) (r : game) :
  record_of id_to_name game_to_owners gid = Some r ↔
  game_id r = gid
  ∧ id_to_name !! gid = Some (game_name r)
  ∧ game_name r ≠ EmptyString
  ∧ game_owners r = sorted String.ltb id (elements (owners_of game_to_owners gid)).
Proof.
  unfold record_of. split.
  - destruct (id_to_name !! gid) as [name|]; [|done].
    destruct (truthy name) eqn:Ht; [|done]. intros [= <-]. simpl.
    by apply truthy_nonempty in Ht.
  - destruct r as [gid' name owners]. simpl. intros (-> & -> & Hne & ->).
    apply truthy_nonempty in Hne. by rewrite Hne.
Qed.

Lemma elem_of_all_ids (game_to_owners : gmap Z (gset string)) (gid : Z) :
  gid ∈ sorted Z.ltb id (elements (dom game_to_owners)) ↔ gid ∈ dom game_to_owners.
Proof. by rewrite elem_of_sorted, elem_of_elements. Qed.

(** The records of a successful run, one by one. *)
Lemma build_games_records (fromstring : string → option element)
    (casefold : string → string) (bgg_users : list string) (token : string)
    (w w' : World) (games : list game) :
  build_games fromstring casefold bgg_users token w = (Ok games, w') →
  ∃ (w1 : World) (id_to_name : gmap Z string),
    let game_to_owners := merge_all (fetched fromstring bgg_users token w) ∅ in
    fetch_all fromstring bgg_users token ∅ w = (Ok game_to_owners, w1)
    ∧ fetch_primary_names fromstring
        (sorted Z.ltb id (elements (dom game_to_owners))) token 20 w1
      = (Ok id_to_name, w')
    ∧ ∀ r, r ∈ games ↔
           game_id r ∈ dom game_to_owners
           ∧ record_of id_to_name game_to_owners (game_id r) = Some r.
Proof.
  intros Hrun. apply build_games_run in Hrun as (w1 & names & _ & Hfetch & Hnames & ->).
  exists w1, names. split; [done|]. split; [done|].
  intros r. rewrite elem_of_sorted, list_elem_of_omap. split.
  - intros (gid & Hgid%elem_of_all_ids & Hrec).
    pose proof Hrec as (Hid & _)%record_of_Some. by rewrite Hid.
  - intros [Hdom Hrec]. exists (game_id r). by rewrite elem_of_all_ids.
Qed.

(** C1. In a successful run, let the ownership map be what the loop
    over the users collected and the name mapping what
    [fetch_primary_names] returned for its ids.  An id without an entry
    in the name mapping, or with an empty name, has no record in the
    output; every record of the output has an id of the ownership map
    that resolved to the record's name, which is not empty; and every
    id of the ownership map that resolved to a non-empty name has a
    record. *)
Theorem build_games_drops_unresolved
    (fromstring : string → option element) (casefold : string → string)
    (bgg_users : list string) (token : string) (w w' : World) (games : list game) :
  build_games fromstring casefold bgg_users token w = (Ok games, w') →
  ∃ (game_to_owners : gmap Z (gset string)) (w1 : World) (id_to_name : gmap Z string),
    fetch_all fromstring bgg_users token ∅ w = (Ok game_to_owners, w1)
    ∧ fetch_primary_names fromstring
        (sorted Z.ltb id (elements (dom game_to_owners))) token 20 w1
      = (Ok id_to_name, w')
    ∧ (∀ gid, id_to_name !! gid = None ∨ id_to_name !! gid = Some EmptyString →
              ∀ r, r ∈ games → game_id r ≠ gid)
    ∧ (∀ r, r ∈ games →
            game_id r ∈ dom game_to_owners
            ∧ id_to_name !! game_id r = Some (game_name r)
            ∧ game_name r ≠ EmptyString)
    ∧ (∀ gid name, gid ∈ dom game_to_owners → id_to_name !! gid = Some name →
                   name ≠ EmptyString →
                   ∃ r, r ∈ games ∧ game_id r = gid ∧ game_name r = name).
Proof.
  intros Hrun. apply build_games_records in Hrun as (w1 & names & Hfetch & Hnames & Hrec).
  eexists _, w1, names. split; [exact Hfetch|]. split; [exact Hnames|].
  split; [|split].
  - intros gid Hnone r (_ & Hr%record_of_Some)%Hrec Hgid. subst gid.
    destruct Hr as (_ & Hname & Hne & _). destruct Hnone as [Hn|Hn]; congruence.
  - intros r (Hdom & Hr%record_of_Some)%Hrec. by destruct Hr as (_ & ? & ? & _).
  - intros gid name Hdom Hname Hne.
    eexists (Game gid name _). split; [|done].
    apply Hrec. split; [done|]. apply record_of_Some. simpl.
    split; [done|]. split; [done|]. split; [done|]. reflexivity.
Qed.

(** C2. The output of a successful run is sorted in ascending order of
    the keys made of the case-folded name and the id; the owners of
    every record are without duplicates and in strictly ascending
    order. *)
Theorem build_games_sorted
    (fromstring : string → option element) (casefold : string → string)
    (bgg_users : list string) (token : string) (w w' : World) (games : list game) :
  build_games fromstring casefold bgg_users token w = (Ok games, w') →
  StronglySorted (game_le casefold) games
  ∧ ∀ r, r ∈ games →
         NoDup (game_owners r) ∧ StronglySorted str_lt (game_owners r).
Proof.
  intros Hrun. split.
  - apply build_games_run in Hrun as (_ & names & _ & _ & _ & ->).
    apply Sorted_StronglySorted.
    { intros a b c. apply key_le_trans. }
    eapply Sorted_impl; [|apply Sorted_sorted, key_ltb_asym].
    intros x y. apply key_ltb_false_le.
  - apply build_games_records in Hrun as (w1 & names & _ & _ & Hrec).
    intros r (_ & Hr%record_of_Some)%Hrec. destruct Hr as (_ & _ & _ & ->).
    apply sorted_strings, NoDup_elements.
Qed.

(** C10. In a successful run every record has at least one owner, and
    the owners of a record are exactly the users for whom the loop
    fetched an id list that contains the record's id; the users of the
    fetched lists are the given users, in order. *)
Theorem build_games_owners
    (fromstring : string → option element) (casefold : string → string)
    (bgg_users : list string) (token : string) (w w' : World) (games : list game) :
  build_games fromstring casefold bgg_users token w = (Ok games, w') →
  (fetched fromstring bgg_users token w).*1 = bgg_users
  ∧ ∀ r, r ∈ games →
         game_owners r ≠ []
         ∧ ∀ u, u ∈ game_owners r ↔
                u ∈ bgg_users
                ∧ ∃ ids, (u, ids) ∈ fetched fromstring bgg_users token w
                         ∧ game_id r ∈ ids.
Proof.
  intros Hrun. pose proof Hrun as (_ & _ & Husers & _)%build_games_run.
  split; [done|].
  apply build_games_records in Hrun as (w1 & names & _ & _ & Hrec).
  intros r (Hdom & Hr%record_of_Some)%Hrec. destruct Hr as (_ & _ & _ & Howners).
  assert (Hmem : ∀ u, u ∈ game_owners r ↔
            u ∈ bgg_users
            ∧ ∃ ids, (u, ids) ∈ fetched fromstring bgg_users token w ∧ game_id r ∈ ids).
  { intros u. rewrite Howners, elem_of_sorted, elem_of_elements.
    rewrite elem_of_owners_merge_all. split.
    - intros [Hempty|(ids & Hin & Hid)]; [by unfold owners_of in Hempty|].
      split; [|by exists ids]. rewrite <- Husers.
      apply list_elem_of_fmap. by exists (u, ids).
    - intros (_ & ids & Hin & Hid). right. by exists ids. }
  split; [|done].
  apply elem_of_dom_merge_all in Hdom as [Hempty|(u & ids & Hin & Hid)].
  { by rewrite dom_empty_L in Hempty. }
  intros Hnil. assert (Hu : u ∈ game_owners r).
  { apply Hmem. split; [|by exists ids]. rewrite <- Husers.
    apply list_elem_of_fmap. by exists (u, ids). }
  rewrite Hnil in Hu. by apply not_elem_of_nil in Hu.
Qed.

(** [main] exits with 0 exactly after writing the output of
    [build_games]. *)
Lemma main_run (unicode_escape : string → option string)
    (fromstring : string → option element) (casefold : string → string)
    (BGG_TOKEN users_js : option string) (w w' : World) :
  main unicode_escape fromstring casefold BGG_TOKEN users_js w = (Ok 0, w') →
  ∃ token txt bgg_users games w1,
    BGG_TOKEN = Some token ∧ token ≠ EmptyString
    ∧ users_js = Some txt
    ∧ parse_bgg_usernames_from_users_js unicode_escape txt = Ok bgg_users
    ∧ bgg_users ≠ []
    ∧ build_games fromstring casefold bgg_users token w = (Ok games, w1)
    ∧ trace w' = trace w1
    ∧ games_js w' = Some (join (chr LF) (games_js_lines (today w1) games)).
Proof.
  unfold main. destruct BGG_TOKEN as [token|]; [|done].
  destruct (truthy token) eqn:Htok; cbn [negb]; [|done].
  destruct users_js as [txt|]; [|done].
  unfold bind at 1, lift.
  destruct (parse_bgg_usernames_from_users_js unicode_escape txt) as [users|e] eqn:Hparse;
    [|done].
  destruct users as [|u users]; [done|].
  unfold bind at 1.
  destruct (build_games fromstring casefold (u :: users) token w) as [[games|e] w1] eqn:Hb;
    [|done].
  unfold bind at 1. rewrite write_games_js_run. unfold ret. intros [= <-].
  exists token, txt, (u :: users), games, w1. simpl.
  apply truthy_nonempty in Htok. done.
Qed.

(** *** The sample run *)

(** The same record written on two days: the first lines agree, the
    record's line shows the escaped name, which reads back. *)
Lemma write_games_js_deterministic_escaped_witness :
  games_js_lines (today sample_world) [quirky_game] !! 0%nat
  = games_js_lines (today next_day_world) [quirky_game] !! 0%nat
  ∧ games_js_lines (today sample_world) [quirky_game] !! 5%nat
    = Some ("  { id: 7, name: " +:+ quoted (game_name quirky_game)
            +:+ ", owners: [" +:+ quoted "amy" +:+ "] },")
  ∧ read_js_string (quoted (game_name quirky_game) +:+ ", owners")
    = Some (game_name quirky_game, ", owners"%string).
Proof.
  destruct (write_games_js_deterministic_escaped [quirky_game] sample_world next_day_world)
    as (_ & _ & _ & _ & _ & Hsame & _ & _ & Hline & _ & Hread).
  split; [apply Hsame; discriminate|].
  split; [apply (Hline 0%nat quirky_game); reflexivity|].
  apply Hread.
Defined.

Lemma build_games_drops_unresolved_witness :
  ∃ games w',
    build_games sample_docs ascii_casefold ["amy"; "bo"]%string "tok" sample_world
    = (Ok games, w')
    ∧ games = sample_games
    ∧ ∃ (game_to_owners : gmap Z (gset string)) (w1 : World) (id_to_name : gmap Z string),
        fetch_all sample_docs ["amy"; "bo"]%string "tok" ∅ sample_world
        = (Ok game_to_owners, w1)
        ∧ fetch_primary_names sample_docs
            (sorted Z.ltb id (elements (dom game_to_owners))) "tok" 20 w1
          = (Ok id_to_name, w')
        ∧ (∀ gid, id_to_name !! gid = None ∨ id_to_name !! gid = Some EmptyString →
                  ∀ r, r ∈ games → game_id r ≠ gid)
        ∧ (∀ r, r ∈ games →
                game_id r ∈ dom game_to_owners
                ∧ id_to_name !! game_id r = Some (game_name r)
                ∧ game_name r ≠ EmptyString)
        ∧ (∀ gid name, gid ∈ dom game_to_owners → id_to_name !! gid = Some name →
                       name ≠ EmptyString →
                       ∃ r, r ∈ games ∧ game_id r = gid ∧ game_name r = name).
Proof.
  destruct (build_games sample_docs ascii_casefold ["amy"; "bo"]%string "tok" sample_world)
    as [[games|e] w'] eqn:Hrun.
  - exists games, w'. split; [reflexivity|]. split.
    + pose proof Hrun as Hval. vm_compute in Hval. injection Hval as <- _. reflexivity.
    + exact (build_games_drops_unresolved _ _ _ _ _ _ _ Hrun).
  - vm_compute in Hrun. discriminate Hrun.
Defined.

Lemma build_games_sorted_witness :
  ∃ games w',
    build_games sample_docs ascii_casefold ["amy"; "bo"]%string "tok" sample_world
    = (Ok games, w')
    ∧ games = sample_games
    ∧ StronglySorted (game_le ascii_casefold) games
    ∧ ∀ r, r ∈ games →
           NoDup (game_owners r) ∧ StronglySorted str_lt (game_owners r).
Proof.
  destruct (build_games sample_docs ascii_casefold ["amy"; "bo"]%string "tok" sample_world)
    as [[games|e] w'] eqn:Hrun.
  - exists games, w'. split; [reflexivity|]. split.
    + pose proof Hrun as Hval. vm_compute in Hval. injection Hval as <- _. reflexivity.
    + exact (build_games_sorted _ _ _ _ _ _ _ Hrun).
  - vm_compute in Hrun. discriminate Hrun.
Defined.

Lemma build_games_owners_witness :
  ∃ games w',
    build_games sample_docs ascii_casefold ["amy"; "bo"]%string "tok" sample_world
    = (Ok games, w')
    ∧ games = sample_games
    ∧ fetched sample_docs ["amy"; "bo"]%string "tok" sample_world
      = [("amy"%string, [10; 20; 30]); ("bo"%string, [20])]
    ∧ ∀ r, r ∈ games →
           game_owners r ≠ []
           ∧ ∀ u, u ∈ game_owners r ↔
                  u ∈ ["amy"; "bo"]%string
                  ∧ ∃ ids, (u, ids) ∈ fetched sample_docs ["amy"; "bo"]%string "tok"
                                        sample_world
                           ∧ game_id r ∈ ids.
Proof.
  destruct (build_games sample_docs ascii_casefold ["amy"; "bo"]%string "tok" sample_world)
    as [[games|e] w'] eqn:Hrun.
  - exists games, w'. split; [reflexivity|]. split.
    + pose proof Hrun as Hval. vm_compute in Hval. injection Hval as <- _. reflexivity.
    + split; [vm_compute; reflexivity|].
      exact (proj2 (build_games_owners _ _ _ _ _ _ _ Hrun)).
  - vm_compute in Hrun. discriminate Hrun.
Defined.

(* ===================================================================== *)
(** ** Scenarios of the design document *)
(* ===================================================================== *)

(** A collection that is not ready twice and then holds the id 5:
    three requests, and the list with 5. *)
Example scenario_not_ready_twice :
  (fetch_owned_game_ids_for_user five_docs "amy" "tok" twice_not_ready_world).1 = Ok [5]
  ∧ requests_made
      (fetch_owned_game_ids_for_user five_docs "amy" "tok" twice_not_ready_world).2
    = 3%nat.
Proof. split; vm_compute; reflexivity. Qed.

(** Amy owns 10, 20 and 30, bo owns 20, and 30 resolves to no name:
    [main] exits with 0 and writes the two resolved games, catan before
    Wingspan, with their owners; 30 is absent. *)
Example scenario_main :
  (main simple_unicode_escape sample_docs ascii_casefold
     (Some "tok"%string) (Some "const users = { 'amy': 'Amy', 'bo': 'Bo' }"%string)
     sample_world).1 = Ok 0
  ∧ games_js
      (main simple_unicode_escape sample_docs ascii_casefold
         (Some "tok"%string) (Some "const users = { 'amy': 'Amy', 'bo': 'Bo' }"%string)
         sample_world).2
    = Some (join (chr LF) (games_js_lines "2024-01-01" sample_games)).
Proof. split; vm_compute; reflexivity. Qed.

(** Without a token, without the file or without users, [main] exits
    with 2 and neither asks the transport nor writes the file. *)
Example scenario_configuration_errors :
  main simple_unicode_escape sample_docs ascii_casefold None (Some sample_users_js)
    sample_world = (Ok 2, sample_world)
  ∧ main simple_unicode_escape sample_docs ascii_casefold (Some "tok"%string) None
      sample_world = (Ok 2, sample_world)
  ∧ main simple_unicode_escape sample_docs ascii_casefold (Some "tok"%string)
      (Some "const users = {}"%string) sample_world = (Ok 2, sample_world).
Proof. repeat split. Qed.

(* ===================================================================== *)
(** * Further properties of the script *)
(* ===================================================================== *)

(** ** What the calls do to the world *)

Lemma extends_refl (P : event → Prop) (w : World) : extends P w w.
Proof. exists []. by rewrite app_nil_r. Qed.

Lemma extends_trans (P : event → Prop) (w1 w2 w3 : World) :
  extends P w1 w2 → extends P w2 w3 → extends P w1 w3.
Proof.
  intros (e1 & Ht1 & Hp1 & Hs1 & Hd1 & Hg1) (e2 & Ht2 & Hp2 & Hs2 & Hd2 & Hg2).
  exists (e1 ++ e2). rewrite Ht2, Ht1, <- app_assoc.
  split; [done|]. split; [by apply Forall_app|]. split; [congruence|].
  split; congruence.
Qed.

Lemma extends_log (P : event → Prop) (e : event) (w : World) :
  P e → extends P w (log e w).
Proof. intros He. exists [e]. repeat split; by repeat constructor. Qed.

Lemma extends_mono (P Q : event → Prop) (w w' : World) :
  (∀ e, P e → Q e) → extends P w w' → extends Q w w'.
Proof.
  intros Himpl (evs & Ht & Hp & Hrest). exists evs. split; [done|].
  split; [|done]. eapply Forall_impl; [exact Hp|exact Himpl].
Qed.

Lemma retry_events_http (req : request) (backoff : Z) (rs : list response) :
  Forall (http_event req backoff) (retry_events req backoff rs).
Proof. induction rs as [|r rs IH]; simpl; repeat constructor; done. Qed.

(** Whatever the transport does and however the call ends. *)
Lemma attempts_extends (req : request) (max_attempts backoff : Z) (n : nat)
    (last : option Z) (w w' : World) (r : result string) :
  attempts req max_attempts backoff n last w = (r, w') →
  extends (http_event req backoff) w w'
  ∧ (requests_made w' ≤ requests_made w + n)%nat
  ∧ (n ≠ O → requests_made w < requests_made w')%nat
  ∧ (sleeps_made w' - sleeps_made w ≤ requests_made w' - requests_made w)%nat.
Proof.
  intros Hrun.
  destruct (attempts_run _ _ _ _ _ _ _ _ Hrun)
    as (rs & Hall & _ & Hs & Hd & Hg & [(Hlen & Htr & _)|(Hlen & _ & Htr & _)]).
  - split; [exists (retry_events req backoff rs);
            by repeat split; try apply retry_events_http|].
    rewrite (requests_made_app _ _ _ Htr), (sleeps_made_app _ _ _ Htr).
    rewrite gets_retry_events, sleeps_retry_events. lia.
  - split.
    { eexists. split; [exact Htr|]. split; [|done].
      apply Forall_app. split; [apply retry_events_http|by repeat constructor]. }
    rewrite (requests_made_app _ _ _ Htr), (sleeps_made_app _ _ _ Htr).
    rewrite !filter_app, !length_app, gets_retry_events, sleeps_retry_events.
    simpl. lia.
Qed.

(** X1. Whatever the transport answers and however the call ends,
    [http_get_xml_text] issues at most [max_attempts] requests, and at
    least one when [max_attempts] is positive; it never sleeps more
    often than it requests; all it does is send its one request and
    sleep its back-off time; it leaves the output file alone. *)
Theorem http_get_xml_text_bounded
    (url token : string) (params : list (string * param))
    (timeout max_attempts backoff : Z) (user_agent : string)
    (w w' : World) (r : result string) :
  http_get_xml_text url token params timeout max_attempts backoff user_agent w = (r, w') →
  extends (http_event (request_for url token params timeout user_agent) backoff) w w'
  ∧ Z.of_nat (requests_made w' - requests_made w) ≤ Z.max 0 max_attempts
  ∧ (0 < max_attempts → (requests_made w < requests_made w')%nat)
  ∧ (sleeps_made w' - sleeps_made w ≤ requests_made w' - requests_made w)%nat.
Proof.
  unfold http_get_xml_text. fold (request_for url token params timeout user_agent).
  intros (Hext & Hle & Hpos & Hsl)%attempts_extends.
  split; [done|]. split; [lia|]. split; [|done]. intros Hmax. apply Hpos. lia.
Qed.

Lemma http_get_xml_text_bounded_witness :
  ∃ w',
    extends (http_event (request_for BGG_THING_URL "tok" (thing_params [10; 20])
                           DEFAULT_TIMEOUT DEFAULT_USER_AGENT) DEFAULT_BACKOFF_MS)
      not_found_world w'
    ∧ Z.of_nat (requests_made w' - requests_made not_found_world) ≤ 25.
Proof.
  destruct (http_get_xml_text BGG_THING_URL "tok" (thing_params [10; 20])
              DEFAULT_TIMEOUT DEFAULT_MAX_ATTEMPTS DEFAULT_BACKOFF_MS DEFAULT_USER_AGENT
              not_found_world) as [r w'] eqn:Hrun.
  destruct (http_get_xml_text_bounded _ _ _ _ _ _ _ _ _ _ Hrun) as (Hext & Hle & _).
  exists w'. split; [exact Hext|exact Hle].
Defined.

(** X2. An exception of the transport is not retried: when
    [requests.get] raises after [k] not-ready answers, with [k] below
    the bound, [http_get_xml_text] raises that exception after [k + 1]
    requests and [k] sleeps. *)
Theorem http_get_xml_text_transport_error
    (url token : string) (params : list (string * param))
    (timeout max_attempts backoff : Z) (user_agent : string) (w : World)
    (k : nat) (e : exn) :
  let req := request_for url token params timeout user_agent in
  Z.of_nat k < max_attempts →
  (∀ j, (j < k)%nat → is_not_ready (server w (requests_made w + j)%nat req) = true) →
  server w (requests_made w + k)%nat req = Raise e →
  ∃ w',
    http_get_xml_text url token params timeout max_attempts backoff user_agent w
    = (Raise e, w')
    ∧ requests_made w' = (requests_made w + k + 1)%nat
    ∧ sleeps_made w' = (sleeps_made w + k)%nat.
Proof.
  intros req Hk Hnr Hans.
  destruct (attempts_decided req max_attempts backoff (Z.to_nat max_attempts) k None w)
    as (w' & rs & Hrun & Hlen & Hall & Htr); [lia|done|by rewrite Hans|].
  rewrite Hans in Hrun, Htr. exists w'. split; [|split].
  - unfold http_get_xml_text. fold (request_for url token params timeout user_agent).
    fold req. by rewrite Hrun.
  - rewrite (requests_made_app _ _ _ Htr), filter_app, length_app, gets_retry_events.
    simpl. lia.
  - rewrite (sleeps_made_app _ _ _ Htr), filter_app, length_app, sleeps_retry_events.
    simpl. lia.
Qed.

(** One not-ready answer, then the connection breaks. *)
Lemma http_get_xml_text_transport_error_witness :
  ∃ w',
    http_get_xml_text BGG_COLLECTION_URL "tok" (collection_params "amy")
      DEFAULT_TIMEOUT DEFAULT_MAX_ATTEMPTS DEFAULT_BACKOFF_MS DEFAULT_USER_AGENT
      broken_world
    = (Raise (RequestException "connection reset"), w')
    ∧ requests_made w' = 2%nat ∧ sleeps_made w' = 1%nat.
Proof.
  destruct (http_get_xml_text_transport_error BGG_COLLECTION_URL "tok"
              (collection_params "amy") DEFAULT_TIMEOUT DEFAULT_MAX_ATTEMPTS
              DEFAULT_BACKOFF_MS DEFAULT_USER_AGENT broken_world 1%nat
              (RequestException "connection reset")) as (w' & Hrun & Hreq & Hsl).
  - reflexivity.
  - intros [|j] Hj; [reflexivity|lia].
  - reflexivity.
  - exists w'. split; [exact Hrun|]. split; [exact Hreq|exact Hsl].
Defined.

(** ** The requests of the pipeline *)

Lemma pipeline_event_weaken (u : string) (bgg_users : list string) (token : string)
    (e : event) :
  pipeline_event bgg_users token e → pipeline_event (u :: bgg_users) token e.
Proof.
  destruct e as [req a|ms]; simpl; [|done].
  intros [(v & Hv & ->)|Hch]; [left|by right]. exists v. split; [by right|done].
Qed.

Lemma fetch_owned_extends (fromstring : string → option element) (username token : string)
    (w w' : World) (r : result (list Z)) :
  fetch_owned_game_ids_for_user fromstring username token w = (r, w') →
  extends (http_event (collection_request token username) DEFAULT_BACKOFF_MS) w w'.
Proof.
  unfold fetch_owned_game_ids_for_user, bind at 1.
  destruct (http_get_xml_text _ _ _ _ _ _ _ w) as [[xml_text|e] w1] eqn:Hhttp;
    apply http_get_xml_text_bounded in Hhttp as [Hext _].
  - unfold bind at 1, parse_xml.
    destruct (fromstring xml_text) as [root|]; [|by intros [= _ <-]].
    unfold ret at 1, bind at 1, lift.
    destruct (owned_ids _ _); by intros [= _ <-].
  - by intros [= _ <-].
Qed.

Lemma fetch_all_extends (fromstring : string → option element) (bgg_users : list string)
    (token : string) :
  ∀ (m : gmap Z (gset string)) (w w' : World) (r : result (gmap Z (gset string))),
    fetch_all fromstring bgg_users token m w = (r, w') →
    extends (pipeline_event bgg_users token) w w'.
Proof.
  induction bgg_users as [|u users IH]; intros m w w' r Hrun.
  - injection Hrun as _ <-. apply extends_refl.
  - cbn [fetch_all] in Hrun. unfold bind at 1 in Hrun.
    destruct (fetch_owned_game_ids_for_user fromstring u token w) as [[ids|e] w1] eqn:Hf;
      apply fetch_owned_extends in Hf.
    + unfold bind at 1, sleep in Hrun. apply IH in Hrun.
      eapply extends_trans; [|eapply extends_trans].
      * eapply extends_mono; [|exact Hf].
        intros [req a|ms]; simpl; [|by left].
        intros ->. left. exists u. split; [left|done].
      * apply (extends_log _ (EvSleep 300)). simpl. by right; left.
      * eapply extends_mono; [|exact Hrun]. apply pipeline_event_weaken.
    + injection Hrun as _ <-. eapply extends_mono; [|exact Hf].
      intros [req a|ms]; simpl; [|by left].
      intros ->. left. exists u. split; [left|done].
Qed.

Lemma fetch_chunks_extends (fromstring : string → option element) (bgg_users : list string)
    (chunks : list (list Z)) (token : string) :
  ∀ (out : gmap Z string) (w w' : World) (r : result (gmap Z string)),
    fetch_chunks fromstring chunks token out w = (r, w') →
    extends (pipeline_event bgg_users token) w w'.
Proof.
  induction chunks as [|ch chunks IH]; intros out w w' r Hrun.
  - injection Hrun as _ <-. apply extends_refl.
  - cbn [fetch_chunks] in Hrun. unfold bind at 1 in Hrun.
    destruct (http_get_xml_text _ _ _ _ _ _ _ w) as [[xml_text|e] w1] eqn:Hhttp;
      apply http_get_xml_text_bounded in Hhttp as [Hext _].
    + assert (Hw1 : extends (pipeline_event bgg_users token) w w1).
      { eapply extends_mono; [|exact Hext].
        intros [req a|ms]; simpl; [|by left]. intros ->. right. by exists ch. }
      unfold bind at 1, parse_xml in Hrun.
      destruct (fromstring xml_text) as [root|]; [|by injection Hrun as _ <-].
      unfold ret at 1, bind at 1, lift in Hrun.
      destruct (names_of_items _ _) as [out1|e]; [|by injection Hrun as _ <-].
      unfold bind at 1, sleep in Hrun. apply IH in Hrun.
      eapply extends_trans; [exact Hw1|]. eapply extends_trans; [|exact Hrun].
      apply (extends_log _ (EvSleep 200)). simpl. by right; right.
    + injection Hrun as _ <-. eapply extends_mono; [|exact Hext].
      intros [req a|ms]; simpl; [|by left]. intros ->. right. by exists ch.
Qed.

Lemma fetch_primary_names_extends (fromstring : string → option element)
    (bgg_users : list string) (ids : list Z) (token : string) (chunk_size : Z)
    (w w' : World) (r : result (gmap Z string)) :
  fetch_primary_names fromstring ids token chunk_size w = (r, w') →
  extends (pipeline_event bgg_users token) w w'.
Proof.
  unfold fetch_primary_names, bind at 1, lift.
  destruct (chunked ids chunk_size) as [chunks|e].
  - apply fetch_chunks_extends.
  - intros [= _ <-]. apply extends_refl.
Qed.

Lemma build_games_extends (fromstring : string → option element)
    (casefold : string → string) (bgg_users : list string) (token : string)
    (w w' : World) (r : result (list game)) :
  build_games fromstring casefold bgg_users token w = (r, w') →
  extends (pipeline_event bgg_users token) w w'.
Proof.
  unfold build_games, bind at 1.
  destruct (fetch_all fromstring bgg_users token ∅ w) as [[m|e] w1] eqn:Hf;
    apply fetch_all_extends in Hf; [|by intros [= _ <-]].
  unfold bind at 1.
  destruct (fetch_primary_names _ _ _ _ w1) as [[names|e] w2] eqn:Hn;
    apply (fetch_primary_names_extends _ bgg_users) in Hn; [|intros [= _ <-]].
  - unfold bind at 1, lift. destruct (assemble _ _ _ _); intros [= _ <-];
      by eapply extends_trans.
  - by eapply extends_trans.
Qed.

(** ** The exit status and the output file *)

(** X3. Whatever the transport does and however [main] ends, every
    request it makes is a collection request for one of the parsed
    user names or a lookup request for a batch of ids, each to its BGG
    address and with the bearer token, and every pause is one of the
    three fixed ones; the transport and the date are not changed. *)
Theorem main_requests_only_bgg
    (unicode_escape : string → option string) (fromstring : string → option element)
    (casefold : string → string) (token txt : string) (bgg_users : list string)
    (w w' : World) (r : result Z) :
  parse_bgg_usernames_from_users_js unicode_escape txt = Ok bgg_users →
  main unicode_escape fromstring casefold (Some token) (Some txt) w = (r, w') →
  ∃ evs, trace w' = trace w ++ evs
         ∧ Forall (pipeline_event bgg_users token) evs
         ∧ server w' = server w ∧ today w' = today w.
Proof.
  intros Hparse. unfold main. rewrite Hparse.
  destruct (truthy token); cbn [negb].
  2:{ intros [= _ <-]. exists []. by rewrite app_nil_r. }
  unfold bind at 1, lift. destruct bgg_users as [|u users].
  { intros [= _ <-]. exists []. by rewrite app_nil_r. }
  unfold bind at 1.
  destruct (build_games fromstring casefold (u :: users) token w) as [[games|e] w1] eqn:Hb;
    apply build_games_extends in Hb as (evs & Htr & Hall & Hs & Hd & _).
  - unfold bind at 1. rewrite write_games_js_run. unfold ret. intros [= _ <-].
    by exists evs.
  - intros [= _ <-]. by exists evs.
Qed.

(** X4. [main] ends with the exit status 0 or 2 or with an exception,
    and unless it ends with 0 the output file is what it was before:
    nothing is written on failure. *)
Theorem main_no_partial_output
    (unicode_escape : string → option string) (fromstring : string → option element)
    (casefold : string → string) (BGG_TOKEN users_js : option string)
    (w w' : World) (r : result Z) :
  main unicode_escape fromstring casefold BGG_TOKEN users_js w = (r, w') →
  (∀ n, r = Ok n → n = 0 ∨ n = 2)
  ∧ (r ≠ Ok 0 → games_js w' = games_js w)
  ∧ (r = Ok 0 → is_Some (games_js w')).
Proof.
  unfold main. destruct BGG_TOKEN as [token|].
  2:{ intros [= <- <-]. split; [intros n [= <-]; by right|done]. }
  destruct (truthy token); cbn [negb].
  2:{ intros [= <- <-]. split; [intros n [= <-]; by right|done]. }
  destruct users_js as [txt|].
  2:{ intros [= <- <-]. split; [intros n [= <-]; by right|done]. }
  unfold bind at 1, lift.
  destruct (parse_bgg_usernames_from_users_js unicode_escape txt) as [users|e].
  2:{ intros [= <- <-]. done. }
  destruct users as [|u users].
  { intros [= <- <-]. split; [intros n [= <-]; by right|done]. }
  unfold bind at 1.
  destruct (build_games fromstring casefold (u :: users) token w) as [[games|e] w1] eqn:Hb;
    apply build_games_extends in Hb as (evs & _ & _ & _ & _ & Hg).
  - unfold bind at 1. rewrite write_games_js_run. unfold ret. intros [= <- <-].
    split; [intros n [= <-]; by left|]. split; [done|]. intros _. by eexists.
  - intros [= <- <-]. done.
Qed.

(** X5. [main] ends with the exit status 2 exactly on a configuration
    error, that is, without a token or with an empty one, without
    users.js, or with a users.js that has no user names; it has then
    made no request, slept not at all and written nothing. *)
Theorem main_configuration_error
    (unicode_escape : string → option string) (fromstring : string → option element)
    (casefold : string → string) (BGG_TOKEN users_js : option string) (w : World) :
  (configuration_error unicode_escape BGG_TOKEN users_js →
   main unicode_escape fromstring casefold BGG_TOKEN users_js w = (Ok 2, w))
  ∧ (∀ w', main unicode_escape fromstring casefold BGG_TOKEN users_js w = (Ok 2, w') →
           configuration_error unicode_escape BGG_TOKEN users_js ∧ w' = w).
Proof.
  unfold main, configuration_error. split.
  - destruct BGG_TOKEN as [[|c token]|]; [done| |done]. cbn [truthy negb].
    intros [?|[?|[->|(txt & -> & Hparse)]]]; [done|done|done|].
    unfold bind at 1, lift. by rewrite Hparse.
  - intros w'. destruct BGG_TOKEN as [[|c token]|].
    + intros [= <-]. split; [by right; left|done].
    + cbn [truthy negb]. destruct users_js as [txt|].
      2:{ intros [= <-]. split; [by right; right; left|done]. }
      unfold bind at 1, lift.
      destruct (parse_bgg_usernames_from_users_js unicode_escape txt) as [users|e] eqn:Hp;
        [|done].
      destruct users as [|u users].
      { intros [= <-]. split; [|done]. right; right; right. by exists txt. }
      unfold bind at 1.
      destruct (build_games _ _ _ _ w) as [[games|e] w1]; [|done].
      unfold bind at 1. rewrite write_games_js_run. unfold ret. done.
    + intros [= <-]. split; [by left|done].
Qed.

Lemma main_requests_only_bgg_witness :
  ∃ r w' evs,
    main simple_unicode_escape sample_docs ascii_casefold (Some "tok"%string)
      (Some two_users_js) sample_world = (r, w')
    ∧ trace w' = trace sample_world ++ evs
    ∧ Forall (pipeline_event ["amy"; "bo"]%string "tok") evs
    ∧ length evs = 8%nat.
Proof.
  destruct (main simple_unicode_escape sample_docs ascii_casefold (Some "tok"%string)
              (Some two_users_js) sample_world) as [r w'] eqn:Hrun.
  destruct (main_requests_only_bgg simple_unicode_escape sample_docs ascii_casefold
              "tok" two_users_js ["amy"; "bo"]%string sample_world w' r)
    as (evs & Htr & Hall & _).
  - vm_compute. reflexivity.
  - exact Hrun.
  - exists r, w', evs. split; [reflexivity|]. split; [exact Htr|]. split; [exact Hall|].
    pose proof Hrun as Hval. vm_compute in Hval. injection Hval as _ <-.
    simpl in Htr. rewrite <- Htr. reflexivity.
Defined.

(** The connection breaks during the first fetch: [main] raises, and
    the earlier snapshot stays. *)
Lemma main_no_partial_output_witness :
  ∃ w',
    main simple_unicode_escape sample_docs ascii_casefold (Some "tok"%string)
      (Some two_users_js) stale_world
    = (Raise (RequestException "connection reset"), w')
    ∧ games_js w' = Some "// an earlier snapshot"%string.
Proof.
  destruct (main simple_unicode_escape sample_docs ascii_casefold (Some "tok"%string)
              (Some two_users_js) stale_world) as [r w'] eqn:Hrun.
  destruct (main_no_partial_output _ _ _ _ _ _ _ _ Hrun) as (_ & Hkeep & _).
  pose proof Hrun as Hval. vm_compute in Hval. injection Hval as Hr _.
  exists w'. rewrite <- Hr in *. split; [reflexivity|].
  rewrite Hkeep; [reflexivity|discriminate].
Defined.

Lemma main_configuration_error_witness :
  main simple_unicode_escape sample_docs ascii_casefold (Some EmptyString)
    (Some two_users_js) sample_world = (Ok 2, sample_world)
  ∧ main simple_unicode_escape sample_docs ascii_casefold (Some "tok"%string)
      (Some "const users = {}"%string) sample_world = (Ok 2, sample_world).
Proof.
  split.
  - apply main_configuration_error. right. left. reflexivity.
  - apply main_configuration_error. right. right. right.
    exists "const users = {}"%string. split; reflexivity.
Defined.

(** ** Edge cases of the name resolver *)

(** X6. A chunk size of zero makes [fetch_primary_names] raise
    [ValueError] before any request; a negative chunk size, or an empty
    id list with any chunk size other than zero, makes it return the
    empty mapping without any request. *)
Theorem fetch_primary_names_degenerate
    (fromstring : string → option element) (ids : list Z) (token : string)
    (chunk_size : Z) (w : World) :
  (chunk_size = 0 →
   fetch_primary_names fromstring ids token chunk_size w
   = (Raise (ValueError "range() arg 3 must not be zero"), w))
  ∧ (chunk_size < 0 →
     fetch_primary_names fromstring ids token chunk_size w = (Ok ∅, w))
  ∧ (ids = [] → chunk_size ≠ 0 →
     fetch_primary_names fromstring ids token chunk_size w = (Ok ∅, w)).
Proof.
  unfold fetch_primary_names, bind, lift, chunked, range0. split; [|split].
  - by intros ->.
  - intros Hneg. destruct (chunk_size =? 0) eqn:Hz; [apply Z.eqb_eq in Hz; lia|].
    destruct (0 <? chunk_size) eqn:Hp; [apply Z.ltb_lt in Hp; lia|]. done.
  - intros -> Hnz. destruct (chunk_size =? 0) eqn:Hz; [apply Z.eqb_eq in Hz; lia|].
    destruct (0 <? chunk_size) eqn:Hp; [|done]. apply Z.ltb_lt in Hp.
    simpl length. replace ((Z.of_nat 0 + chunk_size - 1) / chunk_size) with 0; [done|].
    symmetry. apply Z.div_small. lia.
Qed.

Lemma fetch_primary_names_degenerate_witness :
  fetch_primary_names sample_docs [10; 20] "tok" 0 sample_world
  = (Raise (ValueError "range() arg 3 must not be zero"), sample_world)
  ∧ fetch_primary_names sample_docs [10; 20] "tok" (-5) sample_world = (Ok ∅, sample_world)
  ∧ fetch_primary_names sample_docs [] "tok" 20 sample_world = (Ok ∅, sample_world).
Proof.
  split; [|split].
  - destruct (fetch_primary_names_degenerate sample_docs [10; 20] "tok" 0 sample_world)
      as (Hzero & _ & _). apply Hzero. reflexivity.
  - destruct (fetch_primary_names_degenerate sample_docs [10; 20] "tok" (-5) sample_world)
      as (_ & Hneg & _). apply Hneg. reflexivity.
  - destruct (fetch_primary_names_degenerate sample_docs [] "tok" 20 sample_world)
      as (_ & _ & Hempty). apply Hempty; [reflexivity|discriminate].
Defined.

(** What an entry of the mapping comes from. *)
Lemma names_of_items_entry (items : list element) (out out' : gmap Z string)
    (gid : Z) (name : string) :
  names_of_items items out = Ok out' →
  out' !! gid = Some name →
  out !! gid = Some name
  ∨ (name ≠ EmptyString ∧ 0 ≤ gid
     ∧ ∃ item oid, item ∈ items ∧ get item "id" = Some oid
                   ∧ int oid = Ok gid ∧ primary_name item = Some name).
Proof.
  revert out. induction items as [|item items IH]; intros out Hrun Hlook.
  - simpl in Hrun. injection Hrun as <-. by left.
  - assert (Hskip : names_of_items items out = Ok out' →
             out !! gid = Some name
             ∨ (name ≠ EmptyString ∧ 0 ≤ gid
                ∧ ∃ it oid, it ∈ item :: items ∧ get it "id" = Some oid
                            ∧ int oid = Ok gid ∧ primary_name it = Some name)).
    { intros Hr. destruct (IH _ Hr Hlook) as [?|(? & ? & it & oid & Hit & Hrest)];
        [by left|right]. split; [done|]. split; [done|].
      exists it, oid. split; [by right|done]. }
    cbn [names_of_items] in Hrun.
    destruct (get item "id") as [oid|] eqn:Hoid; [|by apply Hskip].
    destruct (truthy oid && isdigit oid); [|by apply Hskip].
    destruct (int oid) as [g|e] eqn:Hint; [|done].
    destruct (primary_name item) as [primary|] eqn:Hprim; [|by apply Hskip].
    destruct (truthy primary) eqn:Htruthy; [|by apply Hskip].
    destruct (IH _ Hrun Hlook) as [Hins|(? & ? & it & oid' & Hit & Hrest)].
    + destruct (decide (g = gid)) as [->|Hne].
      * rewrite lookup_insert_eq in Hins. injection Hins as ->. right.
        split; [by apply truthy_nonempty|]. split.
        { by apply int_Ok in Hint as (_ & _ & _ & ?). }
        exists item, oid. split; [left|done].
      * rewrite lookup_insert_ne in Hins by done. by left.
    + right. split; [done|]. split; [done|].
      exists it, oid'. split; [by right|done].
Qed.

Lemma lookup_foldl_union (batches : list (gmap Z string)) (out : gmap Z string)
    (gid : Z) (name : string) :
  foldl (fun acc names => names ∪ acc) out batches !! gid = Some name →
  out !! gid = Some name ∨ ∃ names, names ∈ batches ∧ names !! gid = Some name.
Proof.
  revert out. induction batches as [|m batches IH]; intros out Hlook; [by left|].
  simpl in Hlook. apply IH in Hlook as [Hu|(names & Hin & Hn)].
  - apply lookup_union_Some_raw in Hu as [Hm|[_ Ho]]; [|by left].
    right. exists m. split; [left|done].
  - right. exists names. split; [by right|done].
Qed.

(** X7. Every entry of the mapping [fetch_primary_names] returns has a
    non-empty name and a non-negative id, and stems from an item of a
    response that answered one of its lookups for good: the item's [id]
    attribute reads as that id, and the name is the [value] of the
    item's first [name] child of type primary. *)
Theorem fetch_primary_names_entries
    (fromstring : string → option element) (ids : list Z) (token : string)
    (chunk_size : Z) (w w' : World) (out : gmap Z string) :
  fetch_primary_names fromstring ids token chunk_size w = (Ok out, w') →
  ∃ evs, trace w' = trace w ++ evs
    ∧ ∀ gid name, out !! gid = Some name →
        name ≠ EmptyString ∧ 0 ≤ gid
        ∧ ∃ resp root item oid,
            resp ∈ (answered evs).*2
            ∧ fromstring (text resp) = Some root
            ∧ item ∈ findall root "item"
            ∧ get item "id" = Some oid ∧ int oid = Ok gid
            ∧ primary_name item = Some name.
Proof.
  unfold fetch_primary_names, bind at 1, lift.
  destruct (chunked ids chunk_size) as [chunks|e]; [|done].
  intros (evs & batches & Htr & _ & _ & _ & _ & Hbatch & _ & _ & ->)%fetch_chunks_run.
  exists evs. split; [done|]. intros gid name Hlook.
  apply lookup_foldl_union in Hlook as [Hempty|(names & Hin & Hn)]; [done|].
  apply list_elem_of_lookup in Hin as [i Hi].
  destruct (Forall2_lookup_r _ _ _ _ _ Hbatch Hi) as (resp & Hresp & root & Hroot & Hnames).
  destruct (names_of_items_entry _ _ _ _ _ Hnames Hn)
    as [Hempty|(Hne & Hpos & item & oid & Hitem & Hoid & Hint & Hprim)]; [done|].
  split; [done|]. split; [done|].
  exists resp, root, item, oid. split; [by eapply list_elem_of_lookup_2|done].
Qed.

Lemma fetch_primary_names_entries_witness :
  ∃ out w' evs,
    fetch_primary_names batches_docs [10; 20; 30] "tok" 2 batches_world = (Ok out, w')
    ∧ trace w' = trace batches_world ++ evs
    ∧ out !! 10 = Some "Catan"%string
    ∧ ∀ gid name, out !! gid = Some name → name ≠ EmptyString ∧ 0 ≤ gid.
Proof.
  destruct (fetch_primary_names batches_docs [10; 20; 30] "tok" 2 batches_world)
    as [[out|e] w'] eqn:Hrun.
  - destruct (fetch_primary_names_entries _ _ _ _ _ _ _ Hrun) as (evs & Htr & Hall).
    exists out, w', evs. split; [reflexivity|]. split; [exact Htr|]. split.
    + pose proof Hrun as Hval. vm_compute in Hval. injection Hval as <- _.
      vm_compute. reflexivity.
    + intros gid name Hlook. destruct (Hall gid name Hlook) as (Hne & Hpos & _).
      split; [exact Hne|exact Hpos].
  - vm_compute in Hrun. discriminate Hrun.
Defined.

(** ** The records of the output *)

Lemma NoDup_fmap_omap {A B C} (f : A → option B) (g : B → C) (h : C → A) (l : list A) :
  (∀ x y, f x = Some y → h (g y) = x) → NoDup l → NoDup (g <$> omap f l).
Proof.
  intros Hinv. induction 1 as [|x l Hx Hnd IH]; simpl; [constructor|].
  destruct (f x) as [y|] eqn:Hfx; [|done]. rewrite fmap_cons. constructor; [|done].
  intros (y' & Hg & (x' & Hx' & Hfx')%list_elem_of_omap)%list_elem_of_fmap.
  apply Hinv in Hfx, Hfx'. rewrite Hg, Hfx' in Hfx. congruence.
Qed.

Lemma key_le_ltb (a b : string * Z) : key_le a b → a.2 ≠ b.2 → key_ltb a b = true.
Proof.
  unfold key_le, key_ltb. intros [Hlt|[Heq Hle]] Hne.
  - destruct (String.eqb_spec a.1 b.1) as [Heq|_]; [|done].
    rewrite Heq in Hlt. by apply str_lt_irrefl in Hlt.
  - rewrite Heq, String.eqb_refl. apply Z.ltb_lt. lia.
Qed.

Lemma sorted_game_le (casefold : string → string) (l : list game) :
  StronglySorted (game_le casefold) (sorted key_ltb (sort_key casefold) l).
Proof.
  apply Sorted_StronglySorted.
  { intros a b c. apply key_le_trans. }
  eapply Sorted_impl; [|apply Sorted_sorted, key_ltb_asym].
  intros x y. apply key_ltb_false_le.
Qed.

Lemma game_le_strict (casefold : string → string) (l : list game) :
  StronglySorted (game_le casefold) l → NoDup (game_id <$> l) →
  StronglySorted (game_lt casefold) l.
Proof.
  induction 1 as [|r games Hs IH Hall]; intros Hnd; constructor.
  - apply IH. rewrite fmap_cons in Hnd. by apply NoDup_cons in Hnd as [_ ?].
  - rewrite fmap_cons in Hnd. apply NoDup_cons in Hnd as [Hr _].
    rewrite Forall_forall in Hall |- *. intros r' Hr'.
    apply key_le_ltb; [by apply Hall|]. simpl. intros Heq. apply Hr.
    rewrite Heq. by apply list_elem_of_fmap_2.
Qed.

(** X8. In the output of a successful run no two records have the same
    id, and the records stand in strictly ascending order of their
    keys: the order of the output is fixed by the records alone. *)
Theorem build_games_distinct_ids
    (fromstring : string → option element) (casefold : string → string)
    (bgg_users : list string) (token : string) (w w' : World) (games : list game) :
  build_games fromstring casefold bgg_users token w = (Ok games, w') →
  NoDup (game_id <$> games) ∧ StronglySorted (game_lt casefold) games.
Proof.
  intros (_ & names & _ & _ & _ & ->)%build_games_run.
  assert (Hnd : NoDup (game_id <$> sorted key_ltb (sort_key casefold)
                         (omap (record_of names
                                  (merge_all (fetched fromstring bgg_users token w) ∅))
                            (sorted Z.ltb id
                               (elements (dom (merge_all
                                  (fetched fromstring bgg_users token w) ∅))))))).
  { rewrite (sorted_Permutation key_ltb (sort_key casefold)).
    apply (NoDup_fmap_omap _ _ id).
    - by intros gid r (? & _)%record_of_Some.
    - rewrite (sorted_Permutation Z.ltb id). apply NoDup_elements. }
  split; [done|]. apply game_le_strict; [apply sorted_game_le|done].
Qed.

Lemma build_games_distinct_ids_witness :
  ∃ games w',
    build_games sample_docs ascii_casefold ["amy"; "bo"]%string "tok" sample_world
    = (Ok games, w')
    ∧ NoDup (game_id <$> games) ∧ StronglySorted (game_lt ascii_casefold) games.
Proof.
  destruct (build_games sample_docs ascii_casefold ["amy"; "bo"]%string "tok" sample_world)
    as [[games|e] w'] eqn:Hrun.
  - exists games, w'. split; [reflexivity|].
    exact (build_games_distinct_ids _ _ _ _ _ _ _ Hrun).
  - vm_compute in Hrun. discriminate Hrun.
Defined.

(** X9. The last stage cannot fail: once the loop over the users and
    the name resolver have returned, [build_games] returns too, with
    the sorted records of the resolved ids; the subscript
    [game_to_owners[gid]] never raises [KeyError]. *)
Theorem build_games_succeeds
    (fromstring : string → option element) (casefold : string → string)
    (bgg_users : list string) (token : string) (w w1 w2 : World)
    (game_to_owners : gmap Z (gset string)) (id_to_name : gmap Z string) :
  fetch_all fromstring bgg_users token ∅ w = (Ok game_to_owners, w1) →
  fetch_primary_names fromstring
    (sorted Z.ltb id (elements (dom game_to_owners))) token 20 w1
  = (Ok id_to_name, w2) →
  build_games fromstring casefold bgg_users token w
  = (Ok (sorted key_ltb (sort_key casefold)
           (omap (record_of id_to_name game_to_owners)
              (sorted Z.ltb id (elements (dom game_to_owners))))), w2).
Proof.
  intros Hfetch Hnames. unfold build_games, bind at 1. rewrite Hfetch.
  unfold bind at 1. rewrite Hnames. unfold bind at 1, lift.
  rewrite assemble_run; [done|]. intros gid. by rewrite elem_of_all_ids.
Qed.

Lemma build_games_succeeds_witness :
  ∃ games w2,
    build_games sample_docs ascii_casefold ["amy"; "bo"]%string "tok" sample_world
    = (Ok games, w2).
Proof.
  destruct (fetch_all sample_docs ["amy"; "bo"]%string "tok" ∅ sample_world)
    as [[m|e] w1] eqn:Hfetch; [|vm_compute in Hfetch; discriminate Hfetch].
  destruct (fetch_primary_names sample_docs (sorted Z.ltb id (elements (dom m))) "tok" 20 w1)
    as [[names|e] w2] eqn:Hnames.
  - eexists _, w2.
    exact (build_games_succeeds sample_docs ascii_casefold _ _ _ _ _ _ _ Hfetch Hnames).
  - exfalso. vm_compute in Hfetch. injection Hfetch as <- <-.
    vm_compute in Hnames. discriminate Hnames.
Defined.

(** ** Errors of the two parsers *)

Lemma collect_usernames_undecodable (unicode_escape : string → option string)
    (ms : list (string * string)) (usernames : list string) :
  forallb (fun key => bool_decide (is_Some (unicode_escape key))) ms.*1 = false →
  collect_usernames unicode_escape ms usernames = Raise UnicodeDecodeError.
Proof.
  revert usernames. induction ms as [|[key val] ms IH]; intros usernames Hall; [done|].
  cbn [fmap list_fmap fst forallb] in Hall. cbn [collect_usernames].
  unfold _unescape_js_string.
  destruct (unicode_escape key) as [u|] eqn:Hu; [|done].
  rewrite bool_decide_eq_true_2 in Hall by done. simpl in Hall.
  destruct (truthy (strip u)); by apply IH.
Qed.

(** X10. [parse_bgg_usernames_from_users_js] raises exactly when some
    matched key is not a valid escape sequence, and what it raises is
    then [UnicodeDecodeError]: one bad key loses the whole list, also
    the names before it. *)
Theorem parse_bgg_usernames_raises
    (unicode_escape : string → option string) (txt : string) (e : exn) :
  parse_bgg_usernames_from_users_js unicode_escape txt = Raise e
  ↔ keys_decodable unicode_escape txt = false ∧ e = UnicodeDecodeError.
Proof.
  unfold parse_bgg_usernames_from_users_js, keys_decodable, matched_keys.
  destruct (forallb _ _) eqn:Hall.
  - rewrite collect_usernames_decodable by done. split; [done|]. by intros [? _].
  - rewrite collect_usernames_undecodable by done. split; [by intros [= <-]|].
    by intros [_ ->].
Qed.

Lemma owned_ids_not_decimal (items : list element) (ids : list Z) :
  (∀ item oid, item ∈ items → get item "objectid" = Some oid → isdigit oid = true →
               Z.of_nat (String.length oid) ≤ default_max_str_digits) →
  forallb (fun item =>
             match get item "objectid" with
             | Some oid => implb (isdigit oid) (isdecimal oid)
             | None => true
             end) items = false →
  owned_ids items ids = Raise (ValueError "invalid literal for int() with base 10").
Proof.
  revert ids. induction items as [|item items IH]; intros ids Hlim Hall; [done|].
  assert (Hrest : ∀ it oid, it ∈ items → get it "objectid" = Some oid →
            isdigit oid = true →
            Z.of_nat (String.length oid) ≤ default_max_str_digits).
  { intros it oid Hit. apply Hlim. by right. }
  cbn [forallb owned_ids] in *.
  destruct (get item "objectid") as [oid|] eqn:Hoid; [|by apply IH].
  destruct (isdigit oid) eqn:Hdig.
  - rewrite (isdigit_truthy _ Hdig). simpl in *.
    rewrite int_within_limit by (apply (Hlim item); [left|done|done]).
    destruct (isdecimal oid); [by apply IH|done].
  - rewrite andb_false_r. by apply IH.
Qed.

(** The loop over the items raises nothing but [ValueError]. *)
Lemma owned_ids_Raise (items : list element) (ids : list Z) (e : exn) :
  owned_ids items ids = Raise e → ∃ msg, e = ValueError msg.
Proof.
  revert ids. induction items as [|item items IH]; intros ids Hrun; [done|].
  cbn [owned_ids] in Hrun.
  destruct (get item "objectid") as [oid|]; [|by eapply IH].
  destruct (truthy oid && isdigit oid); [|by eapply IH].
  destruct (int oid) as [n|e'] eqn:Hint; [by eapply IH|].
  injection Hrun as <-. by eapply int_Raise.
Qed.

(** When the loop over the items returns, [int] has read every
    [objectid] that passes [isdigit]. *)
Lemma owned_ids_Ok (items : list element) (ids out : list Z) :
  owned_ids items ids = Ok out →
  ∀ item oid, item ∈ items → get item "objectid" = Some oid → isdigit oid = true →
              isdecimal oid = true
              ∧ Z.of_nat (String.length oid) ≤ default_max_str_digits.
Proof.
  revert ids. induction items as [|item items IH]; intros ids Hrun it oid Hit Hoid Hdig.
  - by apply elem_of_nil in Hit.
  - cbn [owned_ids] in Hrun. apply elem_of_cons in Hit as [->|Hit].
    + rewrite Hoid, (isdigit_truthy _ Hdig), Hdig in Hrun. simpl in Hrun.
      destruct (int oid) as [n|e] eqn:Hint; [|done].
      by apply int_Ok in Hint as (? & ? & _).
    + destruct (get item "objectid") as [oid'|]; [|by eapply IH].
      destruct (truthy oid' && isdigit oid'); [|by eapply IH].
      destruct (int oid') as [n|e]; [by eapply IH|done].
Qed.

(** The first [objectid] beyond the limit of [int] ends the loop, when
    all that pass [isdigit] are decimal. *)
Lemma owned_ids_beyond_limit (items : list element) (ids : list Z) :
  (∀ item oid, item ∈ items → get item "objectid" = Some oid → isdigit oid = true →
               isdecimal oid = true) →
  forallb (fun item =>
             match get item "objectid" with
             | Some oid =>
                 implb (isdigit oid)
                   (Z.of_nat (String.length oid) <=? default_max_str_digits)
             | None => true
             end) items = false →
  ∃ item oid, item ∈ items ∧ get item "objectid" = Some oid ∧ isdigit oid = true
    ∧ default_max_str_digits < Z.of_nat (String.length oid)
    ∧ owned_ids items ids
      = Raise (ValueError (digit_limit_message (Z.of_nat (String.length oid)))).
Proof.
  revert ids. induction items as [|item items IH]; intros ids Hdec Hall; [done|].
  assert (Hrest : ∀ it oid, it ∈ items → get it "objectid" = Some oid →
            isdigit oid = true → isdecimal oid = true).
  { intros it oid Hit. apply Hdec. by right. }
  assert (Hlater : ∀ ids',
            forallb (fun item =>
               match get item "objectid" with
               | Some oid =>
                   implb (isdigit oid)
                     (Z.of_nat (String.length oid) <=? default_max_str_digits)
               | None => true
               end) items = false →
            ∃ it oid, it ∈ item :: items ∧ get it "objectid" = Some oid
              ∧ isdigit oid = true
              ∧ default_max_str_digits < Z.of_nat (String.length oid)
              ∧ owned_ids items ids'
                = Raise (ValueError (digit_limit_message (Z.of_nat (String.length oid))))).
  { intros ids' Hf. destruct (IH ids' Hrest Hf) as (it & oid & Hit & Hrun).
    exists it, oid. split; [by right|done]. }
  cbn [forallb owned_ids] in *.
  destruct (get item "objectid") as [oid|] eqn:Hoid; [|by apply Hlater].
  destruct (isdigit oid) eqn:Hdig.
  - rewrite (isdigit_truthy _ Hdig). simpl in *.
    assert (Hd : isdecimal oid = true) by (apply (Hdec item); [left|done|done]).
    pose proof Hd as [_ Hchars]%andb_prop.
    destruct (Z.of_nat (String.length oid) <=? default_max_str_digits) eqn:Hlen.
    + apply Z.leb_le in Hlen. destruct (int_isdecimal oid Hd Hlen) as [-> _].
      by apply Hlater.
    + apply Z.leb_gt in Hlen. exists item, oid.
      split; [left|]. split; [done|]. split; [done|]. split; [done|].
      unfold int. rewrite (leading_digits_decimal _ Hchars).
      by apply Z.ltb_lt in Hlen as ->.
  - rewrite andb_false_r. by apply Hlater.
Qed.

(** X11. When some [objectid] of a collection response passes
    [isdigit] without being made of decimal digits, as a superscript
    digit does, [fetch_owned_game_ids_for_user] raises [ValueError]:
    the item is not skipped, and the ids of the other items are lost
    with it.  The error is that of an invalid literal when no
    [objectid] of digits is longer than [int] reads. *)
Theorem fetch_owned_game_ids_value_error
    (fromstring : string → option element) (username token : string)
    (w w1 : World) (xml_text : string) (root : element) :
  http_get_xml_text BGG_COLLECTION_URL token (collection_params username)
    DEFAULT_TIMEOUT DEFAULT_MAX_ATTEMPTS DEFAULT_BACKOFF_MS DEFAULT_USER_AGENT w
    = (Ok xml_text, w1) →
  fromstring xml_text = Some root →
  objectids_decimal root = false →
  ∃ msg,
    fetch_owned_game_ids_for_user fromstring username token w
    = (Raise (ValueError msg), w1)
    ∧ (objectids_within_limit root = true →
       msg = "invalid literal for int() with base 10"%string).
Proof.
  intros Hget Hparse Hdec.
  unfold fetch_owned_game_ids_for_user, bind. rewrite Hget.
  unfold parse_xml. rewrite Hparse. unfold ret, lift.
  destruct (owned_ids (findall root "item") []) as [out|e] eqn:Hrun.
  - pose proof (owned_ids_Ok _ _ _ Hrun) as Hall.
    enough (objectids_decimal root = true) by congruence.
    unfold objectids_decimal. apply forallb_forall.
    intros item Hitem%list_elem_of_In.
    destruct (get item "objectid") as [oid|] eqn:Hoid; [|done].
    destruct (isdigit oid) eqn:Hdig; [|done]. simpl.
    by destruct (Hall item oid Hitem Hoid Hdig) as [-> _].
  - destruct (owned_ids_Raise _ _ _ Hrun) as [msg ->]. exists msg. split; [done|].
    intros Hlim. rewrite owned_ids_not_decimal in Hrun.
    + by injection Hrun as <-.
    + by apply objectids_within_limit_spec.
    + done.
Qed.

Lemma fetch_owned_game_ids_value_error_witness :
  (fetch_owned_game_ids_for_user superscript_between_docs "amy" "tok"
     zero_collection_world).1
  = Raise (ValueError "invalid literal for int() with base 10").
Proof.
  destruct (fetch_owned_game_ids_value_error superscript_between_docs "amy" "tok"
              zero_collection_world
              (http_get_xml_text BGG_COLLECTION_URL "tok" (collection_params "amy")
                 DEFAULT_TIMEOUT DEFAULT_MAX_ATTEMPTS DEFAULT_BACKOFF_MS
                 DEFAULT_USER_AGENT zero_collection_world).2
              "zero"
              (collection_doc ["7"%string; chr (char_of 178); "9"%string]))
    as (msg & Hrun & Hmsg).
  - vm_compute. reflexivity.
  - vm_compute. reflexivity.
  - vm_compute. reflexivity.
  - rewrite Hrun, Hmsg; [reflexivity|]. vm_compute. reflexivity.
Defined.

(** X22. When some [objectid] of a collection response is made of more
    digits than [int] reads, [fetch_owned_game_ids_for_user] raises
    [ValueError]: the item is not skipped, and the ids of the other
    items are lost with it.  When the [objectid]s of digits are all
    decimal, the error is that of the digit limit, and its message
    gives the length of such an [objectid]. *)
Theorem fetch_owned_game_ids_digit_limit
    (fromstring : string → option element) (username token : string)
    (w w1 : World) (xml_text : string) (root : element) :
  http_get_xml_text BGG_COLLECTION_URL token (collection_params username)
    DEFAULT_TIMEOUT DEFAULT_MAX_ATTEMPTS DEFAULT_BACKOFF_MS DEFAULT_USER_AGENT w
    = (Ok xml_text, w1) →
  fromstring xml_text = Some root →
  objectids_within_limit root = false →
  ∃ msg,
    fetch_owned_game_ids_for_user fromstring username token w
    = (Raise (ValueError msg), w1)
    ∧ (objectids_decimal root = true →
       ∃ item oid, item ∈ findall root "item" ∧ get item "objectid" = Some oid
         ∧ isdigit oid = true
         ∧ default_max_str_digits < Z.of_nat (String.length oid)
         ∧ msg = digit_limit_message (Z.of_nat (String.length oid))).
Proof.
  intros Hget Hparse Hlim.
  unfold fetch_owned_game_ids_for_user, bind. rewrite Hget.
  unfold parse_xml. rewrite Hparse. unfold ret, lift.
  destruct (owned_ids (findall root "item") []) as [out|e] eqn:Hrun.
  - pose proof (owned_ids_Ok _ _ _ Hrun) as Hall.
    enough (objectids_within_limit root = true) by congruence.
    unfold objectids_within_limit. apply forallb_forall.
    intros item Hitem%list_elem_of_In.
    destruct (get item "objectid") as [oid|] eqn:Hoid; [|done].
    destruct (isdigit oid) eqn:Hdig; [|done]. simpl.
    destruct (Hall item oid Hitem Hoid Hdig) as [_ Hlen]. by apply Z.leb_le.
  - destruct (owned_ids_Raise _ _ _ Hrun) as [msg ->]. exists msg. split; [done|].
    intros Hdec.
    destruct (owned_ids_beyond_limit (findall root "item") [])
      as (item & oid & Hitem & Hoid & Hdig & Hlen & Hraise);
      [by apply objectids_decimal_spec|done|].
    rewrite Hraise in Hrun. injection Hrun as <-. by exists item, oid.
Qed.

(** An [objectid] of 4301 ones after an ordinary one. *)
Lemma fetch_owned_game_ids_digit_limit_witness :
  ∃ w',
    fetch_owned_game_ids_for_user long_digits_docs "amy" "tok" zero_collection_world
    = (Raise (ValueError (digit_limit_message 4301)), w').
Proof.
  destruct (fetch_owned_game_ids_digit_limit long_digits_docs "amy" "tok"
              zero_collection_world
              (http_get_xml_text BGG_COLLECTION_URL "tok" (collection_params "amy")
                 DEFAULT_TIMEOUT DEFAULT_MAX_ATTEMPTS DEFAULT_BACKOFF_MS
                 DEFAULT_USER_AGENT zero_collection_world).2
              "zero"
              (collection_doc ["7"%string; str_mul "1" (Z.to_nat 4301)]))
    as (msg & Hrun & _).
  - vm_compute. reflexivity.
  - vm_compute. reflexivity.
  - vm_compute. reflexivity.
  - eexists. rewrite Hrun. pose proof Hrun as Hval. vm_compute in Hval.
    injection Hval as <-. vm_compute. reflexivity.
Defined.

(** ** The size of the ids *)

Lemma digits_value_below (s : string) (acc : Z) :
  forallb_str isdecimal_char s = true → 0 ≤ acc →
  digits_value acc s < (acc + 1) * 10 ^ Z.of_nat (String.length s).
Proof.
  revert acc. induction s as [|c s IH]; intros acc Hs Hacc.
  - simpl. lia.
  - cbn [digits_value forallb_str String.length] in *.
    apply andb_prop in Hs as [Hc Hs]. apply isdecimal_char_range in Hc.
    rewrite Nat2Z.inj_succ, Z.pow_succ_r by lia.
    specialize (IH (10 * acc + (code c - 48)) Hs ltac:(lia)).
    assert (Hpow : 0 < 10 ^ Z.of_nat (String.length s)) by (apply Z.pow_pos_nonneg; lia).
    nia.
Qed.

(** What [int] returns is below ten to the power of its digit limit. *)
Lemma int_below_limit (s : string) (n : Z) :
  int s = Ok n → 0 ≤ n < 10 ^ default_max_str_digits.
Proof.
  intros (Hdec & Hlen & -> & Hpos)%int_Ok. split; [done|].
  apply andb_prop in Hdec as [_ Hall].
  pose proof (digits_value_below s 0 Hall ltac:(lia)) as Hlt.
  eapply Z.lt_le_trans; [exact Hlt|].
  rewrite Z.add_0_l, Z.mul_1_l. apply Z.pow_le_mono_r; [lia|done].
Qed.

Lemma owned_ids_below_limit (items : list element) (ids out : list Z) :
  owned_ids items ids = Ok out →
  Forall (fun n => 0 ≤ n < 10 ^ default_max_str_digits) ids →
  Forall (fun n => 0 ≤ n < 10 ^ default_max_str_digits) out.
Proof.
  revert ids. induction items as [|item items IH]; intros ids Hrun Hids.
  - by injection Hrun as <-.
  - cbn [owned_ids] in Hrun.
    destruct (get item "objectid") as [oid|]; [|by eapply IH].
    destruct (truthy oid && isdigit oid); [|by eapply IH].
    destruct (int oid) as [n|e] eqn:Hint; [|done].
    eapply IH; [exact Hrun|]. apply Forall_app. split; [done|].
    apply Forall_singleton. by eapply int_below_limit.
Qed.

Lemma fetch_owned_below_limit (fromstring : string → option element)
    (username token : string) (w w' : World) (ids : list Z) :
  fetch_owned_game_ids_for_user fromstring username token w = (Ok ids, w') →
  Forall (fun n => 0 ≤ n < 10 ^ default_max_str_digits) ids.
Proof.
  unfold fetch_owned_game_ids_for_user, bind at 1.
  destruct (http_get_xml_text _ _ _ _ _ _ _ w) as [[xml_text|e] w1]; [|done].
  unfold bind at 1, parse_xml.
  destruct (fromstring xml_text) as [root|]; [|done].
  unfold ret at 1, bind at 1, lift.
  destruct (owned_ids _ _) as [out|e] eqn:Hrun; [|done].
  intros [= <- _]. apply owned_ids_below_limit in Hrun; [|done].
  rewrite Forall_forall in *. intros n Hn. apply Hrun.
  by rewrite dedup_first_occurrences, elem_of_first_occurrences in Hn.
Qed.

Lemma fetch_all_below_limit (fromstring : string → option element)
    (bgg_users : list string) (token : string) :
  ∀ (m m' : gmap Z (gset string)) (w w' : World),
    fetch_all fromstring bgg_users token m w = (Ok m', w') →
    (∀ gid, gid ∈ dom m → 0 ≤ gid < 10 ^ default_max_str_digits) →
    ∀ gid, gid ∈ dom m' → 0 ≤ gid < 10 ^ default_max_str_digits.
Proof.
  induction bgg_users as [|u users IH]; intros m m' w w' Hrun Hm.
  - by injection Hrun as <- _.
  - cbn [fetch_all] in Hrun. unfold bind at 1 in Hrun.
    destruct (fetch_owned_game_ids_for_user fromstring u token w) as [[ids|e] w1] eqn:Hf;
      [|done].
    unfold bind at 1, sleep in Hrun. eapply IH; [exact Hrun|].
    intros gid. rewrite dom_merge, elem_of_union, elem_of_list_to_set.
    intros [Hin|Hin]; [by apply Hm|].
    apply fetch_owned_below_limit in Hf. rewrite Forall_forall in Hf. by apply Hf.
Qed.

(** X23. In a run of the pipeline that returns, every id collected from
    the users, which are the ids sent to the name resolver, and every
    id of an output record is a non-negative integer below ten to the
    power 4300: [int] has read it from at most 4300 digits, so that
    [str] writes it with as many in the lookup request and in the
    output. *)
Theorem build_games_ids_below_limit
    (fromstring : string → option element) (casefold : string → string)
    (bgg_users : list string) (token : string) (w w' : World) (games : list game) :
  build_games fromstring casefold bgg_users token w = (Ok games, w') →
  (∀ gid, gid ∈ dom (merge_all (fetched fromstring bgg_users token w) ∅) →
          0 ≤ gid < 10 ^ default_max_str_digits)
  ∧ Forall (fun r => 0 ≤ game_id r < 10 ^ default_max_str_digits) games.
Proof.
  intros (w1 & id_to_name & _ & Hfetch & _ & ->)%build_games_run.
  assert (Hdom : ∀ gid, gid ∈ dom (merge_all (fetched fromstring bgg_users token w) ∅) →
                        0 ≤ gid < 10 ^ default_max_str_digits).
  { eapply fetch_all_below_limit; [exact Hfetch|].
    intros gid Hgid. by rewrite dom_empty, elem_of_empty in Hgid. }
  split; [done|]. apply Forall_forall. intros r Hr.
  rewrite elem_of_sorted in Hr.
  apply list_elem_of_omap in Hr as (gid & Hgid & Hrec).
  apply record_of_Some in Hrec as [-> _].
  rewrite elem_of_sorted, elem_of_elements in Hgid. by apply Hdom.
Qed.

Lemma build_games_ids_below_limit_witness :
  ∃ games w',
    build_games sample_docs ascii_casefold ["amy"; "bo"]%string "tok" sample_world
    = (Ok games, w')
    ∧ Forall (fun r => 0 ≤ game_id r < 10 ^ default_max_str_digits) games.
Proof.
  destruct (build_games sample_docs ascii_casefold ["amy"; "bo"]%string "tok" sample_world)
    as [[games|e] w'] eqn:Hrun.
  - exists games, w'. split; [reflexivity|].
    exact (proj2 (build_games_ids_below_limit _ _ _ _ _ _ _ Hrun)).
  - vm_compute in Hrun. discriminate Hrun.
Defined.

(** ** Merging in any order *)

Lemma merge_comm (u1 u2 : string) (ids1 ids2 : list Z) (m : gmap Z (gset string)) :
  merge u1 ids1 (merge u2 ids2 m) = merge u2 ids2 (merge u1 ids1 m).
Proof.
  apply map_eq. intros g. rewrite !lookup_merge, !owners_of_merge.
  destruct (decide (g ∈ ids1)), (decide (g ∈ ids2)); try done; f_equal; set_solver.
Qed.

(** X12. The ownership map does not depend on the order in which the
    lists are merged: two merges commute, and merging the same pairs of
    user and id list in any other order gives the same map. *)
Theorem merge_all_order_irrelevant
    (pairs pairs' : list (string * list Z)) (m : gmap Z (gset string)) :
  pairs ≡ₚ pairs' → merge_all pairs m = merge_all pairs' m.
Proof.
  intros Hperm. revert m. unfold merge_all.
  induction Hperm as [|p l l' _ IH|p q l|l1 l2 l3 _ IH1 _ IH2]; intros m.
  - done.
  - simpl. apply IH.
  - simpl. by rewrite merge_comm.
  - by rewrite IH1, IH2.
Qed.

Lemma merge_all_order_irrelevant_witness :
  merge_all [("amy"%string, [10; 20]); ("bo"%string, [20])] ∅
  = merge_all [("bo"%string, [20]); ("amy"%string, [10; 20])] ∅.
Proof.
  apply merge_all_order_irrelevant. apply Permutation_swap.
Defined.

Lemma parse_bgg_usernames_raises_witness :
  parse_bgg_usernames_from_users_js simple_unicode_escape bad_escape_users_js
  = Raise UnicodeDecodeError.
Proof.
  apply parse_bgg_usernames_raises. split; [vm_compute; reflexivity|reflexivity].
Defined.

(** ** The requests of the loop over the users *)

Lemma pauses_app (ms : Z) (l1 l2 : list event) :
  pauses ms (l1 ++ l2) = (pauses ms l1 + pauses ms l2)%nat.
Proof. unfold pauses. by rewrite filter_app, length_app. Qed.

Lemma pauses_retry_events (ms : Z) (req : request) (backoff : Z) (rs : list response) :
  ms ≠ backoff → pauses ms (retry_events req backoff rs) = 0%nat.
Proof.
  intros Hne. induction rs as [|r rs IH]; [done|]. cbn [retry_events].
  unfold pauses in *. rewrite filter_cons_False by done.
  rewrite filter_cons_False; [done|]. simpl. intros Heq%Z.eqb_eq. done.
Qed.

Lemma fetch_owned_Ok (fromstring : string → option element) (username token : string)
    (w w' : World) (ids : list Z) :
  fetch_owned_game_ids_for_user fromstring username token w = (Ok ids, w') →
  ∃ rs resp,
    Forall (fun r => status_code r = NOT_READY) rs
    ∧ status_code resp ≠ NOT_READY
    ∧ trace w' = trace w
                   ++ retry_events (collection_request token username) DEFAULT_BACKOFF_MS rs
                   ++ [EvGet (collection_request token username) (Ok resp)].
Proof.
  unfold fetch_owned_game_ids_for_user, bind at 1.
  destruct (http_get_xml_text _ _ _ _ _ _ _ w) as [[xml_text|e] w1] eqn:Hhttp; [|done].
  apply http_get_xml_text_Ok in Hhttp as (rs & resp & Hall & _ & Hst & _ & _ & Htr & _).
  unfold bind at 1, parse_xml. destruct (fromstring xml_text) as [root|]; [|done].
  unfold ret at 1, bind at 1, lift. destruct (owned_ids _ _); [|done].
  intros [= _ <-]. by exists rs, resp.
Qed.

(** X13. In a successful run of the loop over the users, the requests
    that were answered for good are the collection requests of the
    users, one for each and in their order; any further request is the
    repetition of one that was answered not-ready; and the loop pauses
    300 milliseconds once for every user. *)
Theorem fetch_all_requests
    (fromstring : string → option element) (bgg_users : list string) (token : string)
    (m m' : gmap Z (gset string)) (w w' : World) :
  fetch_all fromstring bgg_users token m w = (Ok m', w') →
  ∃ evs,
    trace w' = trace w ++ evs
    ∧ (answered evs).*1 = collection_request token <$> bgg_users
    ∧ requests_made w' = (requests_made w + length bgg_users + retried evs)%nat
    ∧ pauses 300 evs = length bgg_users.
Proof.
  revert m w. induction bgg_users as [|u users IH]; intros m w Hrun.
  - injection Hrun as _ <-. exists []. rewrite app_nil_r.
    split; [done|]. split; [done|]. split; [|done]. unfold retried. simpl. lia.
  - cbn [fetch_all] in Hrun. unfold bind at 1 in Hrun.
    destruct (fetch_owned_game_ids_for_user fromstring u token w) as [[ids|e] w1] eqn:Hf;
      [|done].
    apply fetch_owned_Ok in Hf as (rs & resp & Hall & Hst & Htr1).
    unfold bind at 1, sleep in Hrun.
    apply IH in Hrun as (evs & Htr & Hans & Hreq & Hpause).
    simpl in Htr. rewrite requests_made_log in Hreq. simpl in Hreq.
    exists (retry_events (collection_request token u) DEFAULT_BACKOFF_MS rs
              ++ [EvGet (collection_request token u) (Ok resp)] ++ [EvSleep 300] ++ evs).
    split; [rewrite Htr, Htr1; by rewrite <- !app_assoc|].
    assert (Hfinal : retried [EvGet (collection_request token u) (Ok resp)] = 0%nat).
    { unfold retried. rewrite filter_cons_False; [done|].
      intros Hr. cbv beta in Hr. unfold is_retry, is_not_ready in Hr.
      by apply Z.eqb_eq in Hr. }
    split; [|split].
    + rewrite answered_app, answered_retry_events by done.
      unfold answered at 1. cbn [app omap list_omap].
      apply Z.eqb_neq in Hst. rewrite Hst. fold (answered evs).
      by rewrite !fmap_cons, Hans.
    + rewrite !retried_app, retried_retry_events, Hfinal by done.
      change (retried [EvSleep 300]) with 0%nat.
      rewrite Hreq, (requests_made_app _ _ _ Htr1).
      rewrite filter_app, length_app, gets_retry_events. simpl. lia.
    + rewrite !pauses_app, pauses_retry_events by done.
      change (pauses 300 [EvGet (collection_request token u) (Ok resp)]) with 0%nat.
      change (pauses 300 [EvSleep 300]) with 1%nat. rewrite Hpause. simpl. lia.
Qed.

Lemma fetch_all_requests_witness :
  ∃ m' w' evs,
    fetch_all sample_docs ["amy"; "bo"]%string "tok" ∅ sample_world = (Ok m', w')
    ∧ trace w' = trace sample_world ++ evs
    ∧ (answered evs).*1 = collection_request "tok" <$> ["amy"; "bo"]%string
    ∧ requests_made w' = 3%nat
    ∧ pauses 300 evs = 2%nat.
Proof.
  destruct (fetch_all sample_docs ["amy"; "bo"]%string "tok" ∅ sample_world)
    as [[m'|e] w'] eqn:Hrun.
  - destruct (fetch_all_requests _ _ _ _ _ _ _ Hrun) as (evs & Htr & Hans & _ & Hpause).
    exists m', w', evs. split; [reflexivity|]. split; [exact Htr|].
    split; [exact Hans|]. split; [|exact Hpause].
    pose proof Hrun as Hval. vm_compute in Hval. injection Hval as _ <-. reflexivity.
  - vm_compute in Hrun. discriminate Hrun.
Defined.

(** ** The written text *)

Lemma count_char_app (c : ascii) (s t : string) :
  count_char c (s +:+ t) = (count_char c s + count_char c t)%nat.
Proof.
  induction s as [|x s IH]; [done|]. rewrite app_String. cbn [count_char].
  rewrite IH. lia.
Qed.

Lemma length_app_str (s t : string) :
  String.length (s +:+ t) = (String.length s + String.length t)%nat.
Proof. induction s as [|x s IH]; [done|]. rewrite app_String. simpl. by rewrite IH. Qed.

Lemma escape_char_control (x : ascii) :
  count_char LF (escape_char x) = 0%nat
  ∧ count_char CR (escape_char x) = 0%nat
  ∧ count_char TAB (escape_char x) = 0%nat
  ∧ String.length (escape_char x) = (1 + (if is_special x then 1 else 0))%nat.
Proof. destruct x as [[] [] [] [] [] [] [] []]; repeat split. Qed.

Lemma js_escape_control (s : string) :
  count_char LF (js_escape s) = 0%nat
  ∧ count_char CR (js_escape s) = 0%nat
  ∧ count_char TAB (js_escape s) = 0%nat.
Proof.
  rewrite js_escape_chars. induction s as [|x s (IH1 & IH2 & IH3)]; [done|].
  cbn [escape_chars]. rewrite !count_char_app, IH1, IH2, IH3.
  destruct (escape_char_control x) as (-> & -> & -> & _). done.
Qed.

Lemma js_escape_inj (s1 s2 : string) : js_escape s1 = js_escape s2 → s1 = s2.
Proof.
  rewrite !js_escape_chars. intros Heq.
  pose proof (read_escape_chars s1 EmptyString) as H1.
  pose proof (read_escape_chars s2 EmptyString) as H2.
  rewrite Heq in H1. rewrite H1 in H2. by injection H2.
Qed.

(** X14. [js_escape] loses nothing and breaks no line: different
    strings have different escapings, the escaping of a concatenation
    is the concatenation of the escapings, and no escaping contains a
    line feed, a carriage return or a tab. *)
Theorem js_escape_injective_no_control (s t : string) :
  (js_escape s = js_escape t → s = t)
  ∧ js_escape (s +:+ t) = js_escape s +:+ js_escape t
  ∧ count_char LF (js_escape s) = 0%nat
  ∧ count_char CR (js_escape s) = 0%nat
  ∧ count_char TAB (js_escape s) = 0%nat.
Proof.
  split; [apply js_escape_inj|]. split; [apply js_escape_app|]. apply js_escape_control.
Qed.

Lemma js_escape_length (s : string) :
  String.length (js_escape s) = (String.length s + count_special s)%nat.
Proof.
  rewrite js_escape_chars. induction s as [|x s IH]; [done|].
  cbn [escape_chars count_special String.length]. rewrite length_app_str, IH.
  destruct (escape_char_control x) as (_ & _ & _ & ->). lia.
Qed.

(** X15. Every backslash, double quote, line feed, carriage return and
    tab makes the escaping one character longer, and a string is its
    own escaping exactly when it has none of them. *)
Theorem js_escape_verbatim (s : string) :
  String.length (js_escape s) = (String.length s + count_special s)%nat
  ∧ (js_escape s = s ↔ count_special s = 0%nat).
Proof.
  split; [apply js_escape_length|]. split.
  - intros Heq. pose proof (js_escape_length s) as Hlen. rewrite Heq in Hlen. lia.
  - rewrite js_escape_chars. induction s as [|x s IH]; [done|].
    cbn [escape_chars count_special]. intros Hcount.
    assert (Hx : is_special x = false) by (destruct (is_special x); [simpl in Hcount; lia|done]).
    rewrite Hx in Hcount. rewrite IH by (simpl in Hcount; lia).
    unfold is_special in Hx. unfold escape_char.
    destruct (Ascii.eqb x BACKSLASH); [done|]. destruct (Ascii.eqb x DQUOTE); [done|].
    destruct (Ascii.eqb x LF); [done|]. destruct (Ascii.eqb x CR); [done|].
    destruct (Ascii.eqb x TAB); done.
Qed.

Lemma js_escape_injective_no_control_witness :
  game_name quirky_game = game_name quirky_game
  ∧ count_char LF (js_escape (game_name quirky_game)) = 0%nat.
Proof.
  destruct (js_escape_injective_no_control (game_name quirky_game) (game_name quirky_game))
    as (Hinj & _ & Hlf & _).
  split; [apply Hinj; reflexivity|exact Hlf].
Defined.

Lemma js_escape_verbatim_witness :
  js_escape "Wingspan" = "Wingspan"%string.
Proof.
  destruct (js_escape_verbatim "Wingspan") as (_ & Hiff). apply Hiff. reflexivity.
Defined.

Lemma count_char_uint (c : ascii) (d : Decimal.uint) :
  isdecimal_char c = false → count_char c (NilEmpty.string_of_uint d) = 0%nat.
Proof.
  intros Hc. induction d as [|d IH|d IH|d IH|d IH|d IH|d IH|d IH|d IH|d IH|d IH];
    [done|..]; cbn [NilEmpty.string_of_uint count_char]; rewrite IH;
    match goal with
    | |- context [Ascii.eqb ?x c] =>
        destruct (Ascii.eqb_spec x c) as [<-|_]; [vm_compute in Hc; discriminate Hc|done]
    end.
Qed.

Lemma count_char_str (c : ascii) (n : Z) :
  isdecimal_char c = false → c ≠ "-"%char → count_char c (str n) = 0%nat.
Proof.
  intros Hc Hminus. unfold str, NilZero.string_of_int, NilZero.string_of_uint.
  assert (Hzero : count_char c "0" = 0%nat).
  { cbn [count_char]. destruct (Ascii.eqb_spec "0"%char c) as [<-|_]; [|done].
    vm_compute in Hc. discriminate Hc. }
  destruct (Z.to_int n) as [d|d].
  - destruct d; first [exact Hzero|by apply count_char_uint].
  - cbn [count_char]. destruct (Ascii.eqb_spec "-"%char c) as [<-|_]; [done|].
    destruct d; first [exact Hzero|by apply count_char_uint].
Qed.

Lemma count_char_join (c : ascii) (sep : string) (parts : list string) :
  count_char c sep = 0%nat →
  Forall (fun p => count_char c p = 0%nat) parts →
  count_char c (join sep parts) = 0%nat.
Proof.
  intros Hsep. induction 1 as [|p parts Hp _ IH]; [done|].
  unfold join in *. cbn [String.concat]. destruct parts as [|q parts]; [done|].
  change (p ++ sep ++ String.concat sep (q :: parts))%string
    with (p +:+ sep +:+ String.concat sep (q :: parts)).
  by rewrite !count_char_app, Hp, Hsep, IH.
Qed.

Lemma count_char_quoted (s : string) : count_char LF (quoted s) = 0%nat.
Proof.
  unfold quoted. rewrite !count_char_app.
  destruct (js_escape_control s) as (-> & _). done.
Qed.

Lemma count_char_game_line (g : game) : count_char LF (game_line g) = 0%nat.
Proof.
  unfold game_line. rewrite !count_char_app, count_char_str, count_char_quoted by done.
  rewrite count_char_join; [done..|].
  apply Forall_fmap, Forall_forall. intros u _. apply count_char_quoted.
Qed.

Lemma count_char_join_lines (lines : list string) :
  Forall (fun l => count_char LF l = 0%nat) lines →
  count_char LF (join (chr LF) lines) = (length lines - 1)%nat.
Proof.
  induction 1 as [|l lines Hl Hall IH]; [done|].
  unfold join in *. cbn [String.concat]. destruct lines as [|l' lines]; [by rewrite Hl|].
  change (l ++ chr LF ++ String.concat (chr LF) (l' :: lines))%string
    with (l +:+ chr LF +:+ String.concat (chr LF) (l' :: lines)).
  rewrite !count_char_app, Hl, IH. simpl. lia.
Qed.

(** X16. Every record is written on one line: with a date free of
    line feeds, the text [write_games_js] writes has the five lines of
    the head, one line for each record, and the two lines of the tail,
    separated by line feeds, whatever characters the names and the
    owners hold. *)
Theorem write_games_js_one_line_per_record (games : list game) (w : World) :
  count_char LF (today w) = 0%nat →
  ∃ content,
    games_js (write_games_js games w).2 = Some content
    ∧ count_char LF content = (6 + length games)%nat
    ∧ Forall (fun line => count_char LF line = 0%nat) (games_js_lines (today w) games).
Proof.
  intros Hdate. rewrite write_games_js_run. eexists. split; [reflexivity|].
  assert (Hall : Forall (fun line => count_char LF line = 0%nat)
                   (games_js_lines (today w) games)).
  { unfold games_js_lines. apply Forall_app. split.
    - repeat constructor. by rewrite count_char_app, Hdate.
    - apply Forall_app. split; [|by repeat constructor].
      apply Forall_fmap, Forall_forall. intros g _. apply count_char_game_line. }
  split; [|done]. rewrite count_char_join_lines by done.
  unfold games_js_lines. rewrite !length_app, length_fmap. simpl. lia.
Qed.

Lemma write_games_js_one_line_per_record_witness :
  ∃ content,
    games_js (write_games_js [quirky_game] sample_world).2 = Some content
    ∧ count_char LF content = 7%nat.
Proof.
  destruct (write_games_js_one_line_per_record [quirky_game] sample_world)
    as (content & Hwritten & Hcount & _).
  - reflexivity.
  - exists content. split; [exact Hwritten|exact Hcount].
Defined.

(** ** The pattern of users.js *)

Lemma app_empty_r (s : string) : s +:+ EmptyString = s.
Proof. induction s as [|c s IH]; [done|]. by rewrite app_String, IH. Qed.

(** Whatever the repetition hands to the rest of the pattern is a
    split of the text it was given. *)
Lemma re_body_Some {R} (q : ascii) (k : string → string → option R) (n : nat) :
  ∀ (s matched : string) (r : R),
    (String.length s ≤ n)%nat →
    re_body q s matched k = Some r →
    ∃ body rest, s = body +:+ rest ∧ k (matched +:+ body) rest = Some r.
Proof.
  induction n as [|n IH]; intros s matched r Hlen Hrun.
  - destruct s; [|simpl in Hlen; lia]. simpl in Hrun.
    exists EmptyString, EmptyString. split; [done|by rewrite app_empty_r].
  - destruct s as [|c s']; simpl in Hrun.
    { exists EmptyString, EmptyString. split; [done|by rewrite app_empty_r]. }
    simpl in Hlen.
    assert (Hexit : k matched (String c s') = Some r →
              ∃ body rest, String c s' = body +:+ rest ∧ k (matched +:+ body) rest = Some r).
    { intros Hk. exists EmptyString, (String c s'). split; [done|by rewrite app_empty_r]. }
    assert (Hplain : (if Ascii.eqb c q then None
                      else re_body q s' (matched +:+ chr c) k) = Some r →
              ∃ body rest, String c s' = body +:+ rest ∧ k (matched +:+ body) rest = Some r).
    { destruct (Ascii.eqb c q); [done|]. intros Hr.
      apply IH in Hr as (body & rest & -> & Hk); [|lia].
      exists (String c body), rest. split; [done|].
      by rewrite app_assoc_str in Hk. }
    destruct (Ascii.eqb c BACKSLASH).
    + destruct s' as [|d s''].
      * destruct (if Ascii.eqb c q then None else re_body q EmptyString (matched +:+ chr c) k)
          as [r'|] eqn:Hp; [injection Hrun as ->; by apply Hplain|by apply Hexit].
      * destruct (re_body q s'' (matched +:+ String c (chr d)) k) as [r'|] eqn:He.
        { injection Hrun as ->. apply IH in He as (body & rest & -> & Hk);
            [|simpl in Hlen; lia].
          exists (String c (String d body)), rest. split; [done|].
          by rewrite app_assoc_str in Hk. }
        destruct (if Ascii.eqb c q then None
                  else re_body q (String d s'') (matched +:+ chr c) k) as [r'|] eqn:Hp;
          [injection Hrun as ->; by apply Hplain|by apply Hexit].
    + destruct (if Ascii.eqb c q then None else re_body q s' (matched +:+ chr c) k)
        as [r'|] eqn:Hp; [injection Hrun as ->; by apply Hplain|by apply Hexit].
Qed.

Lemma re_quote_Some (s : string) (q : ascii) (s' : string) :
  re_quote s = Some (q, s') → s = String q s' ∧ is_quote q.
Proof.
  destruct s as [|c s0]; [done|]. simpl.
  destruct (Ascii.eqb_spec c SQUOTE) as [->|_]; simpl.
  - intros [= <- <-]. split; [done|by left].
  - destruct (Ascii.eqb_spec c DQUOTE) as [->|_]; [|done].
    intros [= <- <-]. split; [done|by right].
Qed.

Lemma re_char_Some (q : ascii) (s s' : string) : re_char q s = Some s' → s = String q s'.
Proof.
  destruct s as [|c s0]; [done|]. simpl.
  destruct (Ascii.eqb_spec c q) as [->|_]; [|done]. by intros [= <-].
Qed.

Lemma re_colon_Some (s s' : string) :
  re_colon s = Some s' →
  ∃ ws1 ws2, s = ws1 +:+ String COLON (ws2 +:+ s')
             ∧ forallb_str isspace_char ws1 = true
             ∧ forallb_str isspace_char ws2 = true.
Proof.
  unfold re_colon. destruct (re_char COLON (lstrip s)) as [x|] eqn:Hc; [|done].
  intros [= <-]. apply re_char_Some in Hc.
  destruct (lstrip_spec s) as (ws1 & Hs & Hws1).
  destruct (lstrip_spec x) as (ws2 & Hx & Hws2).
  exists ws1, ws2. split; [|done]. rewrite Hs at 1. by rewrite Hc, <- Hx.
Qed.

(** A match of the pattern at the start of a text is an entry that
    the text starts with. *)
Lemma _USER_ENTRY_RE_match_Some (s key val rest : string) :
  _USER_ENTRY_RE_match s = Some (key, val, rest) →
  ∃ q1 q3 ws1 ws2,
    s = entry_text q1 key ws1 ws2 q3 val +:+ rest
    ∧ is_quote q1 ∧ is_quote q3
    ∧ forallb_str isspace_char ws1 = true ∧ forallb_str isspace_char ws2 = true.
Proof.
  unfold _USER_ENTRY_RE_match.
  destruct (re_quote s) as [[q1 s1]|] eqn:Hq1; [|done].
  apply re_quote_Some in Hq1 as [-> Hq1]. intros Hrun.
  apply (re_body_Some _ _ (String.length s1)) in Hrun as (key' & r1 & -> & Hrun); [|done].
  rewrite app_empty_l in Hrun.
  destruct (re_char q1 r1) as [r2|] eqn:Hc1; [|done]. apply re_char_Some in Hc1 as ->.
  destruct (re_colon r2) as [r3|] eqn:Hcolon; [|done].
  apply re_colon_Some in Hcolon as (ws1 & ws2 & -> & Hws1 & Hws2).
  destruct (re_quote r3) as [[q3 s4]|] eqn:Hq3; [|done].
  apply re_quote_Some in Hq3 as [-> Hq3].
  apply (re_body_Some _ _ (String.length s4)) in Hrun as (val' & r5 & -> & Hrun); [|done].
  rewrite app_empty_l in Hrun.
  destruct (re_char q3 r5) as [r6|] eqn:Hc3; [|done]. apply re_char_Some in Hc3 as ->.
  injection Hrun as -> -> ->.
  exists q1, q3, ws1, ws2. split; [|done].
  unfold entry_text, chr. rewrite !app_String. f_equal.
  rewrite !app_assoc_str, !app_String. f_equal. f_equal.
  rewrite !app_assoc_str, !app_String. f_equal. f_equal.
  rewrite !app_assoc_str, !app_String. f_equal. f_equal.
  by rewrite !app_assoc_str, !app_String.
Qed.

Lemma _USER_ENTRY_RE_finditer_sound (s : string) :
  ∀ (skip : nat) (key val : string),
    (key, val) ∈ _USER_ENTRY_RE_finditer s skip →
    ∃ pre s' rest, s = pre +:+ s' ∧ _USER_ENTRY_RE_match s' = Some (key, val, rest).
Proof.
  induction s as [|c s IH]; intros skip key val Hin.
  - by apply not_elem_of_nil in Hin.
  - assert (Hlater : ∀ n, (key, val) ∈ _USER_ENTRY_RE_finditer s n →
              ∃ pre s' rest, String c s = pre +:+ s'
                             ∧ _USER_ENTRY_RE_match s' = Some (key, val, rest)).
    { intros n (pre & s' & rest & -> & Hm)%IH. by exists (String c pre), s', rest. }
    cbn [_USER_ENTRY_RE_finditer] in Hin. destruct skip as [|n]; [|by eapply Hlater].
    destruct (_USER_ENTRY_RE_match (String c s)) as [[[k v] rest]|] eqn:Hm;
      [|by eapply Hlater].
    apply elem_of_cons in Hin as [[= -> ->]|Hin]; [|by eapply Hlater].
    by exists EmptyString, (String c s), rest.
Qed.

(** X17. Every match of [_USER_ENTRY_RE] in a text is an entry that
    stands in the text: a key between two quotes of the same kind,
    optional white space, a colon, optional white space, and a value
    between two quotes of the same kind. *)
Theorem USER_ENTRY_RE_finditer_entries (txt key val : string) :
  (key, val) ∈ _USER_ENTRY_RE_finditer txt 0 →
  ∃ pre post q1 q3 ws1 ws2,
    txt = pre +:+ entry_text q1 key ws1 ws2 q3 val +:+ post
    ∧ is_quote q1 ∧ is_quote q3
    ∧ forallb_str isspace_char ws1 = true ∧ forallb_str isspace_char ws2 = true.
Proof.
  intros Hin.
  apply _USER_ENTRY_RE_finditer_sound in Hin as (pre & s' & rest & -> & Hm).
  apply _USER_ENTRY_RE_match_Some in Hm as (q1 & q3 & ws1 & ws2 & -> & Hrest).
  by exists pre, rest, q1, q3, ws1, ws2.
Qed.

Lemma USER_ENTRY_RE_finditer_entries_witness :
  ∃ pre post q1 q3 ws1 ws2,
    sample_users_js = pre +:+ entry_text q1 " bo " ws1 ws2 q3 "Bo" +:+ post
    ∧ is_quote q1 ∧ is_quote q3.
Proof.
  destruct (USER_ENTRY_RE_finditer_entries sample_users_js " bo " "Bo")
    as (pre & post & q1 & q3 & ws1 & ws2 & Htxt & Hq1 & Hq3 & _).
  - vm_compute. right. left.
  - exists pre, post, q1, q3, ws1, ws2. split; [exact Htxt|]. split; [exact Hq1|exact Hq3].
Defined.

(** X18. A text without a colon holds no entry: whatever the codec,
    [parse_bgg_usernames_from_users_js] returns the empty list for it
    (and [main] then ends with the exit status 2). *)
Theorem parse_bgg_usernames_no_colon
    (unicode_escape : string → option string) (txt : string) :
  count_char COLON txt = 0%nat →
  _USER_ENTRY_RE_finditer txt 0 = []
  ∧ parse_bgg_usernames_from_users_js unicode_escape txt = Ok [].
Proof.
  intros Hcount.
  assert (Hnil : _USER_ENTRY_RE_finditer txt 0 = []).
  { destruct (_USER_ENTRY_RE_finditer txt 0) as [|[key val] ms] eqn:Hms; [done|].
    exfalso.
    destruct (_USER_ENTRY_RE_finditer_sound txt 0 key val) as (pre & s' & rest & -> & Hm).
    { rewrite Hms. left. }
    apply _USER_ENTRY_RE_match_Some in Hm as (q1 & q3 & ws1 & ws2 & -> & _).
    unfold entry_text in Hcount.
    rewrite !count_char_app in Hcount. cbn [count_char] in Hcount.
    rewrite !count_char_app in Hcount. cbn [count_char] in Hcount.
    rewrite !count_char_app in Hcount. cbn [count_char] in Hcount.
    rewrite Ascii.eqb_refl in Hcount. lia. }
  split; [done|]. unfold parse_bgg_usernames_from_users_js. by rewrite Hnil.
Qed.

Lemma parse_bgg_usernames_no_colon_witness :
  parse_bgg_usernames_from_users_js simple_unicode_escape "const users = [ 'amy', 'bo' ]"
  = Ok [].
Proof.
  apply parse_bgg_usernames_no_colon. reflexivity.
Defined.

(** ** How the calls end *)

(** X19. A call of [http_get_xml_text] ends in one of four ways, after
    a number of not-ready answers that were each followed by a sleep:
    it returns the body of a last response whose status is neither 202
    nor between 400 and 599; or it raises [HTTPError] for a last
    response whose status is between 400 and 599; or it raises the
    exception that the last request met in the transport; or, having
    used up its attempts, it raises [TimeoutError]. *)
Theorem http_get_xml_text_outcomes
    (url token : string) (params : list (string * param))
    (timeout max_attempts backoff : Z) (user_agent : string)
    (w w' : World) (r : result string) :
  http_get_xml_text url token params timeout max_attempts backoff user_agent w = (r, w') →
  let req := request_for url token params timeout user_agent in
  ∃ rs, Forall (fun resp => status_code resp = NOT_READY) rs ∧
    ((∃ resp, r = Ok (text resp)
              ∧ status_code resp ≠ NOT_READY
              ∧ ¬ (400 ≤ status_code resp < 600)
              ∧ trace w' = trace w ++ retry_events req backoff rs ++ [EvGet req (Ok resp)])
     ∨ (∃ resp, r = Raise (HTTPError (status_code resp))
                ∧ 400 ≤ status_code resp < 600
                ∧ trace w' = trace w ++ retry_events req backoff rs ++ [EvGet req (Ok resp)])
     ∨ (∃ e, r = Raise e
             ∧ trace w' = trace w ++ retry_events req backoff rs ++ [EvGet req (Raise e)])
     ∨ (r = Raise (TimeoutError
                     (timeout_message url (if 0 <? max_attempts then Some NOT_READY else None)
                        max_attempts))
        ∧ length rs = Z.to_nat max_attempts
        ∧ trace w' = trace w ++ retry_events req backoff rs)).
Proof.
  unfold http_get_xml_text. fold (request_for url token params timeout user_agent).
  intros Hrun. cbv zeta.
  set (req := request_for url token params timeout user_agent) in *.
  destruct (attempts_run _ _ _ _ _ _ _ _ Hrun)
    as (rs & Hall & _ & _ & _ & _ & [(Hlen & Htr & ->)|(Hlen & Hnr & Htr & ->)]).
  - exists rs. split; [done|]. right. right. right. split; [|done].
    do 3 f_equal. destruct (0 <? max_attempts) eqn:Hpos.
    + apply Z.ltb_lt in Hpos. destruct rs; [simpl in Hlen; lia|done].
    + apply Z.ltb_ge in Hpos. destruct rs; [done|simpl in Hlen; lia].
  - exists rs. split; [done|].
    destruct (server w (requests_made w + length rs)%nat req) as [resp|e].
    + simpl in Hnr. apply Z.eqb_neq in Hnr. unfold outcome, ok.
      destruct ((400 <=? status_code resp) && (status_code resp <? 600)) eqn:Hrange; simpl.
      * right. left. exists resp. split; [done|]. split; [lia|done].
      * left. exists resp. split; [done|]. split; [done|]. split; [lia|done].
    + right. right. left. by exists e.
Qed.

Lemma http_get_xml_text_outcomes_witness :
  ∃ w' rs,
    http_get_xml_text BGG_THING_URL "tok" (thing_params [10; 20])
      DEFAULT_TIMEOUT DEFAULT_MAX_ATTEMPTS DEFAULT_BACKOFF_MS DEFAULT_USER_AGENT
      not_found_world = (Raise (HTTPError 404), w')
    ∧ Forall (fun resp => status_code resp = NOT_READY) rs.
Proof.
  destruct (http_get_xml_text BGG_THING_URL "tok" (thing_params [10; 20])
              DEFAULT_TIMEOUT DEFAULT_MAX_ATTEMPTS DEFAULT_BACKOFF_MS DEFAULT_USER_AGENT
              not_found_world) as [r w'] eqn:Hrun.
  destruct (http_get_xml_text_outcomes _ _ _ _ _ _ _ _ _ _ Hrun) as (rs & Hall & _).
  exists w', rs. split; [|exact Hall].
  pose proof Hrun as Hval. vm_compute in Hval. injection Hval as <- _. reflexivity.
Defined.

(** X20. The loop over the users fails fast: when it raises, it is the
    fetch for one of the users that raised; the users before that one
    were fetched, and nothing was requested for the users after it. *)
Theorem fetch_all_fails_fast
    (fromstring : string → option element) (bgg_users : list string) (token : string)
    (m : gmap Z (gset string)) (w w' : World) (e : exn) :
  fetch_all fromstring bgg_users token m w = (Raise e, w') →
  ∃ before username after w1,
    bgg_users = before ++ username :: after
    ∧ (fetched fromstring bgg_users token w).*1 = before
    ∧ fetch_owned_game_ids_for_user fromstring username token w1 = (Raise e, w')
    ∧ extends (pipeline_event (before ++ [username]) token) w w'.
Proof.
  revert m w. induction bgg_users as [|u users IH]; intros m w Hrun; [done|].
  cbn [fetch_all fetched] in *. unfold bind at 1 in Hrun.
  destruct (fetch_owned_game_ids_for_user fromstring u token w) as [[ids|e'] w1] eqn:Hf.
  - unfold bind at 1, sleep in Hrun.
    apply IH in Hrun as (before & v & after & w2 & -> & Hbefore & Hfail & Hext).
    exists (u :: before), v, after, w2. split; [done|].
    split; [by rewrite fmap_cons, Hbefore|]. split; [done|].
    apply fetch_owned_extends in Hf.
    eapply extends_trans; [|eapply extends_trans].
    + eapply extends_mono; [|exact Hf].
      intros [req a|ms]; simpl; [|by left].
      intros ->. left. exists u. split; [left|done].
    + apply (extends_log _ (EvSleep 300)). simpl. by right; left.
    + eapply extends_mono; [|exact Hext]. apply pipeline_event_weaken.
  - injection Hrun as <- <-. exists [], u, users, w. split; [done|]. split; [done|].
    split; [done|]. apply fetch_owned_extends in Hf.
    eapply extends_mono; [|exact Hf].
    intros [req a|ms]; simpl; [|by left].
    intros ->. left. exists u. split; [left|done].
Qed.

Lemma fetch_all_fails_fast_witness :
  ∃ before username after w1 w',
    ["amy"; "bo"]%string = before ++ username :: after
    ∧ fetch_owned_game_ids_for_user sample_docs username "tok" w1
      = (Raise (RequestException "connection reset"), w')
    ∧ extends (pipeline_event (before ++ [username]) "tok") broken_world w'.
Proof.
  destruct (fetch_all sample_docs ["amy"; "bo"]%string "tok" ∅ broken_world)
    as [[m'|e] w'] eqn:Hrun; [vm_compute in Hrun; discriminate Hrun|].
  destruct (fetch_all_fails_fast _ _ _ _ _ _ _ Hrun)
    as (before & u & after & w1 & Husers & _ & Hfail & Hext).
  exists before, u, after, w1, w'. split; [exact Husers|]. split; [|exact Hext].
  pose proof Hrun as Hval. vm_compute in Hval. injection Hval as He _.
  rewrite He. exact Hfail.
Defined.

(** X21. [main] ends with the exit status 0 exactly when there is a
    non-empty token, users.js holds at least one user name and
    [build_games] returns; the output file then holds the header with
    the date and one line for each record [build_games] returned, and
    writing it touches neither the transport nor the trace. *)
Theorem main_writes_games
    (unicode_escape : string → option string) (fromstring : string → option element)
    (casefold : string → string) (BGG_TOKEN users_js : option string) (w w' : World) :
  main unicode_escape fromstring casefold BGG_TOKEN users_js w = (Ok 0, w')
  ↔ ∃ token txt bgg_users games w1,
      BGG_TOKEN = Some token ∧ token ≠ EmptyString
      ∧ users_js = Some txt
      ∧ parse_bgg_usernames_from_users_js unicode_escape txt = Ok bgg_users
      ∧ bgg_users ≠ []
      ∧ build_games fromstring casefold bgg_users token w = (Ok games, w1)
      ∧ w' = mkWorld (server w1) (trace w1) (today w1)
               (Some (join (chr LF) (games_js_lines (today w1) games))).
Proof.
  split.
  - unfold main. destruct BGG_TOKEN as [token|]; [|done].
    destruct (truthy token) eqn:Htok; cbn [negb]; [|done].
    destruct users_js as [txt|]; [|done].
    unfold bind at 1, lift.
    destruct (parse_bgg_usernames_from_users_js unicode_escape txt) as [users|e] eqn:Hparse;
      [|done].
    destruct users as [|u users]; [done|].
    unfold bind at 1.
    destruct (build_games fromstring casefold (u :: users) token w)
      as [[games|e] w1] eqn:Hb; [|done].
    unfold bind at 1. rewrite write_games_js_run. unfold ret. intros [= <-].
    exists token, txt, (u :: users), games, w1.
    apply truthy_nonempty in Htok. done.
  - intros (token & txt & users & games & w1 & -> & Htok & -> & Hparse & Hne & Hb & ->).
    unfold main. apply truthy_nonempty in Htok. rewrite Htok. cbn [negb].
    unfold bind at 1, lift. rewrite Hparse. destruct users as [|u users]; [done|].
    unfold bind at 1. rewrite Hb. unfold bind at 1. by rewrite write_games_js_run.
Qed.

(** The run of the design document's scenario ends with 0. *)
Lemma main_writes_games_witness :
  ∃ w' games w1,
    main simple_unicode_escape sample_docs ascii_casefold (Some "tok"%string)
      (Some two_users_js) sample_world = (Ok 0, w')
    ∧ build_games sample_docs ascii_casefold ["amy"; "bo"]%string "tok" sample_world
      = (Ok games, w1)
    ∧ games_js w' = Some (join (chr LF) (games_js_lines (today w1) games)).
Proof.
  destruct (build_games sample_docs ascii_casefold ["amy"; "bo"]%string "tok" sample_world)
    as [[games|e] w1] eqn:Hb; [|vm_compute in Hb; discriminate Hb].
  eexists _, games, w1. split; [|split; [reflexivity|]].
  - apply main_writes_games.
    exists "tok"%string, two_users_js, ["amy"; "bo"]%string, games, w1.
    split; [reflexivity|]. split; [discriminate|]. split; [reflexivity|].
    split; [vm_compute; reflexivity|]. split; [discriminate|].
    split; [exact Hb|reflexivity].
  - reflexivity.
Defined.
